(** * Commentary concept: threads, comments, reactions and cascading delete

    A shallow embedding of [src/concepts/Commentary/CommentaryConcept.ts].
    The three MongoDB collections are lists of documents in natural
    (insertion) order; every action is a computation in a small state and
    error monad over the database. *)

From stdpp Require Import base option list strings pretty.

(** ** Identifiers and documents *)

(** [type ID = string & { __brand }]: identifiers are opaque strings, and
    [Book], [Section], [User], [Text], [ReactionType], [Comment],
    [Reaction] and [Thread] all alias it (or [string]). *)
Abbreviation ID := string (only parsing).

Module ThreadDoc.
Record t := mk {
  _id : ID;
  book : ID;
  section : ID;
  topLevelCommentIds : list ID
}.
End ThreadDoc.

Module CommentDoc.
Record t := mk {
  _id : ID;
  author : ID;
  body : string;
  threadId : ID;
  parentId : option ID;      (* [parentId?: Comment] *)
  reactionIds : list ID
}.
End CommentDoc.

Module ReactionDoc.
Record t := mk {
  _id : ID;
  reactor : ID;
  targetCommentId : ID;
  type : string
}.
End ReactionDoc.

#[global] Instance ThreadDoc_eq_dec : EqDecision ThreadDoc.t.
Proof. solve_decision. Defined.
#[global] Instance CommentDoc_eq_dec : EqDecision CommentDoc.t.
Proof. solve_decision. Defined.
#[global] Instance ReactionDoc_eq_dec : EqDecision ReactionDoc.t.
Proof. solve_decision. Defined.

(** Every stored document carries the [_id] field on which MongoDB keeps
    its unique index. *)
Class Doc (D : Type) := doc_id : D → ID.
#[global] Instance ThreadDoc_doc : Doc ThreadDoc.t := ThreadDoc._id.
#[global] Instance CommentDoc_doc : Doc CommentDoc.t := CommentDoc._id.
#[global] Instance ReactionDoc_doc : Doc ReactionDoc.t := ReactionDoc._id.

(** ** The database and the identifier generator *)

Record State := mkState {
  st_threads : list ThreadDoc.t;
  st_comments : list CommentDoc.t;
  st_reactions : list ReactionDoc.t;
  st_issued : nat              (* identifiers handed out so far *)
}.

Definition init : State := mkState [] [] [] 0.

(** A [Collection<D>] handle: how to read and replace one collection. *)
Record Collection (D : Type) := mkCollection {
  docs : State → list D;
  put : list D → State → State
}.
Arguments docs {D} _ _.
Arguments put {D} _ _ _.

Definition threads : Collection ThreadDoc.t :=
  mkCollection _ st_threads
    (λ l st, mkState l (st_comments st) (st_reactions st) (st_issued st)).
Definition comments : Collection CommentDoc.t :=
  mkCollection _ st_comments
    (λ l st, mkState (st_threads st) l (st_reactions st) (st_issued st)).
Definition reactions : Collection ReactionDoc.t :=
  mkCollection _ st_reactions
    (λ l st, mkState (st_threads st) (st_comments st) l (st_issued st)).

(** ** Results *)

(** The [{ error: string }] records the actions return. *)
Inductive Error :=
  | ParentNotFound (parent : ID)
  | TargetNotFound (target : ID)
  | AlreadyReacted (reactor : ID) (type : string) (target : ID)
  | CommentNotFound (target : ID)
  | NotAuthor (target : ID).

Definition error_message (e : Error) : string :=
  match e with
  | ParentNotFound parent =>
      "Parent comment with ID " +:+ parent +:+ " not found."
  | TargetNotFound target =>
      "Target comment with ID " +:+ target +:+ " not found."
  | AlreadyReacted reactor type target =>
      "User " +:+ reactor +:+ " already reacted with type " +:+ type
        +:+ " to comment " +:+ target +:+ "."
  | CommentNotFound target =>
      "Comment with ID " +:+ target +:+ " not found."
  | NotAuthor target =>
      "Requestor is not the author of comment " +:+ target +:+ "."
  end.

(** The error taxonomy of the specification. *)
Inductive ErrorKind := NotFound | Forbidden | DuplicateReaction.

Definition error_kind (e : Error) : ErrorKind :=
  match e with
  | ParentNotFound _ | TargetNotFound _ | CommentNotFound _ => NotFound
  | NotAuthor _ => Forbidden
  | AlreadyReacted _ _ _ => DuplicateReaction
  end.

(** How a call ends: a success record, an error record, a rejected promise
    (the driver's E11000 duplicate-key error on [insertOne]), or a loop that
    has not finished within the fuel it was given. *)
Inductive Res (A : Type) :=
  | Ret (a : A)
  | Fail (e : Error)
  | DuplicateKey (id : ID)
  | OutOfFuel.
Arguments Ret {A} _.
Arguments Fail {A} _.
Arguments DuplicateKey {A} _.
Arguments OutOfFuel {A}.

Definition M (A : Type) : Type := State → Res A * State.

#[global] Instance M_ret : MRet M := λ A a st, (Ret a, st).
#[global] Instance M_bind : MBind M := λ A B k m st,
  match m st with
  | (Ret a, st') => k a st'
  | (Fail e, st') => (Fail e, st')
  | (DuplicateKey i, st') => (DuplicateKey i, st')
  | (OutOfFuel, st') => (OutOfFuel, st')
  end.

Definition fail {A} (e : Error) : M A := λ st, (Fail e, st).
Definition out_of_fuel {A} : M A := λ st, (OutOfFuel, st).

(** Modelled from the spec: [freshID] of [utils/database.ts], which is not
    among the sources.  The specification describes the identifier generator
    as producing globally unique opaque identifiers on demand; the model
    hands out the decimal rendering of a counter, so that no identifier is
    issued twice. *)
Definition freshID : M ID := λ st,
  (Ret (pretty (st_issued st)),
   mkState (st_threads st) (st_comments st) (st_reactions st)
           (S (st_issued st))).

(** ** Collection primitives *)

Section primitives.
Context {D : Type} `{Doc D}.

(** [findOne(filter)]: the first matching document, or [null]. *)
Definition findOne_in (P : D → Prop) `{!∀ d, Decision (P d)}
    (l : list D) : option D :=
  head (filter P l).

(** [insertOne(doc)] appends, unless the [_id] is already present. *)
Definition insertOne_in (d : D) (l : list D) : option (list D) :=
  if decide (doc_id d ∈ doc_id <$> l) then None else Some (l ++ [d]).

(** [updateOne(filter, update)] rewrites the first matching document. *)
Fixpoint updateOne_in (P : D → Prop) `{!∀ d, Decision (P d)}
    (f : D → D) (l : list D) : list D :=
  match l with
  | [] => []
  | d :: l' =>
      if decide (P d) then f d :: l' else d :: updateOne_in P f l'
  end.

(** [deleteMany(filter)] drops every matching document. *)
Definition deleteMany_in (P : D → Prop) `{!∀ d, Decision (P d)}
    (l : list D) : list D :=
  filter (λ d, ¬ P d) l.

Definition findOne (c : Collection D) (P : D → Prop)
    `{!∀ d, Decision (P d)} : M (option D) :=
  λ st, (Ret (findOne_in P (docs c st)), st).

(** [find(filter).toArray()] *)
Definition find (c : Collection D) (P : D → Prop)
    `{!∀ d, Decision (P d)} : M (list D) :=
  λ st, (Ret (filter P (docs c st)), st).

Definition insertOne (c : Collection D) (d : D) : M unit :=
  λ st, match insertOne_in d (docs c st) with
        | Some l => (Ret (), put c l st)
        | None => (DuplicateKey (doc_id d), st)
        end.

Definition updateOne (c : Collection D) (P : D → Prop)
    `{!∀ d, Decision (P d)} (f : D → D) : M unit :=
  λ st, (Ret (), put c (updateOne_in P f (docs c st)) st).

Definition deleteMany (c : Collection D) (P : D → Prop)
    `{!∀ d, Decision (P d)} : M unit :=
  λ st, (Ret (), put c (deleteMany_in P (docs c st)) st).
End primitives.

(** [{ $push: { topLevelCommentIds: id } }] *)
Definition push_topLevel (id : ID) (t : ThreadDoc.t) : ThreadDoc.t :=
  ThreadDoc.mk (ThreadDoc._id t) (ThreadDoc.book t) (ThreadDoc.section t)
    (ThreadDoc.topLevelCommentIds t ++ [id]).

(** [{ $pull: { topLevelCommentIds: id } }] removes every occurrence. *)
Definition pull_topLevel (id : ID) (t : ThreadDoc.t) : ThreadDoc.t :=
  ThreadDoc.mk (ThreadDoc._id t) (ThreadDoc.book t) (ThreadDoc.section t)
    (filter (λ x, x ≠ id) (ThreadDoc.topLevelCommentIds t)).

(** [{ $push: { reactionIds: id } }] *)
Definition push_reaction (id : ID) (c : CommentDoc.t) : CommentDoc.t :=
  CommentDoc.mk (CommentDoc._id c) (CommentDoc.author c) (CommentDoc.body c)
    (CommentDoc.threadId c) (CommentDoc.parentId c)
    (CommentDoc.reactionIds c ++ [id]).

(** JavaScript's [!x] on an optional identifier: [undefined] and the empty
    string are both falsy. *)
Definition falsy (o : option ID) : bool :=
  match o with
  | None => true
  | Some s => bool_decide (s = "")
  end.

(** ** Actions *)

(** The filter [{ book, section }] on threads. *)
Definition for_pair (book section : ID) (t : ThreadDoc.t) : Prop :=
  ThreadDoc.book t = book ∧ ThreadDoc.section t = section.

#[global] Instance for_pair_dec book section t :
  Decision (for_pair book section t).
Proof. unfold for_pair; apply _. Defined.

Definition postComment (author book section : ID) (body : string) : M ID :=
  threadDoc ← findOne threads (for_pair book section);
  threadId ← match threadDoc with
             | None =>
                 threadId ← freshID;
                 insertOne threads (ThreadDoc.mk threadId book section []);;
                 mret threadId
             | Some threadDoc => mret (ThreadDoc._id threadDoc)
             end;
  newCommentId ← freshID;
  insertOne comments
    (CommentDoc.mk newCommentId author body threadId None []);;
  updateOne threads (λ t, ThreadDoc._id t = threadId)
    (push_topLevel newCommentId);;
  mret newCommentId.

Definition reply (author parent : ID) (body : string) : M ID :=
  parentComment ← findOne comments (λ c, CommentDoc._id c = parent);
  match parentComment with
  | None => fail (ParentNotFound parent)
  | Some parentComment =>
      newCommentId ← freshID;
      insertOne comments
        (CommentDoc.mk newCommentId author body
           (CommentDoc.threadId parentComment) (Some parent) []);;
      mret newCommentId
  end.

Definition react (reactor target : ID) (type : string) : M ID :=
  targetComment ← findOne comments (λ c, CommentDoc._id c = target);
  match targetComment with
  | None => fail (TargetNotFound target)
  | Some _ =>
      existingReaction ← findOne reactions
        (λ r, ReactionDoc.reactor r = reactor
              ∧ ReactionDoc.targetCommentId r = target
              ∧ ReactionDoc.type r = type);
      match existingReaction with
      | Some _ => fail (AlreadyReacted reactor type target)
      | None =>
          newReactionId ← freshID;
          insertOne reactions
            (ReactionDoc.mk newReactionId reactor target type);;
          updateOne comments (λ c, CommentDoc._id c = target)
            (push_reaction newReactionId);;
          mret newReactionId
      end
  end.

(** The body of [for (const child of directChildren)]: both arrays receive
    the child's id. *)
Definition push_children (directChildren : list CommentDoc.t)
    (queue commentsToDelete : list ID) : list ID * list ID :=
  foldl (λ '(queue, commentsToDelete) child,
           (queue ++ [CommentDoc._id child],
            commentsToDelete ++ [CommentDoc._id child]))
        (queue, commentsToDelete) directChildren.

(** The worklist loop [while (queue.length > 0)] of [deleteComment].  Besides
    [commentsToDelete] it returns the sequence of values [currentCommentId]
    took, a ghost trace the source does not keep. *)
Fixpoint collect (fuel : nat) (queue commentsToDelete visited : list ID)
    : M (list ID * list ID) :=
  match queue with
  | [] => mret (commentsToDelete, visited)
  | currentCommentId :: queue =>
      match fuel with
      | 0 => out_of_fuel
      | S fuel =>
          directChildren ← find comments
            (λ c, CommentDoc.parentId c = Some currentCommentId);
          let '(queue, commentsToDelete) :=
            push_children directChildren queue commentsToDelete in
          collect fuel queue commentsToDelete (visited ++ [currentCommentId])
      end
  end.

Definition deleteComment (fuel : nat) (requestor target : ID) : M unit :=
  targetComment ← findOne comments (λ c, CommentDoc._id c = target);
  match targetComment with
  | None => fail (CommentNotFound target)
  | Some targetComment =>
      if decide (CommentDoc.author targetComment ≠ requestor)
      then fail (NotAuthor target)
      else
        '(commentsToDelete, _) ← collect fuel [target] [target] [];
        deleteMany reactions
          (λ r, ReactionDoc.targetCommentId r ∈ commentsToDelete);;
        deleteMany comments (λ c, CommentDoc._id c ∈ commentsToDelete);;
        (if falsy (CommentDoc.parentId targetComment)
         then updateOne threads
                (λ t, ThreadDoc._id t = CommentDoc.threadId targetComment)
                (pull_topLevel target)
         else mret ());;
        mret ()
  end.

(** ** Queries *)

Definition _getThreadComments (book section : ID) : M (list CommentDoc.t) :=
  threadDoc ← findOne threads (for_pair book section);
  match threadDoc with
  | None => mret []
  | Some threadDoc =>
      find comments (λ c, CommentDoc.threadId c = ThreadDoc._id threadDoc)
  end.

Definition _getCommentReactions (comment : ID) : M (list ReactionDoc.t) :=
  find reactions (λ r, ReactionDoc.targetCommentId r = comment).

Definition _getComment (commentId : ID) : M (option CommentDoc.t) :=
  findOne comments (λ c, CommentDoc._id c = commentId).

Definition _getThreadByBookAndSection (book section : ID)
    : M (option ThreadDoc.t) :=
  findOne threads (for_pair book section).

(** ** Specification-side notions *)

(** The descendant set of [target]: "starting from [target], repeatedly
    collect all comments whose [parentId] equals any comment already
    collected".  It always contains [target] itself. *)
Inductive descendant (cs : list CommentDoc.t) (target : ID) : ID → Prop :=
  | descendant_self : descendant cs target target
  | descendant_child c p :
      descendant cs target p →
      c ∈ cs →
      CommentDoc.parentId c = Some p →
      descendant cs target (CommentDoc._id c).

(** The ids of the direct children of [p], in natural order. *)
Definition children (cs : list CommentDoc.t) (p : ID) : list ID :=
  CommentDoc._id <$> filter (λ c, CommentDoc.parentId c = Some p) cs.

(** The parent links of the comment collection, oldest first. *)
Definition links (cs : list CommentDoc.t) : list (ID * option ID) :=
  (λ c, (CommentDoc._id c, CommentDoc.parentId c)) <$> cs.

(** Comments were created one after the other, each under a fresh id and,
    for a reply, under a parent that existed already. *)
Inductive created_in_order : list (ID * option ID) → Prop :=
  | created_nil : created_in_order []
  | created_snoc l x o :
      created_in_order l →
      x ∉ l.*1 →
      (∀ p, o = Some p → p ∈ l.*1) →
      created_in_order (l ++ [(x, o)]).

(** None of the identifiers the generator has yet to issue occurs in [l]. *)
Definition unissued (n : nat) (l : list ID) : Prop :=
  ∀ k, n ≤ k → pretty k ∉ l.

(** The generator will not hand out an identifier the store already holds. *)
Definition generator_fresh (st : State) : Prop :=
  unissued (st_issued st) (doc_id <$> st_threads st) ∧
  unissued (st_issued st) (doc_id <$> st_comments st) ∧
  unissued (st_issued st) (doc_id <$> st_reactions st).

(** The number of threads of a (book, section) pair. *)
Definition thread_count (book section : ID) (st : State) : nat :=
  length (filter (for_pair book section) (st_threads st)).

Definition at_most_one_thread (st : State) : Prop :=
  ∀ book section, thread_count book section st ≤ 1.

(** A reply lives in the thread of its parent. *)
Definition replies_stay_in_thread (cs : list CommentDoc.t) : Prop :=
  ∀ c p, c ∈ cs → CommentDoc.parentId c = Some p →
    ∃ pc, findOne_in (λ d, CommentDoc._id d = p) cs = Some pc ∧
          CommentDoc.threadId pc = CommentDoc.threadId c.

(** A comment's [reactionIds] are the ids of the reactions that target it. *)
Definition reactions_attached (cs : list CommentDoc.t)
    (rs : list ReactionDoc.t) : Prop :=
  ∀ c, c ∈ cs → ∀ r,
    r ∈ CommentDoc.reactionIds c ↔
    ∃ rd, rd ∈ rs ∧ ReactionDoc._id rd = r ∧
          ReactionDoc.targetCommentId rd = CommentDoc._id c.

(** Every reaction targets a stored comment. *)
Definition reactions_targeted (cs : list CommentDoc.t)
    (rs : list ReactionDoc.t) : Prop :=
  ∀ rd, rd ∈ rs → ReactionDoc.targetCommentId rd ∈ doc_id <$> cs.

(** What a lookup by id and the thread link read of a comment. *)
Definition skeleton (c : CommentDoc.t) : ID * ID * option ID :=
  (CommentDoc._id c, CommentDoc.threadId c, CommentDoc.parentId c).

(** What the thread collection keeps of a thread whatever happens to its
    comments. *)
Definition thread_key (t : ThreadDoc.t) : ID * ID * ID :=
  (ThreadDoc._id t, ThreadDoc.book t, ThreadDoc.section t).

(** ** Calls and reachable states *)

Inductive Call :=
  | PostComment (author book section : ID) (body : string)
  | Reply (author parent : ID) (body : string)
  | React (reactor target : ID) (type : string)
  | DeleteComment (fuel : nat) (requestor target : ID).

Definition step (c : Call) (st : State) : State :=
  match c with
  | PostComment author book section body =>
      (postComment author book section body st).2
  | Reply author parent body => (reply author parent body st).2
  | React reactor target type => (react reactor target type st).2
  | DeleteComment fuel requestor target =>
      (deleteComment fuel requestor target st).2
  end.

Inductive reachable : State → Prop :=
  | reachable_init : reachable init
  | reachable_step st c : reachable st → reachable (step c st).

(** ** Auxiliary notions of the proofs *)

(** The state after one more identifier has been issued. *)
Definition issue (st : State) : State :=
  mkState (st_threads st) (st_comments st) (st_reactions st)
          (S (st_issued st)).

(** The state a successful cascading delete leaves, given the array the
    loop collected. *)
Definition deleted (targetComment : CommentDoc.t) (target : ID)
    (commentsToDelete : list ID) (st : State) : State :=
  mkState
    (if falsy (CommentDoc.parentId targetComment)
     then updateOne_in
            (λ t, ThreadDoc._id t = CommentDoc.threadId targetComment)
            (pull_topLevel target) (st_threads st)
     else st_threads st)
    (deleteMany_in (λ c, CommentDoc._id c ∈ commentsToDelete)
       (st_comments st))
    (deleteMany_in (λ r, ReactionDoc.targetCommentId r ∈ commentsToDelete)
       (st_reactions st))
    (st_issued st).

(** What holds of [queue], [commentsToDelete] and the visited ids at the
    head of the worklist loop run from [target]. *)
Record loop_inv (cs : list CommentDoc.t) (target : ID)
    (q acc vis : list ID) : Prop := {
  li_split : acc = vis ++ q;
  li_target : target ∈ acc;
  li_sound : ∀ x, x ∈ acc → descendant cs target x;
  li_closed : ∀ p x, p ∈ vis → x ∈ children cs p → x ∈ acc
}.

(** [target] is not among the replies below itself. *)
Definition no_cycle_at (cs : list CommentDoc.t) (target : ID) : Prop :=
  ∀ c p, c ∈ cs → CommentDoc._id c = target →
    CommentDoc.parentId c = Some p → ¬ descendant cs target p.

(** And, where no id is collected twice: each collected id other than
    [target] came in as a child of a visited one. *)
Record loop_uniq (cs : list CommentDoc.t) (target : ID)
    (q acc vis : list ID) : Prop := {
  lu_inv : loop_inv cs target q acc vis;
  lu_nodup : NoDup acc;
  lu_origin : ∀ x, x ∈ acc →
    x = target ∨ ∃ p, p ∈ vis ∧ x ∈ children cs p
}.

(** [descendant], read off the parent links alone. *)
Inductive linked (l : list (ID * option ID)) (target : ID) : ID → Prop :=
  | linked_self : linked l target target
  | linked_child x p :
      linked l target p → (x, Some p) ∈ l → linked l target x.

(** The filter of [react]'s duplicate check: the exact triple. *)
Definition same_triple (reactor target : ID) (type : string)
    (r : ReactionDoc.t) : Prop :=
  ReactionDoc.reactor r = reactor ∧
  ReactionDoc.targetCommentId r = target ∧
  ReactionDoc.type r = type.

(** What every reachable state satisfies. *)
Record invariant (st : State) : Prop := {
  inv_fresh : generator_fresh st;
  inv_created : created_in_order (links (st_comments st));
  inv_one_thread : at_most_one_thread st;
  inv_same_thread : replies_stay_in_thread (st_comments st);
  inv_attached : reactions_attached (st_comments st) (st_reactions st);
  inv_targeted : reactions_targeted (st_comments st) (st_reactions st);
  inv_thread_ids : NoDup (doc_id <$> st_threads st)
}.

(** ** Further notions, for the properties beyond the claims *)

(** The (reactor, target, type) triple [react] checks for duplicates. *)
Definition triple (r : ReactionDoc.t) : ID * ID * string :=
  (ReactionDoc.reactor r, ReactionDoc.targetCommentId r, ReactionDoc.type r).

(** The ids of the comments of thread [t] that have no parent, in natural
    order. *)
Definition top_level_of (cs : list CommentDoc.t) (t : ID) : list ID :=
  CommentDoc._id <$>
    filter (λ c, CommentDoc.threadId c = t ∧ CommentDoc.parentId c = None) cs.

(** What nothing but [reactionIds] distinguishes two comments by. *)
Definition content (c : CommentDoc.t)
    : ID * ID * string * ID * option ID :=
  (CommentDoc._id c, CommentDoc.author c, CommentDoc.body c,
   CommentDoc.threadId c, CommentDoc.parentId c).

(** More of what every reachable state satisfies. *)
Record invariant_more (st : State) : Prop := {
  more_triples : NoDup (triple <$> st_reactions st);
  more_reaction_ids : NoDup (doc_id <$> st_reactions st);
  more_threads_exist :
    ∀ c, c ∈ st_comments st →
      CommentDoc.threadId c ∈ doc_id <$> st_threads st;
  more_top_level :
    ∀ t, t ∈ st_threads st →
      ThreadDoc.topLevelCommentIds t
      = top_level_of (st_comments st) (ThreadDoc._id t)
}.

(** ** The Profiles concept

    A shallow embedding of [ProfilesConcept] (the class proposed for
    [src/profiles/ProfilesConcept.ts]).  Its one collection is a list of
    profile documents whose [_id] is the owner. *)

Module ProfileDocument.
Record t := mk {
  _id : ID;                   (* the owner *)
  genres : list ID;
  finishedBooks : list ID;
  currentBooks : list ID
}.
End ProfileDocument.

#[global] Instance ProfileDocument_eq_dec : EqDecision ProfileDocument.t.
Proof. solve_decision. Defined.
#[global] Instance ProfileDocument_doc : Doc ProfileDocument.t :=
  ProfileDocument._id.

Module Profiles.

(** The [{ error: string }] records of the class. *)
Inductive ProfileError :=
  | ProfileExists (owner : ID)
  | ProfileNotFound (owner : ID)
  | GenreAlreadyIn (genre owner : ID)
  | GenreNotIn (genre owner : ID)
  | BookAlreadyCurrent (book owner : ID)
  | BookAlreadyFinished (book owner : ID)
  | BookNotCurrent (book owner : ID)
  | BookNotCurrentToFinish (book owner : ID).

Definition profile_error_message (e : ProfileError) : string :=
  match e with
  | ProfileExists owner =>
      "Profile for user " +:+ owner +:+ " already exists."
  | ProfileNotFound owner =>
      "Profile for user " +:+ owner +:+ " not found."
  | GenreAlreadyIn genre owner =>
      "Genre " +:+ genre +:+ " is already in user " +:+ owner
        +:+ "'s profile."
  | GenreNotIn genre owner =>
      "Genre " +:+ genre +:+ " is not in user " +:+ owner +:+ "'s profile."
  | BookAlreadyCurrent book owner =>
      "Book " +:+ book +:+ " is already in user " +:+ owner
        +:+ "'s current books."
  | BookAlreadyFinished book owner =>
      "Book " +:+ book +:+ " is already in user " +:+ owner
        +:+ "'s finished books."
  | BookNotCurrent book owner =>
      "Book " +:+ book +:+ " is not in user " +:+ owner
        +:+ "'s current books."
  | BookNotCurrentToFinish book owner =>
      "Book " +:+ book +:+ " is not in user " +:+ owner
        +:+ "'s current books, cannot mark as finished."
  end.

(** How a call ends: a success record, an error record, or a rejected
    promise (the duplicate-key error of [insertOne]). *)
Inductive Result (A : Type) :=
  | Ok (a : A)
  | Err (e : ProfileError)
  | Rejected (id : ID).
Arguments Ok {A} _.
Arguments Err {A} _.
Arguments Rejected {A} _.

(** [$addToSet]: append unless present. *)
Definition addToSet (x : ID) (l : list ID) : list ID :=
  if decide (x ∈ l) then l else l ++ [x].

(** [$pull]: remove every occurrence. *)
Definition pull (x : ID) (l : list ID) : list ID :=
  filter (λ y, y ≠ x) l.

Definition on_genres (f : list ID → list ID) (p : ProfileDocument.t)
    : ProfileDocument.t :=
  ProfileDocument.mk (ProfileDocument._id p) (f (ProfileDocument.genres p))
    (ProfileDocument.finishedBooks p) (ProfileDocument.currentBooks p).

Definition on_finishedBooks (f : list ID → list ID) (p : ProfileDocument.t)
    : ProfileDocument.t :=
  ProfileDocument.mk (ProfileDocument._id p) (ProfileDocument.genres p)
    (f (ProfileDocument.finishedBooks p)) (ProfileDocument.currentBooks p).

Definition on_currentBooks (f : list ID → list ID) (p : ProfileDocument.t)
    : ProfileDocument.t :=
  ProfileDocument.mk (ProfileDocument._id p) (ProfileDocument.genres p)
    (ProfileDocument.finishedBooks p) (f (ProfileDocument.currentBooks p)).

Definition owned_by (owner : ID) (p : ProfileDocument.t) : Prop :=
  ProfileDocument._id p = owner.

#[global] Instance owned_by_dec owner p : Decision (owned_by owner p).
Proof. unfold owned_by; apply _. Defined.

Definition createProfile (owner : ID) (profiles : list ProfileDocument.t)
    : Result unit * list ProfileDocument.t :=
  match findOne_in (owned_by owner) profiles with
  | Some _ => (Err (ProfileExists owner), profiles)
  | None =>
      match insertOne_in (ProfileDocument.mk owner [] [] []) profiles with
      | Some profiles' => (Ok (), profiles')
      | None => (Rejected owner, profiles)
      end
  end.

Definition addGenre (owner genre : ID) (profiles : list ProfileDocument.t)
    : Result unit * list ProfileDocument.t :=
  match findOne_in (owned_by owner) profiles with
  | None => (Err (ProfileNotFound owner), profiles)
  | Some profile =>
      if decide (genre ∈ ProfileDocument.genres profile)
      then (Err (GenreAlreadyIn genre owner), profiles)
      else (Ok (),
            updateOne_in (owned_by owner) (on_genres (addToSet genre))
              profiles)
  end.

Definition removeGenre (owner genre : ID)
    (profiles : list ProfileDocument.t)
    : Result unit * list ProfileDocument.t :=
  match findOne_in (owned_by owner) profiles with
  | None => (Err (ProfileNotFound owner), profiles)
  | Some profile =>
      if decide (genre ∈ ProfileDocument.genres profile)
      then (Ok (),
            updateOne_in (owned_by owner) (on_genres (pull genre)) profiles)
      else (Err (GenreNotIn genre owner), profiles)
  end.

Definition addCurrentBook (owner book : ID)
    (profiles : list ProfileDocument.t)
    : Result unit * list ProfileDocument.t :=
  match findOne_in (owned_by owner) profiles with
  | None => (Err (ProfileNotFound owner), profiles)
  | Some profile =>
      if decide (book ∈ ProfileDocument.currentBooks profile)
      then (Err (BookAlreadyCurrent book owner), profiles)
      else if decide (book ∈ ProfileDocument.finishedBooks profile)
      then (Err (BookAlreadyFinished book owner), profiles)
      else (Ok (),
            updateOne_in (owned_by owner) (on_currentBooks (addToSet book))
              profiles)
  end.

Definition removeCurrentBook (owner book : ID)
    (profiles : list ProfileDocument.t)
    : Result unit * list ProfileDocument.t :=
  match findOne_in (owned_by owner) profiles with
  | None => (Err (ProfileNotFound owner), profiles)
  | Some profile =>
      if decide (book ∈ ProfileDocument.currentBooks profile)
      then (Ok (),
            updateOne_in (owned_by owner) (on_currentBooks (pull book))
              profiles)
      else (Err (BookNotCurrent book owner), profiles)
  end.

Definition addFinishedBook (owner book : ID)
    (profiles : list ProfileDocument.t)
    : Result unit * list ProfileDocument.t :=
  match findOne_in (owned_by owner) profiles with
  | None => (Err (ProfileNotFound owner), profiles)
  | Some profile =>
      if decide (book ∈ ProfileDocument.currentBooks profile)
      then
        if decide (book ∈ ProfileDocument.finishedBooks profile)
        then (Err (BookAlreadyFinished book owner), profiles)
        else (Ok (),
              updateOne_in (owned_by owner)
                (λ p, on_currentBooks (pull book)
                        (on_finishedBooks (addToSet book) p))
                profiles)
      else (Err (BookNotCurrentToFinish book owner), profiles)
  end.

(** The queries only read; [_getProfile] answers [null] for a missing
    profile, the three list queries an error record.  The projection they
    pass to [findOne] does not change the list they return. *)
Definition _getProfile (owner : ID) (profiles : list ProfileDocument.t)
    : option ProfileDocument.t :=
  findOne_in (owned_by owner) profiles.

Definition _getGenres (owner : ID) (profiles : list ProfileDocument.t)
    : Result (list ID) :=
  match findOne_in (owned_by owner) profiles with
  | None => Err (ProfileNotFound owner)
  | Some profile => Ok (ProfileDocument.genres profile)
  end.

Definition _getCurrentBooks (owner : ID)
    (profiles : list ProfileDocument.t) : Result (list ID) :=
  match findOne_in (owned_by owner) profiles with
  | None => Err (ProfileNotFound owner)
  | Some profile => Ok (ProfileDocument.currentBooks profile)
  end.

Definition _getFinishedBooks (owner : ID)
    (profiles : list ProfileDocument.t) : Result (list ID) :=
  match findOne_in (owned_by owner) profiles with
  | None => Err (ProfileNotFound owner)
  | Some profile => Ok (ProfileDocument.finishedBooks profile)
  end.

(** Calls and the states they reach from the empty collection. *)
Inductive ProfileCall :=
  | CreateProfile (owner : ID)
  | AddGenre (owner genre : ID)
  | RemoveGenre (owner genre : ID)
  | AddCurrentBook (owner book : ID)
  | RemoveCurrentBook (owner book : ID)
  | AddFinishedBook (owner book : ID).

Definition run (c : ProfileCall) (profiles : list ProfileDocument.t)
    : Result unit * list ProfileDocument.t :=
  match c with
  | CreateProfile owner => createProfile owner profiles
  | AddGenre owner genre => addGenre owner genre profiles
  | RemoveGenre owner genre => removeGenre owner genre profiles
  | AddCurrentBook owner book => addCurrentBook owner book profiles
  | RemoveCurrentBook owner book => removeCurrentBook owner book profiles
  | AddFinishedBook owner book => addFinishedBook owner book profiles
  end.

Definition call_owner (c : ProfileCall) : ID :=
  match c with
  | CreateProfile owner | AddGenre owner _ | RemoveGenre owner _
  | AddCurrentBook owner _ | RemoveCurrentBook owner _
  | AddFinishedBook owner _ => owner
  end.

(** What a call checks of the profile its owner resolves to, and the
    update it then applies to it. *)
Definition permitted (c : ProfileCall) (p : ProfileDocument.t) : Prop :=
  match c with
  | CreateProfile _ => False
  | AddGenre _ genre => genre ∉ ProfileDocument.genres p
  | RemoveGenre _ genre => genre ∈ ProfileDocument.genres p
  | AddCurrentBook _ book =>
      (book ∉ ProfileDocument.currentBooks p) ∧
      (book ∉ ProfileDocument.finishedBooks p)
  | RemoveCurrentBook _ book => book ∈ ProfileDocument.currentBooks p
  | AddFinishedBook _ book =>
      (book ∈ ProfileDocument.currentBooks p) ∧
      (book ∉ ProfileDocument.finishedBooks p)
  end.

Definition update (c : ProfileCall) (p : ProfileDocument.t)
    : ProfileDocument.t :=
  match c with
  | CreateProfile _ => p
  | AddGenre _ genre => on_genres (addToSet genre) p
  | RemoveGenre _ genre => on_genres (pull genre) p
  | AddCurrentBook _ book => on_currentBooks (addToSet book) p
  | RemoveCurrentBook _ book => on_currentBooks (pull book) p
  | AddFinishedBook _ book =>
      on_currentBooks (pull book) (on_finishedBooks (addToSet book) p)
  end.

Inductive attainable : list ProfileDocument.t → Prop :=
  | attainable_nil : attainable []
  | attainable_run profiles c :
      attainable profiles → attainable (run c profiles).2.

(** The three lists of a profile are sets, and no book is both current
    and finished. *)
Record profile_ok (p : ProfileDocument.t) : Prop := {
  ok_genres : NoDup (ProfileDocument.genres p);
  ok_finished : NoDup (ProfileDocument.finishedBooks p);
  ok_current : NoDup (ProfileDocument.currentBooks p);
  ok_disjoint :
    ∀ book, book ∈ ProfileDocument.currentBooks p →
      book ∉ ProfileDocument.finishedBooks p
}.

(** A reader with two genres, one finished and one current book. *)
Definition ann : list ProfileDocument.t :=
  [ProfileDocument.mk "ann" ["scifi"; "crime"] ["dune"] ["emma"]].

End Profiles.

(** ** The Messaging concept

    A shallow embedding of [MessagingConcept] (the class of
    [design/concepts/Messaging/implementation.md], which
    [src/concepts/Messaging/MessagingConcept.test.ts] exercises): chats,
    messages and blocks.  [_getChatMessages], whose order rests on the
    store's sort by timestamp, is left out. *)

Module ChatDoc.
Record t := mk {
  _id : ID;
  participants : list ID;
  messages : list ID           (* message ids *)
}.
End ChatDoc.

Module MessageDoc.
Record t := mk {
  _id : ID;
  author : ID;
  body : string;
  timestamp : nat              (* [Date], in milliseconds *)
}.
End MessageDoc.

Module BlockDoc.
Record t := mk {
  _id : ID;
  blocker : ID;
  blocked : ID
}.
End BlockDoc.

#[global] Instance ChatDoc_eq_dec : EqDecision ChatDoc.t.
Proof. solve_decision. Defined.
#[global] Instance MessageDoc_eq_dec : EqDecision MessageDoc.t.
Proof. solve_decision. Defined.
#[global] Instance BlockDoc_eq_dec : EqDecision BlockDoc.t.
Proof. solve_decision. Defined.
#[global] Instance ChatDoc_doc : Doc ChatDoc.t := ChatDoc._id.
#[global] Instance MessageDoc_doc : Doc MessageDoc.t := MessageDoc._id.
#[global] Instance BlockDoc_doc : Doc BlockDoc.t := BlockDoc._id.

Module Messaging.

Record Store := mkStore {
  chats : list ChatDoc.t;
  messages : list MessageDoc.t;
  blocks : list BlockDoc.t;
  issued : nat                 (* identifiers handed out so far *)
}.

Definition empty : Store := mkStore [] [] [] 0.

(** The [{ error: string }] records of the class. *)
Inductive MessagingError :=
  | TooFewParticipants
  | CreatorNotParticipant
  | BlockExists (u1 u2 : ID)
  | ChatNotFound (chat : ID)
  | AuthorNotParticipant (author chat : ID)
  | LeaverNotParticipant (leaver chat : ID)
  | CannotBlockSelf
  | AlreadyBlocked (requester target : ID).

Definition messaging_error_message (e : MessagingError) : string :=
  match e with
  | TooFewParticipants => "Chat must have at least 2 unique participants."
  | CreatorNotParticipant => "Creator must be one of the participants."
  | BlockExists u1 u2 =>
      "Cannot start chat: A block exists between " +:+ u1 +:+ " and "
        +:+ u2 +:+ "."
  | ChatNotFound chat => "Chat with ID " +:+ chat +:+ " not found."
  | AuthorNotParticipant author chat =>
      "Author " +:+ author +:+ " is not a participant in chat " +:+ chat
        +:+ "."
  | LeaverNotParticipant leaver chat =>
      "User " +:+ leaver +:+ " is not a participant in chat " +:+ chat
        +:+ "."
  | CannotBlockSelf => "Cannot block yourself."
  | AlreadyBlocked requester target =>
      "User " +:+ requester +:+ " has already blocked " +:+ target +:+ "."
  end.

(** How a call ends: a success record, an error record, or a rejected
    promise (the duplicate-key error of [insertOne]). *)
Inductive Outcome (A : Type) :=
  | Done (a : A)
  | Refused (e : MessagingError)
  | KeyClash (id : ID).
Arguments Done {A} _.
Arguments Refused {A} _.
Arguments KeyClash {A} _.

(** Modelled from the spec: [freshID] of [utils/database.ts], which is not
    among the sources; as for the comments, the decimal rendering of a
    counter. *)
Definition fresh (st : Store) : ID := pretty (issued st).

(** [Array.from(new Set(participants))]: the first occurrence of each
    element, in order. *)
Definition unique (l : list ID) : list ID :=
  foldl (λ seen x, if decide (x ∈ seen) then seen else seen ++ [x]) [] l.

(** The filter [{ $or: [{ blocker: u1, blocked: u2 },
    { blocker: u2, blocked: u1 }] }]. *)
Definition between (u1 u2 : ID) (b : BlockDoc.t) : Prop :=
  (BlockDoc.blocker b = u1 ∧ BlockDoc.blocked b = u2) ∨
  (BlockDoc.blocker b = u2 ∧ BlockDoc.blocked b = u1).

#[global] Instance between_dec u1 u2 b : Decision (between u1 u2 b).
Proof. unfold between; apply _. Defined.

(** The inner loop of [startChat], over [j > i]: the first later
    participant with a block between [u1] and them. *)
Fixpoint blocked_with (bs : list BlockDoc.t) (u1 : ID) (rest : list ID)
    : option ID :=
  match rest with
  | [] => None
  | u2 :: rest =>
      match findOne_in (between u1 u2) bs with
      | Some _ => Some u2
      | None => blocked_with bs u1 rest
      end
  end.

(** The outer loop, over [i]: the first blocked pair met. *)
Fixpoint blocked_pair (bs : list BlockDoc.t) (us : list ID)
    : option (ID * ID) :=
  match us with
  | [] => None
  | u1 :: rest =>
      match blocked_with bs u1 rest with
      | Some u2 => Some (u1, u2)
      | None => blocked_pair bs rest
      end
  end.

Definition startChat (creator : ID) (participants : list ID) (st : Store)
    : Outcome ID * Store :=
  let uniqueParticipants := unique participants in
  if decide (length uniqueParticipants < 2)
  then (Refused TooFewParticipants, st)
  else if decide (creator ∉ uniqueParticipants)
  then (Refused CreatorNotParticipant, st)
  else
    match blocked_pair (blocks st) uniqueParticipants with
    | Some (u1, u2) => (Refused (BlockExists u1 u2), st)
    | None =>
        let chatId := fresh st in
        match insertOne_in (ChatDoc.mk chatId uniqueParticipants [])
                (chats st) with
        | Some chats' =>
            (Done chatId,
             mkStore chats' (messages st) (blocks st) (S (issued st)))
        | None =>
            (KeyClash chatId,
             mkStore (chats st) (messages st) (blocks st) (S (issued st)))
        end
    end.

(** [{ $push: { messages: id } }] *)
Definition push_message (id : ID) (c : ChatDoc.t) : ChatDoc.t :=
  ChatDoc.mk (ChatDoc._id c) (ChatDoc.participants c)
    (ChatDoc.messages c ++ [id]).

(** [{ $pull: { participants: user } }] *)
Definition pull_participant (user : ID) (c : ChatDoc.t) : ChatDoc.t :=
  ChatDoc.mk (ChatDoc._id c)
    (filter (λ u, u ≠ user) (ChatDoc.participants c)) (ChatDoc.messages c).

Definition is_chat (chat : ID) (c : ChatDoc.t) : Prop := ChatDoc._id c = chat.

#[global] Instance is_chat_dec chat c : Decision (is_chat chat c).
Proof. unfold is_chat; apply _. Defined.

(** [now] is what [new Date()] reads off the clock. *)
Definition sendMessage (chat author : ID) (body : string) (now : nat)
    (st : Store) : Outcome ID * Store :=
  match findOne_in (is_chat chat) (chats st) with
  | None => (Refused (ChatNotFound chat), st)
  | Some existingChat =>
      if decide (author ∉ ChatDoc.participants existingChat)
      then (Refused (AuthorNotParticipant author chat), st)
      else
        let messageId := fresh st in
        match insertOne_in (MessageDoc.mk messageId author body now)
                (messages st) with
        | Some messages' =>
            (Done messageId,
             mkStore
               (updateOne_in (is_chat chat) (push_message messageId)
                  (chats st))
               messages' (blocks st) (S (issued st)))
        | None =>
            (KeyClash messageId,
             mkStore (chats st) (messages st) (blocks st) (S (issued st)))
        end
  end.

Definition leaveChat (chat leaver : ID) (st : Store)
    : Outcome unit * Store :=
  match findOne_in (is_chat chat) (chats st) with
  | None => (Refused (ChatNotFound chat), st)
  | Some existingChat =>
      if decide (leaver ∉ ChatDoc.participants existingChat)
      then (Refused (LeaverNotParticipant leaver chat), st)
      else
        (Done (),
         mkStore
           (updateOne_in (is_chat chat) (pull_participant leaver)
              (chats st))
           (messages st) (blocks st) (issued st))
  end.

(** The filter [{ participants: { $all: [requester, target] } }]. *)
Definition holds_both (requester target : ID) (c : ChatDoc.t) : Prop :=
  requester ∈ ChatDoc.participants c ∧ target ∈ ChatDoc.participants c.

#[global] Instance holds_both_dec requester target c :
  Decision (holds_both requester target c).
Proof. unfold holds_both; apply _. Defined.

(** The loop [for (const chat of chatsToUpdate)] of [blockUser]. *)
Definition remove_from (requester : ID) (chatsToUpdate : list ChatDoc.t)
    (cs : list ChatDoc.t) : list ChatDoc.t :=
  foldl (λ cs chat,
           updateOne_in (is_chat (ChatDoc._id chat))
             (pull_participant requester) cs)
        cs chatsToUpdate.

Definition blockUser (requester target : ID) (st : Store)
    : Outcome unit * Store :=
  if decide (requester = target)
  then (Refused CannotBlockSelf, st)
  else
    match findOne_in
            (λ b, BlockDoc.blocker b = requester
                  ∧ BlockDoc.blocked b = target) (blocks st) with
    | Some _ => (Refused (AlreadyBlocked requester target), st)
    | None =>
        let blockId := fresh st in
        match insertOne_in (BlockDoc.mk blockId requester target)
                (blocks st) with
        | None =>
            (KeyClash blockId,
             mkStore (chats st) (messages st) (blocks st) (S (issued st)))
        | Some blocks' =>
            let chatsToUpdate :=
              filter (holds_both requester target) (chats st) in
            (Done (),
             mkStore (remove_from requester chatsToUpdate (chats st))
               (messages st) blocks' (S (issued st)))
        end
    end.

Definition _getChatsForUser (user : ID) (st : Store) : list ID :=
  ChatDoc._id <$> filter (λ c, user ∈ ChatDoc.participants c) (chats st).

Definition _isBlocked (requester target : ID) (st : Store) : bool :=
  match findOne_in
          (λ b, BlockDoc.blocker b = requester
                ∧ BlockDoc.blocked b = target) (blocks st) with
  | Some _ => true
  | None => false
  end.

(** Calls and the states they reach from the empty store. *)
Inductive MessagingCall :=
  | StartChat (creator : ID) (participants : list ID)
  | SendMessage (chat author : ID) (body : string) (now : nat)
  | LeaveChat (chat leaver : ID)
  | BlockUser (requester target : ID).

Definition next (c : MessagingCall) (st : Store) : Store :=
  match c with
  | StartChat creator participants => (startChat creator participants st).2
  | SendMessage chat author body now =>
      (sendMessage chat author body now st).2
  | LeaveChat chat leaver => (leaveChat chat leaver st).2
  | BlockUser requester target => (blockUser requester target st).2
  end.

Inductive within_reach : Store → Prop :=
  | within_reach_empty : within_reach empty
  | within_reach_next st c : within_reach st → within_reach (next c st).

(** The error record a call answers with, if it does. *)
Definition error_of {A} (r : Outcome A * Store) : option MessagingError :=
  match r.1 with
  | Refused e => Some e
  | _ => None
  end.

Definition refusal (c : MessagingCall) (st : Store)
    : option MessagingError :=
  match c with
  | StartChat creator participants =>
      error_of (startChat creator participants st)
  | SendMessage chat author body now =>
      error_of (sendMessage chat author body now st)
  | LeaveChat chat leaver => error_of (leaveChat chat leaver st)
  | BlockUser requester target => error_of (blockUser requester target st)
  end.

(** No chat holds both parties of a block. *)
Definition blocks_respected (st : Store) : Prop :=
  ∀ b c, b ∈ blocks st → c ∈ chats st →
    ¬ (BlockDoc.blocker b ∈ ChatDoc.participants c ∧
       BlockDoc.blocked b ∈ ChatDoc.participants c).

(** What every store within reach satisfies. *)
Record sound (st : Store) : Prop := {
  sound_respected : blocks_respected st;
  sound_no_self_block :
    ∀ b, b ∈ blocks st → BlockDoc.blocker b ≠ BlockDoc.blocked b;
  sound_participants :
    ∀ c, c ∈ chats st → NoDup (ChatDoc.participants c);
  sound_chat_ids : NoDup (doc_id <$> chats st);
  sound_message_ids : NoDup (doc_id <$> messages st);
  sound_listed :
    concat (ChatDoc.messages <$> chats st) ≡ₚ doc_id <$> messages st;
  sound_fresh :
    unissued (issued st) (doc_id <$> chats st) ∧
    unissued (issued st) (doc_id <$> messages st) ∧
    unissued (issued st) (doc_id <$> blocks st)
}.

(** Alice, Bob and Carol share chat ["0"]; Alice and Bob have chat ["1"];
    Carol has blocked Dave. *)
Definition club : Store :=
  Eval vm_compute in
    next (BlockUser "carol" "dave")
      (next (SendMessage "0" "bob" "hello" 1000)
         (next (StartChat "alice" ["alice"; "bob"])
            (next (StartChat "alice" ["alice"; "bob"; "carol"; "bob"])
               empty))).

End Messaging.

(** ** A running example *)

(** A running example: alice posts comment ["1"] on (B1, S1), which opens
    thread ["0"]; bob replies (["2"]) and reacts twice (["3"], ["4"]);
    alice reacts (["5"]); carol replies to bob (["6"]). *)
Definition demo_calls : list Call :=
  [ PostComment "alice" "B1" "S1" "A";
    Reply "bob" "1" "re: A";
    React "bob" "1" "like";
    React "bob" "1" "love";
    React "alice" "1" "like";
    Reply "carol" "2" "re: re: A" ].

Definition run_calls (calls : list Call) (st : State) : State :=
  foldl (λ st c, step c st) st calls.

Definition demo : State := Eval vm_compute in run_calls demo_calls init.

(** The example after alice has deleted her comment. *)
Definition demo_deleted : State :=
  Eval vm_compute in (deleteComment 9 "alice" "1" demo).2.

(** A thread whose only top-level comment has one reply. *)
Definition demo_only_child : State :=
  Eval vm_compute in
    run_calls [PostComment "alice" "B1" "S1" "A"; Reply "bob" "1" "re: A"]
      init.

(** * Proofs *)

(** ** Collection primitives *)

Section primitives_facts.
Context {D : Type} `{Doc D}.
Implicit Types (l : list D) (d : D).

Lemma findOne_in_Some (P : D → Prop) `{!∀ d, Decision (P d)} l d :
  findOne_in P l = Some d → d ∈ l ∧ P d.
Proof.
  unfold findOne_in. intros Hh.
  apply head_Some_elem_of, list_elem_of_filter in Hh. tauto.
Qed.

Lemma findOne_in_None (P : D → Prop) `{!∀ d, Decision (P d)} l :
  findOne_in P l = None ↔ ∀ d, d ∈ l → ¬ P d.
Proof.
  unfold findOne_in. rewrite head_None. split.
  - intros Hnil d Hd HP. eapply filter_nil_not_elem_of; eauto.
  - intros Hno. induction l as [|d l IH]; [done|].
    rewrite filter_cons. destruct (decide (P d)) as [HP|_].
    + exfalso. eapply Hno; [left|done].
    + apply IH. intros d' Hd'. apply Hno. by right.
Qed.

Lemma findOne_in_app (P : D → Prop) `{!∀ d, Decision (P d)} l l' :
  findOne_in P (l ++ l') =
  match findOne_in P l with
  | Some d => Some d
  | None => findOne_in P l'
  end.
Proof.
  unfold findOne_in. rewrite filter_app.
  by destruct (filter P l).
Qed.

Lemma findOne_in_cons (P : D → Prop) `{!∀ d, Decision (P d)} l d :
  findOne_in P (d :: l) = if decide (P d) then Some d else findOne_in P l.
Proof. unfold findOne_in. rewrite filter_cons. by destruct (decide (P d)). Qed.

(** Under the unique index, looking a stored document up by its id gives
    that document. *)
Lemma findOne_in_id_unique l d :
  NoDup (doc_id <$> l) → d ∈ l →
  findOne_in (λ d', doc_id d' = doc_id d) l = Some d.
Proof.
  induction l as [|d0 l IH]; intros Hnd Hd; [by apply elem_of_nil in Hd|].
  rewrite fmap_cons in Hnd. apply NoDup_cons in Hnd as [Hnotin Hnd].
  rewrite findOne_in_cons.
  apply elem_of_cons in Hd as [->|Hd].
  - by rewrite decide_True.
  - rewrite decide_False; [by apply IH|].
    intros Heq. apply Hnotin. rewrite Heq. by apply list_elem_of_fmap_2.
Qed.

Lemma NoDup_id_inj l d d' :
  NoDup (doc_id <$> l) → d ∈ l → d' ∈ l → doc_id d = doc_id d' → d = d'.
Proof.
  intros Hnd Hd Hd' Heq.
  pose proof (findOne_in_id_unique l d Hnd Hd) as E1.
  pose proof (findOne_in_id_unique l d' Hnd Hd') as E2.
  rewrite Heq in E1. congruence.
Qed.

Lemma length_updateOne_in (P : D → Prop) `{!∀ d, Decision (P d)} f l :
  length (updateOne_in P f l) = length l.
Proof.
  induction l as [|d l IH]; [done|]. simpl.
  case_decide; simpl; by rewrite ?IH.
Qed.

(** An update that keeps a projection of every document keeps the
    projection of the collection. *)
Lemma fmap_updateOne_in {B} (g : D → B) (P : D → Prop)
    `{!∀ d, Decision (P d)} f l :
  (∀ d, g (f d) = g d) → g <$> updateOne_in P f l = g <$> l.
Proof.
  intros Hg. induction l as [|d l IH]; [done|]. simpl.
  case_decide; rewrite !fmap_cons; by rewrite ?Hg, ?IH.
Qed.

Lemma updateOne_in_findOne (P : D → Prop) `{!∀ d, Decision (P d)} f l d :
  findOne_in P l = Some d → P (f d) →
  findOne_in P (updateOne_in P f l) = Some (f d).
Proof.
  induction l as [|d0 l IH]; [done|]. rewrite findOne_in_cons. simpl.
  destruct (decide (P d0)) as [HP|HP]; intros Hd Hf.
  - simplify_eq. rewrite findOne_in_cons. by rewrite decide_True.
  - rewrite findOne_in_cons, decide_False by done. by apply IH.
Qed.

Lemma updateOne_in_lookup_other (P : D → Prop) `{!∀ d, Decision (P d)}
    f l (i : nat) d :
  l !! i = Some d → ¬ P d → updateOne_in P f l !! i = Some d.
Proof.
  revert i. induction l as [|d0 l IH]; intros i; [done|]. simpl.
  destruct i as [|i]; simpl; intros Hl HP.
  - simplify_eq. by rewrite decide_False.
  - case_decide; [done|]. by apply IH.
Qed.

Lemma updateOne_in_snoc (P : D → Prop) `{!∀ d, Decision (P d)} f l d :
  findOne_in P l = None → P d → updateOne_in P f (l ++ [d]) = l ++ [f d].
Proof.
  intros Hno HP. induction l as [|d0 l IH]; simpl.
  - by rewrite decide_True.
  - rewrite findOne_in_cons in Hno.
    destruct (decide (P d0)); [done|]. by rewrite IH.
Qed.

Lemma elem_of_deleteMany_in (P : D → Prop) `{!∀ d, Decision (P d)} l d :
  d ∈ deleteMany_in P l ↔ d ∈ l ∧ ¬ P d.
Proof. unfold deleteMany_in. rewrite list_elem_of_filter. tauto. Qed.
Lemma findOne_in_filter (P Q : D → Prop) `{!∀ d, Decision (P d)}
    `{!∀ d, Decision (Q d)} l d :
  findOne_in P l = Some d → Q d → findOne_in P (filter Q l) = Some d.
Proof.
  induction l as [|d0 l IH]; [done|]. rewrite findOne_in_cons.
  intros Hfind HQ. rewrite filter_cons.
  destruct (decide (P d0)) as [HP|HP].
  - simplify_eq. rewrite decide_True by done.
    rewrite findOne_in_cons. by rewrite decide_True.
  - destruct (decide (Q d0)); [|by apply IH].
    rewrite findOne_in_cons, decide_False by done. by apply IH.
Qed.

(** A lookup sees of a collection only what its filter reads. *)
Lemma findOne_in_fmap {B} (g : D → B) (P : B → Prop)
    `{!∀ b, Decision (P b)} l l' :
  g <$> l' = g <$> l →
  g <$> findOne_in (λ d, P (g d)) l' = g <$> findOne_in (λ d, P (g d)) l.
Proof.
  revert l'. induction l as [|d l IH]; intros [|d' l']; try done.
  rewrite !fmap_cons. intros [= Hd Hl]. rewrite !findOne_in_cons.
  rewrite Hd. destruct (decide (P (g d))); simpl; [by rewrite Hd|].
  by apply IH.
Qed.

Lemma length_filter_updateOne_in (P Q : D → Prop)
    `{!∀ d, Decision (P d)} `{!∀ d, Decision (Q d)} f l :
  (∀ d, Q (f d) ↔ Q d) →
  length (filter Q (updateOne_in P f l)) = length (filter Q l).
Proof.
  intros HQ. induction l as [|d l IH]; [done|]. simpl.
  destruct (decide (P d)).
  - rewrite !filter_cons.
    pose proof (HQ d) as [Hfd Hd].
    destruct (decide (Q (f d))), (decide (Q d)); try done; tauto.
  - rewrite !filter_cons. destruct (decide (Q d)); simpl; by rewrite IH.
Qed.

(** Under the unique index an update by id touches the one document of
    that id. *)
Lemma elem_of_updateOne_in_id f l (x : ID) d :
  NoDup (doc_id <$> l) →
  d ∈ updateOne_in (λ d', doc_id d' = x) f l ↔
  (d ∈ l ∧ doc_id d ≠ x) ∨ (∃ d0, d0 ∈ l ∧ doc_id d0 = x ∧ d = f d0).
Proof.
  induction l as [|d0 l IH]; intros Hnd.
  - simpl. split; [by intros ?%elem_of_nil|].
    intros [[?%elem_of_nil _]|(? & ?%elem_of_nil & _)]; done.
  - rewrite fmap_cons in Hnd. apply NoDup_cons in Hnd as [Hnotin Hnd].
    simpl. destruct (decide (doc_id d0 = x)) as [Hx|Hx].
    + assert (∀ d', d' ∈ l → doc_id d' ≠ x) as Hl.
      { intros d' Hd' Heq. apply Hnotin. rewrite Hx, <- Heq.
        by apply list_elem_of_fmap_2. }
      rewrite elem_of_cons. split.
      * intros [->|Hd]; [right; exists d0; split; [left|done]|].
        left. split; [by right|by apply Hl].
      * intros [[[->|Hd]%elem_of_cons Hne]|(d1 & Hd1 & Hid & ->)].
        -- done.
        -- by right.
        -- apply elem_of_cons in Hd1 as [->|Hd1]; [by left|].
           by apply Hl in Hd1.
    + rewrite elem_of_cons, (IH Hnd). split.
      * intros [->|[[Hd Hne]|(d1 & Hd1 & Hid & ->)]].
        -- left. split; [left|done].
        -- left. split; [by right|done].
        -- right. exists d1. split; [by right|done].
      * intros [[[->|Hd]%elem_of_cons Hne]|(d1 & Hd1 & Hid & ->)].
        -- by left.
        -- right. left. done.
        -- apply elem_of_cons in Hd1 as [->|Hd1]; [done|].
           right. right. eauto.
Qed.

(** Under the unique index, a document found by some filter and then
    updated by its id is found again, updated. *)
Lemma updateOne_in_id_findOne (P : D → Prop) `{!∀ d, Decision (P d)}
    f l d :
  NoDup (doc_id <$> l) →
  findOne_in P l = Some d → P (f d) →
  findOne_in P (updateOne_in (λ d', doc_id d' = doc_id d) f l)
    = Some (f d).
Proof.
  induction l as [|d0 l IH]; intros Hnd; [done|].
  rewrite fmap_cons in Hnd. apply NoDup_cons in Hnd as [Hnotin Hnd].
  rewrite findOne_in_cons. simpl.
  destruct (decide (P d0)) as [HP|HP]; intros Hfind Hf.
  - simplify_eq. rewrite decide_True by done.
    rewrite findOne_in_cons. by rewrite decide_True.
  - rewrite decide_False.
    + rewrite findOne_in_cons, decide_False by done. by apply IH.
    + intros Heq. apply Hnotin. rewrite Heq.
      apply list_elem_of_fmap_2. by apply findOne_in_Some in Hfind as [? _].
Qed.
End primitives_facts.

(** ** The worklist loop *)

Lemma push_children_spec directChildren queue commentsToDelete :
  push_children directChildren queue commentsToDelete =
  (queue ++ (CommentDoc._id <$> directChildren),
   commentsToDelete ++ (CommentDoc._id <$> directChildren)).
Proof.
  unfold push_children.
  revert queue commentsToDelete.
  induction directChildren as [|child l IH]; intros queue acc; simpl.
  - by rewrite !app_nil_r.
  - rewrite IH. by rewrite <- !app_assoc.
Qed.

Lemma collect_nil fuel acc vis st :
  collect fuel [] acc vis st = (Ret (acc, vis), st).
Proof. by destruct fuel. Qed.

Lemma collect_0 cur q acc vis st :
  collect 0 (cur :: q) acc vis st = (OutOfFuel, st).
Proof. done. Qed.

(** One turn of the loop: [currentCommentId] leaves the queue and its direct
    children join both arrays. *)
Lemma collect_S fuel cur q acc vis st :
  collect (S fuel) (cur :: q) acc vis st =
  collect fuel (q ++ children (st_comments st) cur)
    (acc ++ children (st_comments st) cur) (vis ++ [cur]) st.
Proof.
  simpl. unfold mbind, M_bind, find. simpl.
  by rewrite push_children_spec.
Qed.

(** The loop only reads. *)
Lemma collect_state fuel q acc vis st :
  (collect fuel q acc vis st).2 = st.
Proof.
  revert q acc vis. induction fuel as [|fuel IH]; intros [|cur q] acc vis;
    rewrite ?collect_nil, ?collect_0, ?collect_S; auto.
Qed.

(** More fuel does not change a result. *)
Lemma collect_fuel_mono fuel fuel' q acc vis st r :
  collect fuel q acc vis st = (Ret r, st) → fuel ≤ fuel' →
  collect fuel' q acc vis st = (Ret r, st).
Proof.
  revert fuel' q acc vis.
  induction fuel as [|fuel IH]; intros fuel' [|cur q] acc vis;
    rewrite ?collect_nil, ?collect_0; try done; try tauto.
  rewrite collect_S. intros Hr Hle.
  destruct fuel' as [|fuel']; [lia|].
  rewrite collect_S. apply IH; [done|lia].
Qed.

(** A loop invariant established at entry and kept by every turn holds at
    exit. *)
Lemma collect_invariant (I : list ID → list ID → list ID → Prop) st :
  (∀ cur q acc vis,
     I (cur :: q) acc vis →
     I (q ++ children (st_comments st) cur)
       (acc ++ children (st_comments st) cur) (vis ++ [cur])) →
  ∀ fuel q acc vis ids vis' st',
    I q acc vis →
    collect fuel q acc vis st = (Ret (ids, vis'), st') →
    I [] ids vis'.
Proof.
  intros Hstep fuel.
  induction fuel as [|fuel IH]; intros [|cur q] acc vis ids vis' st' HI;
    rewrite ?collect_nil, ?collect_0, ?collect_S; try done.
  - by intros [= <- <- _].
  - by intros [= <- <- _].
  - apply IH. by apply Hstep.
Qed.

Section worklist.
Variable cs : list CommentDoc.t.
Variable target : ID.

Lemma elem_of_children p x :
  x ∈ children cs p ↔
  ∃ c, c ∈ cs ∧ CommentDoc.parentId c = Some p ∧ CommentDoc._id c = x.
Proof.
  unfold children. rewrite list_elem_of_fmap. split.
  - intros (c & -> & Hc). apply list_elem_of_filter in Hc as [? ?]. eauto.
  - intros (c & Hc & Hp & <-). exists c. split; [done|].
    by apply list_elem_of_filter.
Qed.

Lemma descendant_stored x :
  descendant cs target x → x = target ∨ x ∈ doc_id <$> cs.
Proof.
  destruct 1 as [|c p _ Hc _]; [by left|right].
  by apply list_elem_of_fmap_2.
Qed.

Lemma loop_inv_init : loop_inv cs target [target] [target] [].
Proof.
  split.
  - done.
  - by apply list_elem_of_singleton.
  - intros x ->%list_elem_of_singleton. constructor.
  - by intros p x ?%elem_of_nil.
Qed.

Lemma loop_inv_step cur q acc vis :
  loop_inv cs target (cur :: q) acc vis →
  loop_inv cs target (q ++ children cs cur) (acc ++ children cs cur)
    (vis ++ [cur]).
Proof.
  intros [Hsplit Htarget Hsound Hclosed]. split.
  - rewrite Hsplit. by rewrite <- !app_assoc.
  - apply elem_of_app. by left.
  - intros x [Hx|Hx]%elem_of_app; [by apply Hsound|].
    apply elem_of_children in Hx as (c & Hc & Hp & <-).
    eapply descendant_child; [|done|done].
    apply Hsound. rewrite Hsplit. apply elem_of_app. right. left.
  - intros p x [Hp| ->%list_elem_of_singleton]%elem_of_app Hx;
      apply elem_of_app; [left|by right].
    by eapply Hclosed.
Qed.

(** At exit [commentsToDelete] is the descendant set, and it is the
    sequence of visited ids. *)
Lemma loop_inv_exit ids vis :
  loop_inv cs target [] ids vis →
  ids = vis ∧ ∀ x, x ∈ ids ↔ descendant cs target x.
Proof.
  intros [Hsplit Htarget Hsound Hclosed].
  rewrite app_nil_r in Hsplit. subst vis. split; [done|].
  intros x. split; [apply Hsound|].
  induction 1 as [|c p _ IH Hc Hp]; [done|].
  eapply Hclosed; [exact IH|]. apply elem_of_children. eauto.
Qed.

(** *** No id is collected twice *)

Hypothesis unique_ids : NoDup (doc_id <$> cs).
Hypothesis target_no_cycle : no_cycle_at cs target.

Lemma loop_uniq_init : loop_uniq cs target [target] [target] [].
Proof.
  split.
  - apply loop_inv_init.
  - apply NoDup_singleton.
  - intros x ->%list_elem_of_singleton. by left.
Qed.

Lemma NoDup_children p : NoDup (children cs p).
Proof.
  unfold children. eapply sublist_NoDup; [exact unique_ids|].
  apply fmap_sublist, sublist_filter.
Qed.

Lemma children_parent_unique p p' x :
  x ∈ children cs p → x ∈ children cs p' → p = p'.
Proof.
  intros (c & Hc & Hp & Hx)%elem_of_children.
  intros (c' & Hc' & Hp' & Hx')%elem_of_children.
  assert (c = c') as <-.
  { eapply (NoDup_id_inj cs); [done..|]. unfold doc_id, CommentDoc_doc.
    congruence. }
  congruence.
Qed.

Lemma loop_uniq_step cur q acc vis :
  loop_uniq cs target (cur :: q) acc vis →
  loop_uniq cs target (q ++ children cs cur) (acc ++ children cs cur)
    (vis ++ [cur]).
Proof.
  intros [Hinv Hnd Horigin]. split.
  - by apply loop_inv_step.
  - apply NoDup_app. split; [done|]. split; [|apply NoDup_children].
    intros x Hacc Hch.
    pose proof (li_split _ _ _ _ _ Hinv) as Hsplit.
    assert (cur ∉ vis) as Hcur.
    { rewrite Hsplit in Hnd. apply NoDup_app in Hnd as (_ & Hdisj & _).
      intros Hin. apply (Hdisj _ Hin). left. }
    destruct (Horigin x Hacc) as [->|(p & Hp & Hx)].
    + apply elem_of_children in Hch as (c & Hc & Hpar & Hid).
      eapply target_no_cycle; [done..|].
      apply (li_sound _ _ _ _ _ Hinv). rewrite Hsplit.
      apply elem_of_app. right. left.
    + by rewrite (children_parent_unique _ _ _ Hch Hx) in Hcur.
  - intros x [Hx|Hx]%elem_of_app.
    + destruct (Horigin x Hx) as [?|(p & Hp & Hch)]; [by left|right].
      exists p. split; [|done]. apply elem_of_app. by left.
    + right. exists cur. split; [|done].
      apply elem_of_app. right. by apply list_elem_of_singleton.
Qed.

Lemma loop_uniq_length q acc vis :
  loop_uniq cs target q acc vis → length acc ≤ S (length cs).
Proof.
  intros [Hinv Hnd _].
  transitivity (length (target :: (doc_id <$> cs)));
    [|simpl; by rewrite length_fmap].
  apply submseteq_length, NoDup_submseteq; [done|].
  intros x Hx. apply elem_of_cons.
  by apply descendant_stored, (li_sound _ _ _ _ _ Hinv).
Qed.
End worklist.

(** ** The actions, step by step *)

Lemma postComment_run author book section body st :
  postComment author book section body st =
  match findOne_in (for_pair book section) (st_threads st) with
  | Some threadDoc =>
      let cid := pretty (st_issued st) in
      if decide (cid ∈ doc_id <$> st_comments st)
      then (DuplicateKey cid, issue st)
      else (Ret cid,
            mkState
              (updateOne_in (λ t, ThreadDoc._id t = ThreadDoc._id threadDoc)
                 (push_topLevel cid) (st_threads st))
              (st_comments st ++
                 [CommentDoc.mk cid author body (ThreadDoc._id threadDoc)
                    None []])
              (st_reactions st) (S (st_issued st)))
  | None =>
      let tid := pretty (st_issued st) in
      let cid := pretty (S (st_issued st)) in
      let ts := st_threads st ++ [ThreadDoc.mk tid book section []] in
      if decide (tid ∈ doc_id <$> st_threads st)
      then (DuplicateKey tid, issue st)
      else if decide (cid ∈ doc_id <$> st_comments st)
      then (DuplicateKey cid,
            mkState ts (st_comments st) (st_reactions st)
              (S (S (st_issued st))))
      else (Ret cid,
            mkState
              (updateOne_in (λ t, ThreadDoc._id t = tid)
                 (push_topLevel cid) ts)
              (st_comments st ++ [CommentDoc.mk cid author body tid None []])
              (st_reactions st) (S (S (st_issued st))))
  end.
Proof.
  unfold postComment, mbind, M_bind, mret, M_ret, findOne, insertOne,
    updateOne, freshID, insertOne_in, issue. simpl.
  destruct (findOne_in _ _) as [threadDoc|]; simpl.
  - unfold doc_id at 1, CommentDoc_doc at 1. simpl.
    by destruct (decide (_ ∈ _)).
  - unfold doc_id at 1, ThreadDoc_doc at 1. simpl.
    destruct (decide (_ ∈ _)); [done|]. simpl.
    unfold doc_id at 1, CommentDoc_doc at 1. simpl.
    by destruct (decide (_ ∈ _)).
Qed.

Lemma reply_run author parent body st :
  reply author parent body st =
  match findOne_in (λ c, CommentDoc._id c = parent) (st_comments st) with
  | None => (Fail (ParentNotFound parent), st)
  | Some parentComment =>
      let cid := pretty (st_issued st) in
      if decide (cid ∈ doc_id <$> st_comments st)
      then (DuplicateKey cid, issue st)
      else (Ret cid,
            mkState (st_threads st)
              (st_comments st ++
                 [CommentDoc.mk cid author body
                    (CommentDoc.threadId parentComment) (Some parent) []])
              (st_reactions st) (S (st_issued st)))
  end.
Proof.
  unfold reply, mbind, M_bind, mret, M_ret, findOne, insertOne, fail,
    freshID, insertOne_in, issue. simpl.
  destruct (findOne_in _ _) as [parentComment|]; [|done]. simpl.
  unfold doc_id at 1, CommentDoc_doc at 1. simpl.
  by destruct (decide (_ ∈ _)).
Qed.

Lemma react_run reactor target type st :
  react reactor target type st =
  match findOne_in (λ c, CommentDoc._id c = target) (st_comments st) with
  | None => (Fail (TargetNotFound target), st)
  | Some _ =>
      match findOne_in
              (λ r, ReactionDoc.reactor r = reactor
                    ∧ ReactionDoc.targetCommentId r = target
                    ∧ ReactionDoc.type r = type) (st_reactions st) with
      | Some _ => (Fail (AlreadyReacted reactor type target), st)
      | None =>
          let rid := pretty (st_issued st) in
          if decide (rid ∈ doc_id <$> st_reactions st)
          then (DuplicateKey rid, issue st)
          else (Ret rid,
                mkState (st_threads st)
                  (updateOne_in (λ c, CommentDoc._id c = target)
                     (push_reaction rid) (st_comments st))
                  (st_reactions st ++
                     [ReactionDoc.mk rid reactor target type])
                  (S (st_issued st)))
      end
  end.
Proof.
  unfold react, mbind, M_bind, mret, M_ret, findOne, insertOne, updateOne,
    fail, freshID, insertOne_in, issue. simpl.
  destruct (findOne_in _ (st_comments st)); [|done]. simpl.
  destruct (findOne_in _ (st_reactions st)); [done|]. simpl.
  unfold doc_id at 1, ReactionDoc_doc at 1. simpl.
  by destruct (decide (_ ∈ _)).
Qed.

Lemma deleteComment_run fuel requestor target st :
  deleteComment fuel requestor target st =
  match findOne_in (λ c, CommentDoc._id c = target) (st_comments st) with
  | None => (Fail (CommentNotFound target), st)
  | Some targetComment =>
      if decide (CommentDoc.author targetComment ≠ requestor)
      then (Fail (NotAuthor target), st)
      else
        match (collect fuel [target] [target] [] st).1 with
        | Ret (commentsToDelete, _) =>
            (Ret (), deleted targetComment target commentsToDelete st)
        | Fail e => (Fail e, st)
        | DuplicateKey i => (DuplicateKey i, st)
        | OutOfFuel => (OutOfFuel, st)
        end
  end.
Proof.
  unfold deleteComment, mbind, M_bind at 1, findOne at 1, fail. simpl.
  destruct (findOne_in _ _) as [targetComment|]; [|done].
  destruct (decide (_ ≠ _)); [done|].
  unfold M_bind at 1.
  pose proof (collect_state fuel [target] [target] [] st) as Hst.
  destruct (collect fuel [target] [target] [] st) as [[[ids vis]| | |] st1];
    simpl in *; subst st1; try done.
  unfold M_bind, mret, M_ret, deleteMany, updateOne, deleted. simpl.
  by destruct (falsy _).
Qed.

(** ** What the loop computes *)

Lemma collect_descendants fuel st target ids vis st' :
  collect fuel [target] [target] [] st = (Ret (ids, vis), st') →
  ids = vis ∧ ∀ x, x ∈ ids ↔ descendant (st_comments st) target x.
Proof.
  intros Hrun. apply loop_inv_exit.
  eapply (collect_invariant (loop_inv (st_comments st) target));
    [apply loop_inv_step|apply loop_inv_init|exact Hrun].
Qed.

Lemma collect_NoDup fuel st target ids vis st' :
  NoDup (doc_id <$> st_comments st) →
  no_cycle_at (st_comments st) target →
  collect fuel [target] [target] [] st = (Ret (ids, vis), st') →
  NoDup ids.
Proof.
  intros Hnd Hcyc Hrun.
  eapply lu_nodup,
    (collect_invariant (loop_uniq (st_comments st) target));
    [|apply loop_uniq_init|exact Hrun].
  intros. by apply loop_uniq_step.
Qed.

(** Enough fuel for every comment, and one turn more, lets the loop finish. *)
Lemma collect_terminates_from st target fuel q acc vis :
  NoDup (doc_id <$> st_comments st) →
  no_cycle_at (st_comments st) target →
  loop_uniq (st_comments st) target q acc vis →
  S (length (st_comments st)) ≤ fuel + length vis →
  ∃ ids, collect fuel q acc vis st = (Ret (ids, ids), st).
Proof.
  intros Hnd Hcyc. revert q acc vis.
  induction fuel as [|fuel IH]; intros [|cur q] acc vis Hu Hfuel.
  - rewrite collect_nil. pose proof (li_split _ _ _ _ _ (lu_inv _ _ _ _ _ Hu)).
    rewrite app_nil_r in *. subst. eauto.
  - exfalso. pose proof (loop_uniq_length _ _ _ _ _ Hu) as Hlen.
    rewrite (li_split _ _ _ _ _ (lu_inv _ _ _ _ _ Hu)), length_app in Hlen.
    simpl in *. lia.
  - rewrite collect_nil. pose proof (li_split _ _ _ _ _ (lu_inv _ _ _ _ _ Hu)).
    rewrite app_nil_r in *. subst. eauto.
  - rewrite collect_S. apply IH; [by apply loop_uniq_step|].
    rewrite length_app. simpl. lia.
Qed.

Lemma collect_terminates st target fuel :
  NoDup (doc_id <$> st_comments st) →
  no_cycle_at (st_comments st) target →
  S (length (st_comments st)) ≤ fuel →
  ∃ ids, collect fuel [target] [target] [] st = (Ret (ids, ids), st) ∧
         NoDup ids ∧
         ∀ x, x ∈ ids ↔ descendant (st_comments st) target x.
Proof.
  intros Hnd Hcyc Hfuel.
  destruct (collect_terminates_from st target fuel [target] [target] [])
    as [ids Hrun]; [done|done|by apply loop_uniq_init|simpl; lia|].
  exists ids. split; [done|]. split.
  - by eapply collect_NoDup.
  - by eapply collect_descendants.
Qed.

(** ** Creation order rules out cycles *)

Lemma descendant_linked cs target x :
  descendant cs target x → linked (links cs) target x.
Proof.
  induction 1 as [|c p _ IH Hc Hp]; [constructor|].
  eapply linked_child; [exact IH|].
  unfold links. apply list_elem_of_fmap. exists c. by rewrite Hp.
Qed.

Lemma links_ids cs : (links cs).*1 = doc_id <$> cs.
Proof. unfold links. rewrite <- list_fmap_compose. done. Qed.

Lemma created_NoDup l : created_in_order l → NoDup l.*1.
Proof.
  induction 1 as [|l x o _ IH Hx _]; [constructor|].
  rewrite fmap_app. apply NoDup_app. split; [done|]. split.
  - intros y Hy ->%list_elem_of_singleton. done.
  - apply NoDup_singleton.
Qed.

Lemma created_parent_stored l y p :
  created_in_order l → (y, Some p) ∈ l → p ∈ l.*1.
Proof.
  induction 1 as [|l x o _ IH Hx Hp]; [by intros ?%elem_of_nil|].
  rewrite fmap_app.
  intros [Hy|Hy%list_elem_of_singleton]%elem_of_app; apply elem_of_app; left.
  - by apply IH.
  - apply Hp. congruence.
Qed.

Section newest.
Variables (l : list (ID * option ID)) (x : ID) (o : option ID).
Hypothesis Hl : created_in_order l.
Hypothesis Hx : x ∉ l.*1.

(** Nothing hangs below the newest comment. *)
Lemma linked_newest y : linked (l ++ [(x, o)]) x y → y = x.
Proof.
  induction 1 as [|y p _ IH Hy]; [done|]. subst p.
  apply elem_of_app in Hy as [Hy|Hy%list_elem_of_singleton];
    [|congruence].
  exfalso. apply Hx. by eapply created_parent_stored.
Qed.

(** Below an older comment, the older comments are linked as before. *)
Lemma linked_older t y :
  linked (l ++ [(x, o)]) t y → y ≠ x → linked l t y.
Proof.
  induction 1 as [|y p _ IH Hy]; [constructor|]. intros Hne.
  apply elem_of_app in Hy as [Hy|Hy%list_elem_of_singleton];
    [|congruence].
  eapply linked_child; [|exact Hy]. apply IH.
  intros ->. apply Hx. by eapply created_parent_stored.
Qed.
End newest.

Lemma created_acyclic l t p :
  created_in_order l → (t, Some p) ∈ l → ¬ linked l t p.
Proof.
  induction 1 as [|l x o Hl IH Hx Hp]; [by intros ?%elem_of_nil|].
  intros [Ht|Ht%list_elem_of_singleton]%elem_of_app Hlinked.
  - assert (p ≠ x) as Hpx.
    { intros ->. apply Hx. by eapply created_parent_stored. }
    apply IH; [done|]. by eapply linked_older.
  - simplify_eq. apply Hx.
    rewrite <- (linked_newest l x (Some p) Hl Hx p Hlinked) at 1.
    by apply Hp.
Qed.

Lemma created_no_cycle cs target :
  created_in_order (links cs) → no_cycle_at cs target.
Proof.
  intros Hc c p Hin <- Hp Hdesc.
  eapply created_acyclic; [exact Hc| |by apply descendant_linked].
  unfold links. apply list_elem_of_fmap. exists c. by rewrite Hp.
Qed.

(** A stored top-level comment is not below itself either, whatever the
    rest of the collection looks like. *)
Lemma top_level_no_cycle cs target tc :
  NoDup (doc_id <$> cs) →
  findOne_in (λ c, CommentDoc._id c = target) cs = Some tc →
  CommentDoc.parentId tc = None →
  no_cycle_at cs target.
Proof.
  intros Hnd Hfind Htop c p Hc Hid Hp _.
  apply findOne_in_Some in Hfind as [Htc Hidtc].
  assert (c = tc) as ->; [|congruence].
  eapply (NoDup_id_inj cs); [done..|].
  unfold doc_id, CommentDoc_doc. congruence.
Qed.

Lemma links_filter (R : ID → Prop) `{!∀ x, Decision (R x)} cs :
  links (filter (λ c, R (CommentDoc._id c)) cs) =
  filter (λ y, R y.1) (links cs).
Proof.
  unfold links. induction cs as [|c cs IH]; [done|].
  rewrite fmap_cons, !filter_cons. simpl.
  destruct (decide (R (CommentDoc._id c))); by rewrite ?fmap_cons, IH.
Qed.

Lemma links_deleteMany_in (ids : list ID) cs :
  links (deleteMany_in (λ c, CommentDoc._id c ∈ ids) cs) =
  filter (λ y, y.1 ∉ ids) (links cs).
Proof. exact (links_filter (λ x, x ∉ ids) cs). Qed.

Lemma links_app cs cs' : links (cs ++ cs') = links cs ++ links cs'.
Proof. apply fmap_app. Qed.

Lemma links_updateOne_in (P : CommentDoc.t → Prop) `{!∀ d, Decision (P d)}
    id cs :
  links (updateOne_in P (push_reaction id) cs) = links cs.
Proof. unfold links. by apply fmap_updateOne_in. Qed.

(** Removing a set of comments closed under replies keeps the creation
    order. *)
Lemma created_filter (R : ID → Prop) `{!∀ x, Decision (R x)} l :
  created_in_order l →
  (∀ y p, (y, Some p) ∈ l → R y → R p) →
  created_in_order (filter (λ y, R y.1) l).
Proof.
  induction 1 as [|l x o Hl IH Hx Hp]; intros Hclosed; [constructor|].
  assert (created_in_order (filter (λ y, R y.1) l)) as IH'.
  { apply IH. intros y p Hy. apply Hclosed, elem_of_app. by left. }
  rewrite filter_app, filter_cons, filter_nil. simpl.
  destruct (decide (R x)) as [HR|HR]; [|by rewrite app_nil_r].
  constructor; [done| |].
  - intros (y & -> & [_ Hy]%list_elem_of_filter)%list_elem_of_fmap.
    apply Hx. by apply list_elem_of_fmap_2.
  - intros p ->.
    pose proof (Hp p eq_refl) as Hstored.
    apply list_elem_of_fmap in Hstored as ([p' o'] & -> & Hin).
    apply list_elem_of_fmap. exists (p', o'). split; [done|].
    apply list_elem_of_filter. split; [|done]. simpl.
    apply (Hclosed x p'); [|done].
    apply elem_of_app. right. by apply list_elem_of_singleton.
Qed.

(** ** The generator *)

Lemma unissued_le n m l : unissued n l → n ≤ m → unissued m l.
Proof. intros Hl Hle k Hk. apply Hl. lia. Qed.

Lemma unissued_subseteq n l l' :
  unissued n l → (∀ x, x ∈ l' → x ∈ l) → unissued n l'.
Proof. intros Hl Hsub k Hk Hin. by eapply Hl, Hsub. Qed.

Lemma unissued_snoc n l : unissued n l → unissued (S n) (l ++ [pretty n]).
Proof.
  intros Hl k Hk [Hin|Heq%list_elem_of_singleton]%elem_of_app.
  - eapply Hl; [|done]. lia.
  - apply (inj pretty) in Heq. lia.
Qed.

Lemma unissued_next n l : unissued n l → pretty n ∉ l.
Proof. intros Hl. by apply Hl. Qed.

(** ** Outcomes when the generator is fresh *)

Lemma postComment_existing author book section body st threadDoc :
  generator_fresh st →
  findOne_in (for_pair book section) (st_threads st) = Some threadDoc →
  postComment author book section body st =
  (Ret (pretty (st_issued st)),
   mkState
     (updateOne_in (λ t, ThreadDoc._id t = ThreadDoc._id threadDoc)
        (push_topLevel (pretty (st_issued st))) (st_threads st))
     (st_comments st ++
        [CommentDoc.mk (pretty (st_issued st)) author body
           (ThreadDoc._id threadDoc) None []])
     (st_reactions st) (S (st_issued st))).
Proof.
  intros (_ & Hc & _) Hfind. rewrite postComment_run, Hfind. simpl.
  by rewrite decide_False by by apply unissued_next.
Qed.

Lemma postComment_new author book section body st :
  generator_fresh st →
  findOne_in (for_pair book section) (st_threads st) = None →
  postComment author book section body st =
  (Ret (pretty (S (st_issued st))),
   mkState
     (st_threads st ++
        [ThreadDoc.mk (pretty (st_issued st)) book section
           [pretty (S (st_issued st))]])
     (st_comments st ++
        [CommentDoc.mk (pretty (S (st_issued st))) author body
           (pretty (st_issued st)) None []])
     (st_reactions st) (S (S (st_issued st)))).
Proof.
  intros (Ht & Hc & _) Hfind. rewrite postComment_run, Hfind. simpl.
  rewrite decide_False by by apply unissued_next.
  rewrite decide_False by (apply Hc; lia).
  rewrite updateOne_in_snoc; [done| |done].
  apply findOne_in_None. intros t Hin Hid.
  apply (unissued_next _ _ Ht). rewrite <- Hid.
  by apply list_elem_of_fmap_2.
Qed.

Lemma reply_found author parent body st parentComment :
  generator_fresh st →
  findOne_in (λ c, CommentDoc._id c = parent) (st_comments st)
    = Some parentComment →
  reply author parent body st =
  (Ret (pretty (st_issued st)),
   mkState (st_threads st)
     (st_comments st ++
        [CommentDoc.mk (pretty (st_issued st)) author body
           (CommentDoc.threadId parentComment) (Some parent) []])
     (st_reactions st) (S (st_issued st))).
Proof.
  intros (_ & Hc & _) Hfind. rewrite reply_run, Hfind. simpl.
  by rewrite decide_False by by apply unissued_next.
Qed.

Lemma react_new reactor target type st targetComment :
  generator_fresh st →
  findOne_in (λ c, CommentDoc._id c = target) (st_comments st)
    = Some targetComment →
  findOne_in
    (λ r, ReactionDoc.reactor r = reactor
          ∧ ReactionDoc.targetCommentId r = target
          ∧ ReactionDoc.type r = type) (st_reactions st) = None →
  react reactor target type st =
  (Ret (pretty (st_issued st)),
   mkState (st_threads st)
     (updateOne_in (λ c, CommentDoc._id c = target)
        (push_reaction (pretty (st_issued st))) (st_comments st))
     (st_reactions st ++
        [ReactionDoc.mk (pretty (st_issued st)) reactor target type])
     (S (st_issued st))).
Proof.
  intros (_ & _ & Hr) Hfind Hnone. rewrite react_run, Hfind, Hnone. simpl.
  by rewrite decide_False by by apply unissued_next.
Qed.

(** ** The invariant of the reachable states *)

Lemma invariant_unique_ids st :
  invariant st → NoDup (doc_id <$> st_comments st).
Proof.
  intros Hinv. rewrite <- links_ids. apply created_NoDup, Hinv.
Qed.

Lemma thread_ids_updateOne_in (P : ThreadDoc.t → Prop)
    `{!∀ d, Decision (P d)} f ts :
  (∀ t, thread_key (f t) = thread_key t) →
  doc_id <$> updateOne_in P f ts = doc_id <$> ts.
Proof.
  intros Hf. apply fmap_updateOne_in. intros t.
  pose proof (Hf t) as Hk. unfold thread_key in Hk.
  unfold doc_id, ThreadDoc_doc. congruence.
Qed.

Lemma comment_ids_updateOne_in (P : CommentDoc.t → Prop)
    `{!∀ d, Decision (P d)} id cs :
  doc_id <$> updateOne_in P (push_reaction id) cs = doc_id <$> cs.
Proof. by apply fmap_updateOne_in. Qed.

Lemma thread_count_updateOne_in (P : ThreadDoc.t → Prop)
    `{!∀ d, Decision (P d)} f book section ts cs rs n :
  (∀ t, thread_key (f t) = thread_key t) →
  thread_count book section (mkState (updateOne_in P f ts) cs rs n) =
  length (filter (for_pair book section) ts).
Proof.
  intros Hf. unfold thread_count. simpl.
  apply length_filter_updateOne_in. intros t.
  pose proof (Hf t) as Hk. unfold thread_key in Hk. unfold for_pair.
  inversion Hk as [[Hid Hb Hs]]. by rewrite Hb, Hs.
Qed.

Lemma thread_count_new book section book' section' ts tid ids cs rs n :
  findOne_in (for_pair book section) ts = None →
  length (filter (for_pair book' section') ts) ≤ 1 →
  thread_count book' section'
    (mkState (ts ++ [ThreadDoc.mk tid book section ids]) cs rs n) ≤ 1.
Proof.
  intros Hnone Hle. unfold thread_count. simpl.
  rewrite filter_app, length_app, filter_cons, filter_nil.
  destruct (decide (for_pair book' section' _)) as [[Hb Hs]|_];
    simpl in *; [|lia].
  subst. unfold findOne_in in Hnone. apply head_None in Hnone.
  rewrite Hnone. simpl. lia.
Qed.

(** *** Replies and their threads *)

Lemma replies_stay_snoc cs c :
  replies_stay_in_thread cs →
  (∀ p, CommentDoc.parentId c = Some p →
     ∃ pc, findOne_in (λ d, CommentDoc._id d = p) cs = Some pc ∧
           CommentDoc.threadId pc = CommentDoc.threadId c) →
  replies_stay_in_thread (cs ++ [c]).
Proof.
  intros Hcs Hc c' p [Hin| ->%list_elem_of_singleton]%elem_of_app Hp.
  - destruct (Hcs c' p Hin Hp) as (pc & Hfind & Hth).
    exists pc. by rewrite findOne_in_app, Hfind.
  - destruct (Hc p Hp) as (pc & Hfind & Hth).
    exists pc. by rewrite findOne_in_app, Hfind.
Qed.

Lemma findOne_in_skeleton cs cs' p :
  skeleton <$> cs' = skeleton <$> cs →
  skeleton <$> findOne_in (λ d, CommentDoc._id d = p) cs' =
  skeleton <$> findOne_in (λ d, CommentDoc._id d = p) cs.
Proof.
  intros Heq.
  exact (findOne_in_fmap skeleton (λ b, b.1.1 = p) cs cs' Heq).
Qed.

Lemma replies_stay_skeleton cs cs' :
  skeleton <$> cs' = skeleton <$> cs →
  replies_stay_in_thread cs → replies_stay_in_thread cs'.
Proof.
  intros Heq Hcs c' p Hin Hp.
  assert (skeleton c' ∈ skeleton <$> cs) as Hsk.
  { rewrite <- Heq. by apply list_elem_of_fmap_2. }
  apply list_elem_of_fmap in Hsk as (c & Hc & Hcin).
  inversion Hc as [[Hid Hth Hpar]].
  destruct (Hcs c p Hcin) as (pc & Hfind & Hpth); [congruence|].
  pose proof (findOne_in_skeleton cs cs' p Heq) as Hsame.
  rewrite Hfind in Hsame.
  destruct (findOne_in _ cs') as [pc'|]; [|done].
  exists pc'. split; [done|].
  inversion Hsame as [[Hid' Hth' Hpar']]. congruence.
Qed.

Lemma skeleton_updateOne_in (P : CommentDoc.t → Prop)
    `{!∀ d, Decision (P d)} id cs :
  skeleton <$> updateOne_in P (push_reaction id) cs = skeleton <$> cs.
Proof. by apply fmap_updateOne_in. Qed.

(** Removing a set of comments that contains the replies of its members
    leaves every remaining reply with its parent. *)
Lemma replies_stay_filter (R : ID → Prop) `{!∀ x, Decision (R x)} cs :
  (∀ c p, c ∈ cs → CommentDoc.parentId c = Some p →
     R (CommentDoc._id c) → R p) →
  replies_stay_in_thread cs →
  replies_stay_in_thread (filter (λ c, R (CommentDoc._id c)) cs).
Proof.
  intros Hclosed Hcs c p [HR Hin]%list_elem_of_filter Hp.
  destruct (Hcs c p Hin Hp) as (pc & Hfind & Hth).
  exists pc. split; [|done].
  apply findOne_in_filter; [done|].
  apply findOne_in_Some in Hfind as [_ ->]. by eapply Hclosed.
Qed.

Lemma replies_stay_deleteMany_in (ids : list ID) cs :
  (∀ c p, c ∈ cs → CommentDoc.parentId c = Some p →
     CommentDoc._id c ∉ ids → p ∉ ids) →
  replies_stay_in_thread cs →
  replies_stay_in_thread (deleteMany_in (λ c, CommentDoc._id c ∈ ids) cs).
Proof. exact (replies_stay_filter (λ x, x ∉ ids) cs). Qed.

(** *** Reactions and their comments *)

Lemma reactions_attached_snoc cs rs c :
  reactions_attached cs rs → reactions_targeted cs rs →
  CommentDoc._id c ∉ doc_id <$> cs → CommentDoc.reactionIds c = [] →
  reactions_attached (cs ++ [c]) rs.
Proof.
  intros Hatt Htgt Hfresh Hnil c' [Hin| ->%list_elem_of_singleton]%elem_of_app r.
  - by apply Hatt.
  - rewrite Hnil. split; [by intros ?%elem_of_nil|].
    intros (rd & Hrd & _ & Htarget). exfalso. apply Hfresh.
    rewrite <- Htarget. by apply Htgt.
Qed.

Lemma reactions_targeted_snoc cs rs c :
  reactions_targeted cs rs → reactions_targeted (cs ++ [c]) rs.
Proof.
  intros Htgt rd Hrd. rewrite fmap_app. apply elem_of_app. left.
  by apply Htgt.
Qed.

Lemma reactions_attached_react cs rs rid reactor target type :
  NoDup (doc_id <$> cs) →
  reactions_attached cs rs →
  reactions_attached
    (updateOne_in (λ c, CommentDoc._id c = target) (push_reaction rid) cs)
    (rs ++ [ReactionDoc.mk rid reactor target type]).
Proof.
  intros Hnd Hatt c Hc r.
  apply (elem_of_updateOne_in_id (push_reaction rid) cs target c Hnd) in Hc
    as [[Hin Hne]|(c0 & Hin & Hid & ->)].
  - rewrite (Hatt c Hin r). split.
    + intros (rd & Hrd & Hr & Ht). exists rd. split; [|done].
      apply elem_of_app. by left.
    + intros (rd & [Hrd| ->%list_elem_of_singleton]%elem_of_app & Hr & Ht).
      * by exists rd.
      * simpl in Ht. by destruct Hne.
  - simpl. rewrite elem_of_app, list_elem_of_singleton, (Hatt c0 Hin r).
    split.
    + intros [(rd & Hrd & Hr & Ht)| ->].
      * exists rd. split; [|done]. apply elem_of_app. by left.
      * eexists. split; [apply elem_of_app; right; by left|done].
    + intros (rd & [Hrd| ->%list_elem_of_singleton]%elem_of_app & Hr & Ht).
      * left. by exists rd.
      * by right.
Qed.

Lemma reactions_targeted_react cs rs rid reactor target type :
  target ∈ doc_id <$> cs →
  reactions_targeted cs rs →
  reactions_targeted
    (updateOne_in (λ c, CommentDoc._id c = target) (push_reaction rid) cs)
    (rs ++ [ReactionDoc.mk rid reactor target type]).
Proof.
  intros Htarget Htgt rd Hrd. rewrite comment_ids_updateOne_in.
  apply elem_of_app in Hrd as [Hrd| ->%list_elem_of_singleton];
    [by apply Htgt|done].
Qed.

Lemma reactions_attached_delete cs rs (ids : list ID) :
  reactions_attached cs rs →
  reactions_attached
    (deleteMany_in (λ c, CommentDoc._id c ∈ ids) cs)
    (deleteMany_in (λ r, ReactionDoc.targetCommentId r ∈ ids) rs).
Proof.
  intros Hatt c [Hc Hkeep]%elem_of_deleteMany_in r.
  rewrite (Hatt c Hc r). split.
  - intros (rd & Hrd & Hr & Ht). exists rd. split; [|done].
    apply elem_of_deleteMany_in. split; [done|]. by rewrite Ht.
  - intros (rd & [Hrd _]%elem_of_deleteMany_in & Hr & Ht). by exists rd.
Qed.

Lemma reactions_targeted_delete cs rs (ids : list ID) :
  reactions_targeted cs rs →
  reactions_targeted
    (deleteMany_in (λ c, CommentDoc._id c ∈ ids) cs)
    (deleteMany_in (λ r, ReactionDoc.targetCommentId r ∈ ids) rs).
Proof.
  intros Htgt rd [Hrd Hkeep]%elem_of_deleteMany_in.
  pose proof (Htgt rd Hrd) as (c & Hid & Hc)%list_elem_of_fmap.
  apply list_elem_of_fmap. exists c. split; [done|].
  apply elem_of_deleteMany_in. split; [done|].
  unfold doc_id, CommentDoc_doc in Hid. by rewrite <- Hid.
Qed.

(** *** Every action keeps the invariant *)

Lemma comment_stored cs x c :
  findOne_in (λ c, CommentDoc._id c = x) cs = Some c → x ∈ doc_id <$> cs.
Proof.
  intros [Hin <-]%findOne_in_Some.
  by apply (list_elem_of_fmap_2 doc_id).
Qed.

Lemma collect_fst fuel q acc vis st r :
  (collect fuel q acc vis st).1 = r → collect fuel q acc vis st = (r, st).
Proof.
  intros <-. rewrite <- (collect_state fuel q acc vis st) at 3.
  by destruct (collect fuel q acc vis st).
Qed.

(** The replies of a collected comment are collected. *)
Lemma descendants_closed cs target (ids : list ID) :
  (∀ x, x ∈ ids ↔ descendant cs target x) →
  ∀ c p, c ∈ cs → CommentDoc.parentId c = Some p →
    CommentDoc._id c ∉ ids → p ∉ ids.
Proof.
  intros Hids c p Hc Hp Hkeep Hin. apply Hkeep, Hids.
  eapply descendant_child; [by apply Hids|done..].
Qed.

Lemma generator_fresh_postComment author book section body st :
  generator_fresh st →
  generator_fresh (postComment author book section body st).2.
Proof.
  intros Hfresh. pose proof Hfresh as (Hft & Hfc & Hfr).
  destruct (findOne_in (for_pair book section) (st_threads st))
    as [threadDoc|] eqn:Hfind.
  - rewrite (postComment_existing _ _ _ _ _ threadDoc) by done.
    split_and!; simpl.
    + rewrite thread_ids_updateOne_in by done.
      eapply unissued_le; [done|lia].
    + rewrite fmap_app. by apply unissued_snoc.
    + eapply unissued_le; [done|lia].
  - rewrite postComment_new by done. split_and!; simpl.
    + rewrite fmap_app. eapply unissued_le; [by apply unissued_snoc|lia].
    + rewrite fmap_app. apply unissued_snoc.
      eapply unissued_le; [done|lia].
    + eapply unissued_le; [done|lia].
Qed.

Lemma invariant_postComment author book section body st :
  invariant st → invariant (postComment author book section body st).2.
Proof.
  intros [Hfresh Hcreated Hone Hsame Hatt Htgt Hthreads].
  pose proof (generator_fresh_postComment author book section body st Hfresh)
    as Hfresh'.
  pose proof Hfresh as (Hft & Hfc & Hfr).
  destruct (findOne_in (for_pair book section) (st_threads st))
    as [threadDoc|] eqn:Hfind.
  - rewrite (postComment_existing _ _ _ _ _ threadDoc) in * by done.
    simpl in *. split; simpl.
    + done.
    + rewrite links_app. constructor; [done| |done].
      rewrite links_ids. by apply unissued_next.
    + intros b s. rewrite thread_count_updateOne_in by done. apply Hone.
    + apply replies_stay_snoc; [done|]. by intros p [=].
    + apply reactions_attached_snoc; [done..| |done].
      by apply unissued_next.
    + by apply reactions_targeted_snoc.
    + by rewrite thread_ids_updateOne_in.
  - rewrite postComment_new in * by done. simpl in *. split; simpl.
    + done.
    + rewrite links_app. constructor; [done| |done].
      rewrite links_ids. apply Hfc. lia.
    + intros b s. apply thread_count_new; [done|apply Hone].
    + apply replies_stay_snoc; [done|]. by intros p [=].
    + apply reactions_attached_snoc; [done..| |done]. apply Hfc. simpl. lia.
    + by apply reactions_targeted_snoc.
    + rewrite fmap_app. apply NoDup_app. split_and!; [done| |].
      * intros x Hx ->%list_elem_of_singleton.
        by apply (unissued_next _ _ Hft).
      * apply NoDup_singleton.
Qed.

Lemma invariant_reply author parent body st :
  invariant st → invariant (reply author parent body st).2.
Proof.
  intros Hinv.
  pose proof Hinv as [Hfresh Hcreated Hone Hsame Hatt Htgt Hthreads].
  pose proof Hfresh as (Hft & Hfc & Hfr).
  destruct (findOne_in (λ c, CommentDoc._id c = parent) (st_comments st))
    as [parentComment|] eqn:Hfind.
  - rewrite (reply_found _ _ _ _ parentComment) by done. simpl.
    split; simpl.
    + split_and!; simpl.
      * eapply unissued_le; [done|lia].
      * rewrite fmap_app. by apply unissued_snoc.
      * eapply unissued_le; [done|lia].
    + rewrite links_app. constructor; [done|..].
      * rewrite links_ids. by apply unissued_next.
      * intros p [= <-]. rewrite links_ids. by eapply comment_stored.
    + done.
    + apply replies_stay_snoc; [done|]. intros p [= <-]. eauto.
    + apply reactions_attached_snoc; [done..| |done].
      by apply unissued_next.
    + by apply reactions_targeted_snoc.
    + done.
  - rewrite reply_run, Hfind. done.
Qed.

Lemma invariant_react reactor target type st :
  invariant st → invariant (react reactor target type st).2.
Proof.
  intros Hinv.
  pose proof Hinv as [Hfresh Hcreated Hone Hsame Hatt Htgt Hthreads].
  pose proof Hfresh as (Hft & Hfc & Hfr).
  destruct (findOne_in (λ c, CommentDoc._id c = target) (st_comments st))
    as [targetComment|] eqn:Hfind; [|by rewrite react_run, Hfind].
  destruct (findOne_in
              (λ r, ReactionDoc.reactor r = reactor
                    ∧ ReactionDoc.targetCommentId r = target
                    ∧ ReactionDoc.type r = type) (st_reactions st))
    as [existing|] eqn:Hdup; [by rewrite react_run, Hfind, Hdup|].
  rewrite (react_new _ _ _ _ targetComment) by done. simpl.
  split; simpl.
  - split_and!; simpl.
    + eapply unissued_le; [done|lia].
    + rewrite comment_ids_updateOne_in. eapply unissued_le; [done|lia].
    + rewrite fmap_app. by apply unissued_snoc.
  - by rewrite links_updateOne_in.
  - done.
  - eapply replies_stay_skeleton; [apply skeleton_updateOne_in|done].
  - apply reactions_attached_react; [|done]. by apply invariant_unique_ids.
  - apply reactions_targeted_react; [|done]. by eapply comment_stored.
  - done.
Qed.

Lemma invariant_deleteComment fuel requestor target st :
  invariant st → invariant (deleteComment fuel requestor target st).2.
Proof.
  intros Hinv.
  pose proof Hinv as [Hfresh Hcreated Hone Hsame Hatt Htgt Hthreads].
  pose proof Hfresh as (Hft & Hfc & Hfr).
  rewrite deleteComment_run.
  destruct (findOne_in _ _) as [targetComment|]; [|done].
  destruct (decide (_ ≠ _)); [done|].
  destruct ((collect fuel [target] [target] [] st).1)
    as [[ids vis]| | |] eqn:Hrun; try done.
  apply collect_fst, collect_descendants in Hrun as [_ Hids].
  pose proof (descendants_closed _ _ _ Hids) as Hclosed.
  simpl. split; simpl.
  - split_and!; simpl.
    + destruct (falsy _); [|done].
      by rewrite thread_ids_updateOne_in.
    + apply (unissued_subseteq _ _ _ Hfc).
      intros x (c & -> & [Hc _]%elem_of_deleteMany_in)%list_elem_of_fmap.
      by apply list_elem_of_fmap_2.
    + apply (unissued_subseteq _ _ _ Hfr).
      intros x (r & -> & [Hr _]%elem_of_deleteMany_in)%list_elem_of_fmap.
      by apply list_elem_of_fmap_2.
  - rewrite links_deleteMany_in.
    refine (created_filter (λ x, x ∉ ids) _ Hcreated _).
    intros y p (c & [= -> Hp] & Hc)%list_elem_of_fmap. simpl.
    by apply Hclosed.
  - intros b s. unfold deleted. destruct (falsy _); [|apply Hone].
    rewrite thread_count_updateOne_in by done. apply Hone.
  - by apply replies_stay_deleteMany_in.
  - by apply reactions_attached_delete.
  - by apply reactions_targeted_delete.
  - destruct (falsy _); [|done]. by rewrite thread_ids_updateOne_in.
Qed.

Lemma invariant_init : invariant init.
Proof.
  split; simpl.
  - split_and!; intros k _; apply not_elem_of_nil.
  - constructor.
  - intros b s. unfold thread_count. simpl. lia.
  - by intros c p ?%elem_of_nil.
  - by intros c ?%elem_of_nil.
  - by intros rd ?%elem_of_nil.
  - constructor.
Qed.

Lemma invariant_step c st : invariant st → invariant (step c st).
Proof.
  destruct c; simpl.
  - apply invariant_postComment.
  - apply invariant_reply.
  - apply invariant_react.
  - apply invariant_deleteComment.
Qed.

Lemma reachable_invariant st : reachable st → invariant st.
Proof.
  induction 1 as [|st c _ IH]; [apply invariant_init|].
  by apply invariant_step.
Qed.

(** ** A successful cascading delete, taken apart *)

Lemma deleteComment_Ret fuel requestor target st st' :
  deleteComment fuel requestor target st = (Ret (), st') →
  ∃ targetComment ids,
    findOne_in (λ c, CommentDoc._id c = target) (st_comments st)
      = Some targetComment ∧
    CommentDoc.author targetComment = requestor ∧
    collect fuel [target] [target] [] st = (Ret (ids, ids), st) ∧
    (∀ x, x ∈ ids ↔ descendant (st_comments st) target x) ∧
    st' = deleted targetComment target ids st.
Proof.
  rewrite deleteComment_run.
  destruct (findOne_in _ _) as [targetComment|]; [|done].
  destruct (decide (_ ≠ _)) as [|Hauthor]; [done|].
  destruct ((collect fuel [target] [target] [] st).1)
    as [[ids vis]| | |] eqn:Hrun; try done.
  intros [= <-]. apply collect_fst in Hrun.
  destruct (collect_descendants _ _ _ _ _ _ Hrun) as [-> Hids].
  exists targetComment, vis. split_and!; try done.
  by destruct (decide (CommentDoc.author targetComment = requestor)).
Qed.

(** With enough fuel the author's delete succeeds wherever the loop
    finishes. *)
Lemma deleteComment_succeeds fuel requestor target st targetComment ids :
  findOne_in (λ c, CommentDoc._id c = target) (st_comments st)
    = Some targetComment →
  CommentDoc.author targetComment = requestor →
  collect fuel [target] [target] [] st = (Ret (ids, ids), st) →
  deleteComment fuel requestor target st =
  (Ret (), deleted targetComment target ids st).
Proof.
  intros Hfind Hauthor Hrun. rewrite deleteComment_run, Hfind.
  rewrite decide_False by (by intros ?). by rewrite Hrun.
Qed.

(** Replies stay in their parent's thread all the way down a reply tree. *)
Lemma descendants_share_thread cs ancestor x ad xd :
  NoDup (doc_id <$> cs) →
  replies_stay_in_thread cs →
  descendant cs ancestor x →
  findOne_in (λ c, CommentDoc._id c = ancestor) cs = Some ad →
  findOne_in (λ c, CommentDoc._id c = x) cs = Some xd →
  CommentDoc.threadId xd = CommentDoc.threadId ad.
Proof.
  intros Hnd Hstay Hdesc Had. revert xd.
  induction Hdesc as [|c p _ IH Hc Hp]; intros xd Hxd; [congruence|].
  pose proof (findOne_in_id_unique cs c Hnd Hc) as Hfind.
  assert (xd = c) as ->.
  { unfold doc_id, CommentDoc_doc in Hfind. congruence. }
  destruct (Hstay c p Hc Hp) as (pc & Hpc & <-). by apply IH.
Qed.

(** ** The running example, evaluated *)

Example demo_delete_cascades :
  deleteComment 9 "alice" "1" demo
  = (Ret (), mkState [ThreadDoc.mk "0" "B1" "S1" []] [] [] 7).
Proof. by vm_compute. Qed.

Example demo_delete_needs_three_turns :
  deleteComment 2 "alice" "1" demo = (OutOfFuel, demo) ∧
  collect 3 ["1"] ["1"] [] demo
  = (Ret (["1"; "2"; "6"], ["1"; "2"; "6"]), demo).
Proof. by vm_compute. Qed.

Example demo_react_twice :
  react "bob" "1" "like" demo
    = (Fail (AlreadyReacted "bob" "like" "1"), demo) ∧
  error_message (AlreadyReacted "bob" "like" "1")
    = "User bob already reacted with type like to comment 1.".
Proof. by vm_compute. Qed.

Example demo_delete_reply_keeps_thread_list :
  (deleteComment 9 "bob" "2" demo).1 = Ret () ∧
  st_threads (deleteComment 9 "bob" "2" demo).2
    = [ThreadDoc.mk "0" "B1" "S1" ["1"]] ∧
  CommentDoc._id <$> st_comments (deleteComment 9 "bob" "2" demo).2 = ["1"].
Proof. by vm_compute. Qed.

(** ** Helper facts for the properties below *)

Lemma reachable_run_calls calls st :
  reachable st → reachable (run_calls calls st).
Proof.
  revert st. induction calls as [|c calls IH]; intros st Hst; [done|].
  apply IH. by constructor.
Qed.

Lemma reachable_demo : reachable demo.
Proof. exact (reachable_run_calls demo_calls init reachable_init). Qed.

Lemma at_most_one_thread_same st st' :
  st_threads st' = st_threads st →
  at_most_one_thread st → at_most_one_thread st'.
Proof.
  intros Heq Hone b s. unfold thread_count. rewrite Heq. apply Hone.
Qed.

Lemma at_most_one_thread_step call st :
  at_most_one_thread st → at_most_one_thread (step call st).
Proof.
  intros Hone. destruct call as [a b s body|a p body|r t ty|fuel r t]; simpl.
  - rewrite postComment_run.
    destruct (findOne_in _ _) as [threadDoc|] eqn:Hfind; simpl.
    + destruct (decide (_ ∈ _)); simpl.
      * by apply (at_most_one_thread_same st).
      * intros b' s'. rewrite thread_count_updateOne_in by done. apply Hone.
    + destruct (decide (_ ∈ _)); simpl;
        [by apply (at_most_one_thread_same st)|].
      destruct (decide (_ ∈ _)); simpl; intros b' s'.
      * apply thread_count_new; [done|apply Hone].
      * rewrite thread_count_updateOne_in by done.
        apply (thread_count_new b s b' s' (st_threads st) _ [] [] [] 0);
          [done|apply Hone].
  - apply (at_most_one_thread_same st); [|done]. rewrite reply_run.
    destruct (findOne_in _ _); [|done]. simpl. by destruct (decide (_ ∈ _)).
  - apply (at_most_one_thread_same st); [|done]. rewrite react_run.
    destruct (findOne_in _ (st_comments st)); [|done].
    destruct (findOne_in _ (st_reactions st)); [done|]. simpl.
    by destruct (decide (_ ∈ _)).
  - rewrite deleteComment_run.
    destruct (findOne_in _ _) as [targetComment|]; [|done].
    destruct (decide (_ ≠ _)); [done|].
    destruct ((collect fuel [t] [t] [] st).1) as [[ids vis]| | |]; try done.
    simpl. unfold deleted. destruct (falsy _).
    + intros b' s'. rewrite thread_count_updateOne_in by done. apply Hone.
    + by apply (at_most_one_thread_same st).
Qed.

(** Under the unique index, deleting the comments of a duplicate-free list
    of stored ids removes as many comments as the list has ids. *)
Lemma length_deleteMany_in_ids cs (ids : list ID) :
  NoDup (doc_id <$> cs) → NoDup ids →
  (∀ x, x ∈ ids → x ∈ doc_id <$> cs) →
  length cs =
  length (deleteMany_in (λ c, CommentDoc._id c ∈ ids) cs) + length ids.
Proof.
  intros Hnd Hids Hstored.
  pose proof (filter_app_complement (λ c, CommentDoc._id c ∈ ids) cs) as Hp.
  apply Permutation_length in Hp. rewrite length_app in Hp.
  unfold deleteMany_in. rewrite <- Hp.
  assert (doc_id <$> filter (λ c, CommentDoc._id c ∈ ids) cs ≡ₚ ids) as Hq.
  { apply NoDup_Permutation; [|done|].
    - eapply sublist_NoDup; [exact Hnd|].
      apply fmap_sublist, sublist_filter.
    - intros x. rewrite list_elem_of_fmap. split.
      + by intros (c & -> & [Hin _]%list_elem_of_filter).
      + intros Hx. pose proof (Hstored x Hx) as Hin.
        apply list_elem_of_fmap in Hin as (c & -> & Hc).
        exists c. split; [done|]. by apply list_elem_of_filter. }
  apply Permutation_length in Hq. rewrite length_fmap in Hq. lia.
Qed.

(** The descendants of alice's comment in the running example. *)
Lemma demo_descendants x :
  x ∈ ["1"; "2"; "6"] → descendant (st_comments demo) "1" x.
Proof.
  apply (collect_descendants 9 demo "1" ["1"; "2"; "6"] ["1"; "2"; "6"] demo).
  by vm_compute.
Qed.

(** * The properties of the specification *)

(** C1: a successful [deleteComment] of a top-level comment removes exactly
    the comments of the descendant set, the target and its [N] transitive
    replies, and exactly the reactions that target one of them; the other
    comments and reactions stay as they are, in their order.  The owning
    thread's top-level list loses [target] and keeps every other id, and
    the other threads are untouched. *)
Theorem deleteComment_top_level fuel requestor target st st' targetComment :
  NoDup (doc_id <$> st_comments st) →
  findOne_in (λ c, CommentDoc._id c = target) (st_comments st)
    = Some targetComment →
  CommentDoc.parentId targetComment = None →
  deleteComment fuel requestor target st = (Ret (), st') →
  (∃ replies,
     NoDup replies ∧
     (∀ x, x ∈ replies ↔
           x ≠ target ∧ descendant (st_comments st) target x) ∧
     length (st_comments st) =
       length (st_comments st') + (1 + length replies)) ∧
  (∀ c, c ∈ st_comments st' ↔
        c ∈ st_comments st ∧
        ¬ descendant (st_comments st) target (CommentDoc._id c)) ∧
  st_comments st' `sublist_of` st_comments st ∧
  (∀ r, r ∈ st_reactions st' ↔
        r ∈ st_reactions st ∧
        ¬ descendant (st_comments st) target
            (ReactionDoc.targetCommentId r)) ∧
  st_reactions st' `sublist_of` st_reactions st ∧
  length (st_threads st') = length (st_threads st) ∧
  (∀ (i : nat) t, st_threads st !! i = Some t →
     ThreadDoc._id t ≠ CommentDoc.threadId targetComment →
     st_threads st' !! i = Some t) ∧
  (∀ t,
     findOne_in (λ t, ThreadDoc._id t = CommentDoc.threadId targetComment)
       (st_threads st) = Some t →
     ∃ t',
       findOne_in (λ t, ThreadDoc._id t = CommentDoc.threadId targetComment)
         (st_threads st') = Some t' ∧
       thread_key t' = thread_key t ∧
       ThreadDoc.topLevelCommentIds t' `sublist_of`
         ThreadDoc.topLevelCommentIds t ∧
       ∀ x, x ∈ ThreadDoc.topLevelCommentIds t' ↔
            x ∈ ThreadDoc.topLevelCommentIds t ∧ x ≠ target).
Proof.
  intros Hnd Hfind Htop Hrun.
  apply deleteComment_Ret in Hrun
    as (tc & ids & Hfound & _ & Hrun & Hids & ->).
  rewrite Hfind in Hfound. injection Hfound as <-.
  assert (NoDup ids) as Hndids.
  { eapply collect_NoDup; [done| |exact Hrun].
    by eapply top_level_no_cycle. }
  unfold deleted. rewrite Htop. simpl. split_and!.
  - exists (filter (λ x, x ≠ target) ids). split_and!.
    + by apply NoDup_filter.
    + intros x. rewrite list_elem_of_filter, Hids. tauto.
    + rewrite (length_deleteMany_in_ids _ ids Hnd Hndids).
      * f_equal.
        transitivity (length (target :: filter (λ x, x ≠ target) ids));
          [|done].
        apply Permutation_length, NoDup_Permutation; [done| |].
        -- apply NoDup_cons. split; [|by apply NoDup_filter].
           by intros [? _]%list_elem_of_filter.
        -- intros x. rewrite elem_of_cons, list_elem_of_filter. split.
           ++ intros Hx. destruct (decide (x = target)); [by left|by right].
           ++ intros [->|[_ Hx]]; [|done]. apply Hids. constructor.
      * intros x [->|Hx]%Hids%descendant_stored; [|done].
        by eapply comment_stored.
  - intros c. rewrite elem_of_deleteMany_in, Hids. tauto.
  - apply sublist_filter.
  - intros r. rewrite elem_of_deleteMany_in, Hids. tauto.
  - apply sublist_filter.
  - apply length_updateOne_in.
  - intros i t Hi Hne. by apply updateOne_in_lookup_other.
  - intros t Ht. exists (pull_topLevel target t). split_and!.
    + apply updateOne_in_findOne; [done|]. simpl.
      by apply findOne_in_Some in Ht as [_ ?].
    + done.
    + apply sublist_filter.
    + intros x. simpl. rewrite list_elem_of_filter. tauto.
Qed.

Lemma deleteComment_top_level_witness :
  (∃ replies,
     NoDup replies ∧
     (∀ x, x ∈ replies ↔ x ≠ "1" ∧ descendant (st_comments demo) "1" x) ∧
     length (st_comments demo) =
       length (st_comments demo_deleted) + (1 + length replies)) ∧
  st_reactions demo_deleted `sublist_of` st_reactions demo.
Proof.
  edestruct (deleteComment_top_level 9 "alice" "1" demo demo_deleted)
    as (Hcount & _ & _ & _ & Hreactions & _).
  - compute_done.
  - by vm_compute.
  - done.
  - by vm_compute.
  - split; [exact Hcount|exact Hreactions].
Defined.

(** C2: [deleteComment] fails with NotFound when [target] is not the id of
    a stored comment and with Forbidden when the comment it resolves to has
    another author; either way the whole state is as before. *)
Theorem deleteComment_failure fuel requestor target st :
  (target ∉ doc_id <$> st_comments st →
   deleteComment fuel requestor target st
     = (Fail (CommentNotFound target), st) ∧
   error_kind (CommentNotFound target) = NotFound) ∧
  (∀ targetComment,
     findOne_in (λ c, CommentDoc._id c = target) (st_comments st)
       = Some targetComment →
     CommentDoc.author targetComment ≠ requestor →
     deleteComment fuel requestor target st = (Fail (NotAuthor target), st) ∧
     error_kind (NotAuthor target) = Forbidden).
Proof.
  split.
  - intros Habsent. split; [|done]. rewrite deleteComment_run.
    destruct (findOne_in _ _) as [c|] eqn:Hfind; [|done].
    by apply comment_stored in Hfind.
  - intros targetComment Hfind Hauthor. split; [|done].
    rewrite deleteComment_run, Hfind. by rewrite decide_True.
Qed.

Lemma deleteComment_failure_witness :
  deleteComment 9 "bob" "7" demo = (Fail (CommentNotFound "7"), demo) ∧
  deleteComment 9 "bob" "1" demo = (Fail (NotAuthor "1"), demo).
Proof.
  destruct (deleteComment_failure 9 "bob" "7" demo) as [Habsent _].
  destruct (deleteComment_failure 9 "bob" "1" demo) as [_ Hforbidden].
  split.
  - apply Habsent. compute_done.
  - eapply Hforbidden; [by vm_compute|]. compute_done.
Defined.

(** C3: [react] fails with NotFound when [target] is not a stored comment;
    with the target stored it fails with DuplicateReaction when a reaction
    with the same (reactor, target, type) exists, and otherwise stores the
    reaction under a new id, appends that id to the reaction ids of the
    target comment, changes nothing else, and returns the id.  A second
    identical call after a success fails with DuplicateReaction, and in a
    reachable state an existing triple alone makes the call fail so. *)
Theorem react_spec reactor target type st :
  (target ∉ doc_id <$> st_comments st →
   react reactor target type st = (Fail (TargetNotFound target), st) ∧
   error_kind (TargetNotFound target) = NotFound) ∧
  (target ∈ doc_id <$> st_comments st →
   (∃ r, r ∈ st_reactions st ∧ same_triple reactor target type r) →
   react reactor target type st
     = (Fail (AlreadyReacted reactor type target), st) ∧
   error_kind (AlreadyReacted reactor type target) = DuplicateReaction) ∧
  (∀ targetComment,
     generator_fresh st →
     findOne_in (λ c, CommentDoc._id c = target) (st_comments st)
       = Some targetComment →
     (∀ r, r ∈ st_reactions st → ¬ same_triple reactor target type r) →
     ∃ newReactionId st',
       react reactor target type st = (Ret newReactionId, st') ∧
       (newReactionId ∉ doc_id <$> st_reactions st) ∧
       st_reactions st' =
         st_reactions st ++
           [ReactionDoc.mk newReactionId reactor target type] ∧
       findOne_in (λ c, CommentDoc._id c = target) (st_comments st')
         = Some (push_reaction newReactionId targetComment) ∧
       CommentDoc.reactionIds (push_reaction newReactionId targetComment)
         = CommentDoc.reactionIds targetComment ++ [newReactionId] ∧
       length (st_comments st') = length (st_comments st) ∧
       (∀ (i : nat) c, st_comments st !! i = Some c →
          CommentDoc._id c ≠ target → st_comments st' !! i = Some c) ∧
       st_threads st' = st_threads st ∧
       react reactor target type st'
         = (Fail (AlreadyReacted reactor type target), st')) ∧
  (reachable st →
   (∃ r, r ∈ st_reactions st ∧ same_triple reactor target type r) →
   react reactor target type st
     = (Fail (AlreadyReacted reactor type target), st)).
Proof.
  assert (target ∈ doc_id <$> st_comments st →
          (∃ r, r ∈ st_reactions st ∧ same_triple reactor target type r) →
          react reactor target type st
            = (Fail (AlreadyReacted reactor type target), st)) as Hdup.
  { intros Hstored (r & Hr & Htriple). rewrite react_run.
    destruct (findOne_in _ (st_comments st)) as [c|] eqn:Hfind.
    - destruct (findOne_in _ (st_reactions st)) as [r'|] eqn:Hdup; [done|].
      exfalso. rewrite findOne_in_None in Hdup. by eapply Hdup.
    - exfalso. rewrite findOne_in_None in Hfind.
      apply list_elem_of_fmap in Hstored as (c & -> & Hc). by eapply Hfind. }
  split_and!.
  - intros Habsent. split; [|done]. rewrite react_run.
    destruct (findOne_in _ _) as [c|] eqn:Hfind; [|done].
    by apply comment_stored in Hfind.
  - intros Hstored Htriple. split; [by apply Hdup|done].
  - intros targetComment Hfresh Hfind Hnew.
    assert (findOne_in
              (λ r, ReactionDoc.reactor r = reactor
                    ∧ ReactionDoc.targetCommentId r = target
                    ∧ ReactionDoc.type r = type) (st_reactions st) = None)
      as Hnone by by apply findOne_in_None.
    do 2 eexists. split; [by eapply react_new|]. simpl.
    assert (findOne_in (λ c, CommentDoc._id c = target)
              (updateOne_in (λ c, CommentDoc._id c = target)
                 (push_reaction (pretty (st_issued st))) (st_comments st))
            = Some (push_reaction (pretty (st_issued st)) targetComment))
      as Hfind'.
    { apply updateOne_in_findOne; [done|]. simpl.
      by apply findOne_in_Some in Hfind as [_ ?]. }
    split_and!; try done.
    + apply unissued_next, Hfresh.
    + apply length_updateOne_in.
    + intros i c Hi Hne. by apply updateOne_in_lookup_other.
    + rewrite react_run. simpl. rewrite Hfind'.
      rewrite findOne_in_app, Hnone, findOne_in_cons. simpl.
      by rewrite decide_True.
  - intros Hreach (r & Hr & Htriple). apply Hdup; [|by exists r].
    destruct Htriple as (_ & <- & _).
    by apply (inv_targeted _ (reachable_invariant _ Hreach)).
Qed.

Lemma react_spec_witness :
  react "bob" "7" "like" demo = (Fail (TargetNotFound "7"), demo) ∧
  react "bob" "1" "like" demo
    = (Fail (AlreadyReacted "bob" "like" "1"), demo) ∧
  ∃ newReactionId st',
    react "carol" "1" "like" demo = (Ret newReactionId, st') ∧
    react "carol" "1" "like" st'
      = (Fail (AlreadyReacted "carol" "like" "1"), st').
Proof.
  destruct (react_spec "bob" "7" "like" demo) as (Habsent & _).
  destruct (react_spec "bob" "1" "like" demo) as (_ & Hdup & _).
  destruct (react_spec "carol" "1" "like" demo) as (_ & _ & Hnew & _).
  split_and!.
  - apply Habsent. compute_done.
  - apply Hdup; [compute_done|].
    exists (ReactionDoc.mk "3" "bob" "1" "like"). split; compute_done.
  - edestruct Hnew as (rid & st' & Hrun & Hrest).
    + apply (inv_fresh _ (reachable_invariant _ reachable_demo)).
    + by vm_compute.
    + apply Forall_forall. compute_done.
    + exists rid, st'. split; [done|]. apply Hrest.
Defined.

(** C4: [reply] fails with NotFound when [parent] is not a stored comment.
    Otherwise it appends exactly one comment, under a new id, whose
    [threadId] is that of the comment [parent] resolves to and whose
    [parentId] is [parent]; it returns the new id and leaves threads and
    reactions alone.  Whatever the parent's own depth, a collection in which
    replies stay in their parent's thread remains one. *)
Theorem reply_spec author parent body st :
  (parent ∉ doc_id <$> st_comments st →
   reply author parent body st = (Fail (ParentNotFound parent), st) ∧
   error_kind (ParentNotFound parent) = NotFound) ∧
  (∀ parentComment,
     generator_fresh st →
     findOne_in (λ c, CommentDoc._id c = parent) (st_comments st)
       = Some parentComment →
     ∃ newCommentId st',
       reply author parent body st = (Ret newCommentId, st') ∧
       (newCommentId ∉ doc_id <$> st_comments st) ∧
       st_comments st' =
         st_comments st ++
           [CommentDoc.mk newCommentId author body
              (CommentDoc.threadId parentComment) (Some parent) []] ∧
       st_threads st' = st_threads st ∧
       st_reactions st' = st_reactions st) ∧
  (replies_stay_in_thread (st_comments st) →
   replies_stay_in_thread (st_comments (reply author parent body st).2)) ∧
  (reachable st →
   ∀ ancestor x ad xd,
     let cs' := st_comments (reply author parent body st).2 in
     descendant cs' ancestor x →
     findOne_in (λ c, CommentDoc._id c = ancestor) cs' = Some ad →
     findOne_in (λ c, CommentDoc._id c = x) cs' = Some xd →
     CommentDoc.threadId xd = CommentDoc.threadId ad).
Proof.
  split_and!.
  - intros Habsent. split; [|done]. rewrite reply_run.
    destruct (findOne_in _ _) as [c|] eqn:Hfind; [|done].
    by apply comment_stored in Hfind.
  - intros parentComment Hfresh Hfind.
    do 2 eexists. split; [by eapply reply_found|]. simpl.
    split_and!; try done. apply unissued_next, Hfresh.
  - intros Hstay. rewrite reply_run.
    destruct (findOne_in _ _) as [parentComment|] eqn:Hfind; [|done].
    simpl. destruct (decide (_ ∈ _)); [done|]. simpl.
    apply replies_stay_snoc; [done|]. intros p [= <-]. eauto.
  - intros Hreach ancestor x ad xd cs'.
    pose proof (invariant_reply author parent body st
                  (reachable_invariant _ Hreach)) as Hinv.
    apply descendants_share_thread; [|apply Hinv].
    by apply invariant_unique_ids.
Qed.

Lemma reply_spec_witness :
  reply "dave" "7" "?" demo = (Fail (ParentNotFound "7"), demo) ∧
  (∃ newCommentId st',
     reply "dave" "6" "re: re: re: A" demo = (Ret newCommentId, st') ∧
     st_comments st' =
       st_comments demo ++
         [CommentDoc.mk newCommentId "dave" "re: re: re: A" "0"
            (Some "6") []]) ∧
  replies_stay_in_thread
    (st_comments (reply "dave" "6" "re: re: re: A" demo).2).
Proof.
  destruct (reply_spec "dave" "7" "?" demo) as (Habsent & _ & _).
  destruct (reply_spec "dave" "6" "re: re: re: A" demo)
    as (_ & Hfound & Hstay & _).
  split_and!.
  - apply Habsent. compute_done.
  - edestruct Hfound as (cid & st' & Hrun & _ & Hcs & _).
    + apply (inv_fresh _ (reachable_invariant _ reachable_demo)).
    + by vm_compute.
    + by exists cid, st'.
  - apply Hstay, (inv_same_thread _ (reachable_invariant _ reachable_demo)).
Defined.

(** C5: when the pair has no thread, [postComment] creates exactly one, with
    the new comment as its only top-level comment, and returns the new
    comment's id; a second [postComment] to the pair appends to that same
    thread and the pair still has one thread.  When the pair has a thread,
    no thread is created and the new comment's id is appended to it.  Every
    action keeps the pairs at one thread at most. *)
Theorem postComment_spec author book section body st :
  (generator_fresh st →
   thread_count book section st = 0 →
   ∃ newThreadId newCommentId st',
     postComment author book section body st = (Ret newCommentId, st') ∧
     st_threads st' =
       st_threads st ++
         [ThreadDoc.mk newThreadId book section [newCommentId]] ∧
     st_comments st' =
       st_comments st ++
         [CommentDoc.mk newCommentId author body newThreadId None []] ∧
     thread_count book section st' = 1 ∧
     ∀ author2 body2,
       ∃ newCommentId2 st'',
         postComment author2 book section body2 st'
           = (Ret newCommentId2, st'') ∧
         st_threads st'' =
           st_threads st ++
             [ThreadDoc.mk newThreadId book section
                [newCommentId; newCommentId2]] ∧
         thread_count book section st'' = 1) ∧
  (∀ threadDoc,
     generator_fresh st →
     findOne_in (for_pair book section) (st_threads st) = Some threadDoc →
     ∃ newCommentId st',
       postComment author book section body st = (Ret newCommentId, st') ∧
       (∀ b s, thread_count b s st' = thread_count b s st) ∧
       thread_key <$> st_threads st' = thread_key <$> st_threads st ∧
       st_comments st' =
         st_comments st ++
           [CommentDoc.mk newCommentId author body
              (ThreadDoc._id threadDoc) None []] ∧
       (NoDup (doc_id <$> st_threads st) →
        findOne_in (for_pair book section) (st_threads st')
          = Some (push_topLevel newCommentId threadDoc))) ∧
  (∀ call, at_most_one_thread st → at_most_one_thread (step call st)).
Proof.
  split_and!.
  - intros Hfresh Hcount.
    assert (findOne_in (for_pair book section) (st_threads st) = None)
      as Hnone.
    { unfold findOne_in. apply head_None, nil_length_inv, Hcount. }
    pose proof (generator_fresh_postComment author book section body st
                  Hfresh) as Hfresh'.
    rewrite postComment_new in Hfresh' by done. simpl in Hfresh'.
    do 3 eexists. split; [by apply postComment_new|]. simpl.
    assert (∀ ids cs rs n,
              thread_count book section
                (mkState
                   (st_threads st ++
                      [ThreadDoc.mk (pretty (st_issued st)) book section ids])
                   cs rs n) = 1) as Hone.
    { intros ids cs rs n. unfold thread_count in *. simpl.
      rewrite filter_app, length_app, Hcount, filter_cons, filter_nil.
      by rewrite decide_True. }
    split_and!; try done.
    intros author2 body2. do 2 eexists.
    split; [eapply postComment_existing; [done|]|]; simpl.
    + by rewrite findOne_in_app, Hnone, findOne_in_cons, decide_True.
    + simpl. rewrite updateOne_in_snoc; [split; [done|apply Hone]| |done].
      apply findOne_in_None. intros t Hin Hid.
      destruct Hfresh as (Ht & _). apply (unissued_next _ _ Ht).
      rewrite <- Hid. by apply list_elem_of_fmap_2.
  - intros threadDoc Hfresh Hfind.
    do 2 eexists. split; [by eapply postComment_existing|]. simpl.
    split_and!; try done.
    + intros b s. by rewrite thread_count_updateOne_in.
    + by apply fmap_updateOne_in.
    + intros Hnd.
      apply (updateOne_in_id_findOne (for_pair book section)); [done..|].
      by apply findOne_in_Some in Hfind as [_ ?].
  - intros call. apply at_most_one_thread_step.
Qed.

Lemma postComment_spec_witness :
  (∃ newThreadId newCommentId st',
     postComment "erin" "B1" "S2" "first" demo = (Ret newCommentId, st') ∧
     st_threads st' =
       st_threads demo ++ [ThreadDoc.mk newThreadId "B1" "S2" [newCommentId]] ∧
     thread_count "B1" "S2" st' = 1) ∧
  (∃ newCommentId st',
     postComment "erin" "B1" "S1" "second" demo = (Ret newCommentId, st') ∧
     findOne_in (for_pair "B1" "S1") (st_threads st')
       = Some (ThreadDoc.mk "0" "B1" "S1" ["1"; newCommentId])) ∧
  at_most_one_thread (step (PostComment "erin" "B1" "S1" "second") demo).
Proof.
  pose proof (reachable_invariant _ reachable_demo) as Hinv.
  destruct (postComment_spec "erin" "B1" "S2" "first" demo) as (Hnew & _ & _).
  destruct (postComment_spec "erin" "B1" "S1" "second" demo)
    as (_ & Hold & Hone).
  split_and!.
  - destruct Hnew as (tid & cid & st' & Hrun & Hts & _ & Hcount & _);
      [apply Hinv|compute_done|].
    by exists tid, cid, st'.
  - edestruct Hold as (cid & st' & Hrun & _ & _ & _ & Hfind);
      [apply Hinv|by vm_compute|].
    exists cid, st'. split; [done|]. apply Hfind. compute_done.
  - apply Hone, Hinv.
Defined.

(** C6: in a reachable state the worklist loop of [deleteComment] comes to
    an end once it has fuel for every stored comment and one turn more; the
    ids it visited are those of the descendant set of [target], each
    visited once, and they are what [commentsToDelete] holds; the action
    then returns to the author of [target]. *)
Theorem collect_terminates_reachable st target :
  reachable st →
  ∃ visited,
    NoDup visited ∧
    (∀ x, x ∈ visited ↔ descendant (st_comments st) target x) ∧
    ∀ fuel, S (length (st_comments st)) ≤ fuel →
      collect fuel [target] [target] [] st = (Ret (visited, visited), st) ∧
      ∀ targetComment,
        findOne_in (λ c, CommentDoc._id c = target) (st_comments st)
          = Some targetComment →
        deleteComment fuel (CommentDoc.author targetComment) target st
        = (Ret (), deleted targetComment target visited st).
Proof.
  intros Hinv%reachable_invariant.
  pose proof (invariant_unique_ids st Hinv) as Hnd.
  pose proof (created_no_cycle _ target (inv_created _ Hinv)) as Hcyc.
  destruct (collect_terminates st target (S (length (st_comments st))))
    as (ids & Hrun & Hndids & Hids); [done..|].
  exists ids. split_and!; [done..|]. intros fuel Hfuel.
  assert (collect fuel [target] [target] [] st = (Ret (ids, ids), st))
    as Hrun' by by eapply collect_fuel_mono.
  split; [done|]. intros targetComment Hfind.
  by apply deleteComment_succeeds.
Qed.

Lemma collect_terminates_reachable_witness :
  ∃ visited,
    NoDup visited ∧
    (∀ x, x ∈ visited ↔ descendant (st_comments demo) "1" x) ∧
    collect 4 ["1"] ["1"] [] demo = (Ret (visited, visited), demo).
Proof.
  destruct (collect_terminates_reachable demo "1" reachable_demo)
    as (visited & Hnd & Hvisited & Hrun).
  exists visited. split_and!; [done..|]. by apply Hrun.
Defined.

(** C7: after a successful [deleteComment], every id of the target's
    descendant set resolves to nothing: [_getComment] answers [null] and
    [_getCommentReactions] the empty list. *)
Theorem deleted_comment_absent fuel requestor target st st' c :
  deleteComment fuel requestor target st = (Ret (), st') →
  descendant (st_comments st) target c →
  _getComment c st' = (Ret None, st') ∧
  _getCommentReactions c st' = (Ret [], st').
Proof.
  intros (tc & ids & _ & _ & _ & Hids & ->)%deleteComment_Ret Hdesc.
  apply Hids in Hdesc.
  unfold _getComment, _getCommentReactions, findOne, find. simpl. split.
  - f_equal. f_equal. apply findOne_in_None.
    intros d [_ Hkeep]%elem_of_deleteMany_in Hid. apply Hkeep.
    by rewrite Hid.
  - f_equal. f_equal. apply elem_of_nil_inv.
    intros r [Hr [_ Hkeep]%elem_of_deleteMany_in]%list_elem_of_filter.
    apply Hkeep. by rewrite Hr.
Qed.

Lemma deleted_comment_absent_witness :
  _getComment "6" demo_deleted = (Ret None, demo_deleted) ∧
  _getCommentReactions "6" demo_deleted = (Ret [], demo_deleted).
Proof.
  apply (deleted_comment_absent 9 "alice" "1" demo demo_deleted "6").
  - by vm_compute.
  - apply demo_descendants. compute_done.
Defined.

(** C8: no action deletes a thread document.  Every action keeps the
    threads that were there, with their id, book and section, in place;
    [deleteComment] adds none either, and when it removes the only
    top-level comment of a thread that thread stays, with an empty
    top-level list. *)
Theorem threads_persist st :
  (∀ call,
     thread_key <$> st_threads st `prefix_of`
     thread_key <$> st_threads (step call st)) ∧
  (∀ fuel requestor target,
     thread_key <$> st_threads (deleteComment fuel requestor target st).2
     = thread_key <$> st_threads st) ∧
  (∀ fuel requestor target st' targetComment t,
     deleteComment fuel requestor target st = (Ret (), st') →
     findOne_in (λ c, CommentDoc._id c = target) (st_comments st)
       = Some targetComment →
     CommentDoc.parentId targetComment = None →
     findOne_in (λ t, ThreadDoc._id t = CommentDoc.threadId targetComment)
       (st_threads st) = Some t →
     ThreadDoc.topLevelCommentIds t = [target] →
     findOne_in (λ t, ThreadDoc._id t = CommentDoc.threadId targetComment)
       (st_threads st')
     = Some (ThreadDoc.mk (ThreadDoc._id t) (ThreadDoc.book t)
               (ThreadDoc.section t) [])).
Proof.
  assert (∀ fuel requestor target,
            thread_key <$> st_threads (deleteComment fuel requestor target st).2
            = thread_key <$> st_threads st) as Hdelete.
  { intros fuel requestor target. rewrite deleteComment_run.
    destruct (findOne_in _ _) as [targetComment|]; [|done].
    destruct (decide (_ ≠ _)); [done|].
    destruct ((collect fuel [target] [target] [] st).1)
      as [[ids vis]| | |]; try done.
    simpl. destruct (falsy _); [|done]. by apply fmap_updateOne_in. }
  split_and!; [|done|].
  - intros [a b s body|a p body|r t ty|fuel r t]; simpl.
    + rewrite postComment_run.
      destruct (findOne_in _ _) as [threadDoc|]; simpl.
      * destruct (decide (_ ∈ _)); simpl; [done|].
        by rewrite fmap_updateOne_in.
      * destruct (decide (_ ∈ _)); simpl; [done|].
        destruct (decide (_ ∈ _)); simpl.
        -- rewrite fmap_app. by apply prefix_app_r.
        -- rewrite fmap_updateOne_in by done.
           rewrite fmap_app. by apply prefix_app_r.
    + rewrite reply_run. destruct (findOne_in _ _); [|done]. simpl.
      by destruct (decide (_ ∈ _)).
    + rewrite react_run. destruct (findOne_in _ (st_comments st)); [|done].
      destruct (findOne_in _ (st_reactions st)); [done|]. simpl.
      by destruct (decide (_ ∈ _)).
    + by rewrite Hdelete.
  - intros fuel requestor target st' targetComment t Hrun Hfind Htop Ht Hlast.
    apply deleteComment_Ret in Hrun as (tc & ids & Hfound & _ & _ & _ & ->).
    rewrite Hfind in Hfound. injection Hfound as <-.
    unfold deleted. rewrite Htop. simpl.
    rewrite (updateOne_in_findOne _ _ _ t Ht).
    + unfold pull_topLevel. rewrite Hlast, filter_cons, filter_nil.
      by rewrite decide_False by (by intros ?).
    + simpl. by apply findOne_in_Some in Ht as [_ ?].
Qed.

Lemma threads_persist_witness :
  findOne_in (λ t, ThreadDoc._id t = "0")
    (st_threads (deleteComment 9 "alice" "1" demo_only_child).2)
  = Some (ThreadDoc.mk "0" "B1" "S1" []).
Proof.
  destruct (threads_persist demo_only_child) as (_ & _ & Hlast).
  apply (Hlast 9 "alice" "1" _
           (CommentDoc.mk "1" "alice" "A" "0" None [])
           (ThreadDoc.mk "0" "B1" "S1" ["1"])); by vm_compute.
Defined.

(** C9: the four queries leave the state as it is and always answer with a
    success record; when what is asked for is not there the answer is [null]
    or the empty list. *)
Theorem queries_read_only st :
  (∀ book section,
     ∃ cs, _getThreadComments book section st = (Ret cs, st) ∧
           (thread_count book section st = 0 → cs = [])) ∧
  (∀ comment,
     ∃ rs, _getCommentReactions comment st = (Ret rs, st) ∧
           ((∀ r, r ∈ st_reactions st →
               ReactionDoc.targetCommentId r ≠ comment) → rs = []) ∧
           (reachable st → comment ∉ doc_id <$> st_comments st → rs = [])) ∧
  (∀ commentId,
     ∃ o, _getComment commentId st = (Ret o, st) ∧
          (commentId ∉ doc_id <$> st_comments st → o = None)) ∧
  (∀ book section,
     ∃ o, _getThreadByBookAndSection book section st = (Ret o, st) ∧
          (thread_count book section st = 0 → o = None)).
Proof.
  assert (∀ book section, thread_count book section st = 0 →
            findOne_in (for_pair book section) (st_threads st) = None)
    as Hnone.
  { intros book section Hcount. unfold findOne_in.
    apply head_None, nil_length_inv, Hcount. }
  split_and!.
  - intros book section.
    unfold _getThreadComments, mbind, M_bind, findOne, find. simpl.
    destruct (findOne_in _ _) as [threadDoc|] eqn:Hfind.
    + eexists. split; [done|]. intros Hcount.
      by rewrite (Hnone _ _ Hcount) in Hfind.
    + by exists [].
  - intros comment. unfold _getCommentReactions, find. simpl.
    eexists. split; [done|].
    assert ((∀ r, r ∈ st_reactions st →
               ReactionDoc.targetCommentId r ≠ comment) →
            filter (λ r, ReactionDoc.targetCommentId r = comment)
              (st_reactions st) = []) as Hempty.
    { intros Hno. apply elem_of_nil_inv.
      intros r [Hr Hin]%list_elem_of_filter. by eapply Hno. }
    split; [done|].
    intros Hreach Habsent. apply Hempty. intros r Hr <-.
    by apply Habsent, (inv_targeted _ (reachable_invariant _ Hreach)).
  - intros commentId. unfold _getComment, findOne. simpl.
    eexists. split; [done|]. intros Habsent.
    destruct (findOne_in _ _) as [c|] eqn:Hfind; [|done].
    by apply comment_stored in Hfind.
  - intros book section. unfold _getThreadByBookAndSection, findOne. simpl.
    eexists. split; [done|]. apply Hnone.
Qed.

Lemma queries_read_only_witness :
  _getThreadComments "B2" "S1" demo = (Ret [], demo) ∧
  _getCommentReactions "7" demo = (Ret [], demo) ∧
  _getComment "7" demo = (Ret None, demo) ∧
  _getThreadByBookAndSection "B2" "S1" demo = (Ret None, demo).
Proof.
  destruct (queries_read_only demo) as (Hcs & Hrs & Hc & Ht).
  destruct (Hcs "B2" "S1") as (cs & -> & Hnil).
  destruct (Hrs "7") as (rs & -> & _ & Hnone).
  destruct (Hc "7") as (o & -> & Hnull).
  destruct (Ht "B2" "S1") as (t & -> & Hnothread).
  rewrite Hnil, Hnone, Hnull, Hnothread;
    first [done | exact reachable_demo | compute_done].
Defined.

(** C10: in every reachable state the [reactionIds] of a stored comment
    are exactly the ids of the stored reactions whose [targetCommentId] is
    that comment. *)
Theorem reactionIds_match_reactions st :
  reachable st →
  ∀ c, c ∈ st_comments st → ∀ r,
    r ∈ CommentDoc.reactionIds c ↔
    ∃ rd, rd ∈ st_reactions st ∧ ReactionDoc._id rd = r ∧
          ReactionDoc.targetCommentId rd = CommentDoc._id c.
Proof.
  intros Hinv%reachable_invariant. exact (inv_attached _ Hinv).
Qed.

Lemma reactionIds_match_reactions_witness :
  "4" ∈ ["3"; "4"; "5"] ↔
  ∃ rd, rd ∈ st_reactions demo ∧ ReactionDoc._id rd = "4" ∧
        ReactionDoc.targetCommentId rd = "1".
Proof.
  apply (reactionIds_match_reactions demo reachable_demo
           (CommentDoc.mk "1" "alice" "A" "0" None ["3"; "4"; "5"])).
  compute_done.
Defined.

(** * Further properties of the code *)

(** ** More of the invariant *)

Lemma top_level_of_app cs cs' t :
  top_level_of (cs ++ cs') t = top_level_of cs t ++ top_level_of cs' t.
Proof. unfold top_level_of. by rewrite filter_app, fmap_app. Qed.

Lemma top_level_of_cons c cs t :
  top_level_of (c :: cs) t =
  if decide (CommentDoc.threadId c = t ∧ CommentDoc.parentId c = None)
  then CommentDoc._id c :: top_level_of cs t
  else top_level_of cs t.
Proof.
  unfold top_level_of. rewrite filter_cons.
  by destruct (decide (_ ∧ _)).
Qed.

Lemma top_level_of_singleton c t :
  top_level_of [c] t =
  if decide (CommentDoc.threadId c = t ∧ CommentDoc.parentId c = None)
  then [CommentDoc._id c] else [].
Proof. by rewrite top_level_of_cons. Qed.

Lemma elem_of_top_level_of cs t x :
  x ∈ top_level_of cs t ↔
  ∃ c, c ∈ cs ∧ CommentDoc._id c = x ∧ CommentDoc.threadId c = t ∧
       CommentDoc.parentId c = None.
Proof.
  unfold top_level_of. rewrite list_elem_of_fmap. split.
  - intros (c & -> & [[Ht Hp] Hc]%list_elem_of_filter). by exists c.
  - intros (c & Hc & <- & Ht & Hp). exists c. split; [done|].
    by apply list_elem_of_filter.
Qed.

Lemma top_level_of_updateOne_in (P : CommentDoc.t → Prop)
    `{!∀ d, Decision (P d)} id cs t :
  top_level_of (updateOne_in P (push_reaction id) cs) t = top_level_of cs t.
Proof.
  induction cs as [|c cs IH]; [done|]. simpl.
  destruct (decide (P c)).
  - by rewrite !top_level_of_cons.
  - by rewrite !top_level_of_cons, IH.
Qed.

(** Of a set of descendants only the target itself can be top-level. *)
Lemma top_level_descendant cs target c :
  NoDup (doc_id <$> cs) → c ∈ cs → CommentDoc.parentId c = None →
  descendant cs target (CommentDoc._id c) → CommentDoc._id c = target.
Proof.
  intros Hnd Hc Htop Hdesc.
  remember (CommentDoc._id c) as x eqn:Hx.
  destruct Hdesc as [|c' p _ Hc' Hp]; [done|].
  assert (c' = c) as ->; [|congruence].
  by apply (NoDup_id_inj cs).
Qed.

(** The cascade takes [target], and nothing else, out of the top-level
    comments of a thread. *)
Lemma top_level_of_deleteMany_in cs (ids : list ID) target t :
  (∀ c, c ∈ cs → CommentDoc.parentId c = None →
     CommentDoc._id c ∈ ids ↔ CommentDoc._id c = target) →
  top_level_of (deleteMany_in (λ c, CommentDoc._id c ∈ ids) cs) t =
  filter (λ x, x ≠ target) (top_level_of cs t).
Proof.
  unfold deleteMany_in. induction cs as [|c cs IH]; intros Hids; [done|].
  assert (top_level_of (filter (λ d, CommentDoc._id d ∉ ids) cs) t
          = filter (λ x, x ≠ target) (top_level_of cs t)) as IH'.
  { apply IH. intros c' Hc'. apply Hids. by right. }
  pose proof (Hids c (list_elem_of_here _ _)) as Hc.
  rewrite filter_cons, top_level_of_cons.
  destruct (decide (CommentDoc._id c ∉ ids)) as [Hkeep|Hdrop];
    destruct (decide (_ ∧ _)) as [[Ht Hp]|Hno]; cbv iota.
  - rewrite top_level_of_cons, decide_True by done.
    rewrite (filter_cons (λ x, x ≠ target)), decide_True, IH'; [done|].
    intros Heq. by apply Hkeep, Hc.
  - by rewrite top_level_of_cons, decide_False.
  - rewrite (filter_cons (λ x, x ≠ target)), decide_False; [done|].
    intros Hne. apply Hdrop. intros Hin. by apply Hne, Hc.
  - done.
Qed.

Lemma filter_ne_absent (x : ID) (l : list ID) :
  x ∉ l → filter (λ y, y ≠ x) l = l.
Proof.
  induction l as [|y l IH]; [done|].
  intros [Hne Hl]%not_elem_of_cons.
  rewrite (filter_cons (λ y, y ≠ x)), decide_True by done. by rewrite IH.
Qed.

Lemma invariant_more_init : invariant_more init.
Proof.
  split; simpl.
  - constructor.
  - constructor.
  - by intros c ?%elem_of_nil.
  - by intros t ?%elem_of_nil.
Qed.

Lemma invariant_more_postComment author book section body st :
  invariant st → invariant_more st →
  invariant_more (postComment author book section body st).2.
Proof.
  intros Hinv [Htriples Hrids Hexist Htop].
  pose proof (inv_fresh _ Hinv) as (Hft & Hfc & Hfr).
  pose proof (inv_thread_ids _ Hinv) as Hnd.
  destruct (findOne_in (for_pair book section) (st_threads st))
    as [threadDoc|] eqn:Hfind.
  - rewrite (postComment_existing _ _ _ _ _ threadDoc)
      by (done || apply Hinv).
    split; simpl; [done|done|..].
    + rewrite thread_ids_updateOne_in by done.
      intros c [Hc| ->%list_elem_of_singleton]%elem_of_app;
        [by apply Hexist|]. simpl.
      apply findOne_in_Some in Hfind as [Hin _].
      by apply (list_elem_of_fmap_2 doc_id).
    + intros t Ht. rewrite top_level_of_app.
      apply (elem_of_updateOne_in_id _ _ (ThreadDoc._id threadDoc) t Hnd)
        in Ht as [[Ht Hne]|(t0 & Ht0 & Hid & ->)].
      * rewrite (Htop t Ht), top_level_of_singleton, decide_False.
        -- by rewrite app_nil_r.
        -- intros [Heq _]. by apply Hne.
      * simpl. rewrite (Htop t0 Ht0), top_level_of_singleton, decide_True;
          [done|].
        split; [|done]. simpl. by rewrite <- Hid.
  - rewrite postComment_new by (done || apply Hinv).
    split; simpl; [done|done|..].
    + rewrite fmap_app.
      intros c [Hc| ->%list_elem_of_singleton]%elem_of_app;
        apply elem_of_app; [left; by apply Hexist|right; by left].
    + intros t [Ht| ->%list_elem_of_singleton]%elem_of_app;
        rewrite top_level_of_app.
      * rewrite (Htop t Ht), top_level_of_singleton, decide_False.
        -- by rewrite app_nil_r.
        -- intros [Heq _]. apply (unissued_next _ _ Hft).
           simpl in Heq. rewrite Heq. by apply (list_elem_of_fmap_2 doc_id).
      * simpl. rewrite top_level_of_singleton, decide_True by done. simpl.
        assert (top_level_of (st_comments st) (pretty (st_issued st)) = [])
          as ->; [|done].
        apply elem_of_nil_inv.
        intros x (c & Hc & _ & Ht & _)%elem_of_top_level_of.
        apply (unissued_next _ _ Hft). rewrite <- Ht. by apply Hexist.
Qed.

Lemma invariant_more_reply author parent body st :
  invariant st → invariant_more st →
  invariant_more (reply author parent body st).2.
Proof.
  intros Hinv [Htriples Hrids Hexist Htop].
  destruct (findOne_in (λ c, CommentDoc._id c = parent) (st_comments st))
    as [parentComment|] eqn:Hfind; [|by rewrite reply_run, Hfind].
  rewrite (reply_found _ _ _ _ parentComment) by (done || apply Hinv).
  split; simpl; [done|done|..].
  - intros c [Hc| ->%list_elem_of_singleton]%elem_of_app;
      [by apply Hexist|]. simpl.
    apply Hexist. by apply findOne_in_Some in Hfind as [? _].
  - intros t Ht.
    rewrite top_level_of_app, (Htop t Ht), top_level_of_singleton.
    rewrite decide_False; [by rewrite app_nil_r|]. by intros [_ [=]].
Qed.

Lemma invariant_more_react reactor target type st :
  invariant st → invariant_more st →
  invariant_more (react reactor target type st).2.
Proof.
  intros Hinv [Htriples Hrids Hexist Htop].
  pose proof (inv_fresh _ Hinv) as (Hft & Hfc & Hfr).
  destruct (findOne_in (λ c, CommentDoc._id c = target) (st_comments st))
    as [targetComment|] eqn:Hfind; [|by rewrite react_run, Hfind].
  destruct (findOne_in
              (λ r, ReactionDoc.reactor r = reactor
                    ∧ ReactionDoc.targetCommentId r = target
                    ∧ ReactionDoc.type r = type) (st_reactions st))
    as [existing|] eqn:Hdup; [by rewrite react_run, Hfind, Hdup|].
  rewrite (react_new _ _ _ _ targetComment) by (done || apply Hinv).
  split; simpl.
  - rewrite fmap_app. apply NoDup_app. split_and!; [done| |].
    + intros x (r & -> & Hr)%list_elem_of_fmap
        [= Hreactor Htarget Htype]%list_elem_of_singleton.
      rewrite findOne_in_None in Hdup. by apply (Hdup r Hr).
    + apply NoDup_singleton.
  - rewrite fmap_app. apply NoDup_app. split_and!; [done| |].
    + intros x Hx ->%list_elem_of_singleton.
      by apply (unissued_next _ _ Hfr).
    + apply NoDup_singleton.
  - intros c Hc.
    assert (skeleton c ∈ skeleton <$> st_comments st) as Hsk.
    { rewrite <- (skeleton_updateOne_in
                    (λ c, CommentDoc._id c = target)
                    (pretty (st_issued st)) (st_comments st)).
      by apply list_elem_of_fmap_2. }
    apply list_elem_of_fmap in Hsk as (c0 & [= _ -> _] & Hc0).
    by apply Hexist.
  - intros t Ht. rewrite top_level_of_updateOne_in. by apply Htop.
Qed.

Lemma invariant_more_deleteComment fuel requestor target st :
  invariant st → invariant_more st →
  invariant_more (deleteComment fuel requestor target st).2.
Proof.
  intros Hinv Hmore. pose proof Hmore as [Htriples Hrids Hexist Htop].
  pose proof (invariant_unique_ids _ Hinv) as Hnd.
  pose proof (inv_thread_ids _ Hinv) as Hndt.
  rewrite deleteComment_run.
  destruct (findOne_in _ _) as [targetComment|] eqn:Hfind; [|done].
  destruct (decide (_ ≠ _)); [done|].
  destruct ((collect fuel [target] [target] [] st).1)
    as [[ids vis]| | |] eqn:Hrun; try done.
  apply collect_fst, collect_descendants in Hrun as [_ Hids].
  apply findOne_in_Some in Hfind as [Htc Htarget].
  assert (∀ c, c ∈ st_comments st → CommentDoc.parentId c = None →
            CommentDoc._id c ∈ ids ↔ CommentDoc._id c = target) as Htops.
  { intros c Hc Hp. rewrite Hids. split.
    - by apply top_level_descendant.
    - intros ->. constructor. }
  simpl. split; simpl.
  - eapply sublist_NoDup; [exact Htriples|].
    apply fmap_sublist, sublist_filter.
  - eapply sublist_NoDup; [exact Hrids|].
    apply fmap_sublist, sublist_filter.
  - intros c [Hc _]%elem_of_deleteMany_in.
    destruct (falsy _); [|by apply Hexist].
    rewrite thread_ids_updateOne_in by done. by apply Hexist.
  - intros t Ht.
    rewrite (top_level_of_deleteMany_in _ _ target) by done.
    assert (∀ t0, t0 ∈ st_threads st →
              ThreadDoc._id t0 ≠ CommentDoc.threadId targetComment
              ∨ falsy (CommentDoc.parentId targetComment) = false →
              target ∉ ThreadDoc.topLevelCommentIds t0) as Hother.
    { intros t0 Ht0 Hcase. rewrite (Htop t0 Ht0).
      intros (c & Hc & Hid & Hth & Hp)%elem_of_top_level_of.
      assert (c = targetComment) as ->.
      { apply (NoDup_id_inj (st_comments st)); [done..|].
        unfold doc_id, CommentDoc_doc. congruence. }
      destruct Hcase as [Hne|Hfalsy]; [by apply Hne|].
      by rewrite Hp in Hfalsy. }
    destruct (falsy (CommentDoc.parentId targetComment)) eqn:Hfalsy.
    + apply (elem_of_updateOne_in_id _ _
               (CommentDoc.threadId targetComment) t Hndt)
        in Ht as [[Ht Hne]|(t0 & Ht0 & Hid & ->)].
      * rewrite filter_ne_absent; [by apply Htop|].
        rewrite <- (Htop t Ht). apply Hother; [done|by left].
      * simpl. by rewrite (Htop t0 Ht0).
    + rewrite filter_ne_absent; [by apply Htop|].
      rewrite <- (Htop t Ht). apply Hother; [done|by right].
Qed.

Lemma invariant_more_step c st :
  invariant st → invariant_more st → invariant_more (step c st).
Proof.
  destruct c; simpl.
  - apply invariant_more_postComment.
  - apply invariant_more_reply.
  - apply invariant_more_react.
  - apply invariant_more_deleteComment.
Qed.

Lemma reachable_invariant_more st : reachable st → invariant_more st.
Proof.
  induction 1 as [|st c Hreach IH]; [apply invariant_more_init|].
  apply invariant_more_step; [by apply reachable_invariant|done].
Qed.

(** ** Helper facts *)

Lemma singleton_of_short {A} (l : list A) x :
  length l ≤ 1 → x ∈ l → l = [x].
Proof.
  destruct l as [|y [|z l]]; simpl; intros Hlen Hx.
  - by apply elem_of_nil in Hx.
  - by apply list_elem_of_singleton in Hx as ->.
  - lia.
Qed.

(** Where pairs have one thread at most, a stored thread is the one its
    pair resolves to. *)
Lemma findOne_own_pair st t :
  at_most_one_thread st → t ∈ st_threads st →
  findOne_in (for_pair (ThreadDoc.book t) (ThreadDoc.section t))
    (st_threads st) = Some t.
Proof.
  intros Hone Ht. unfold findOne_in.
  rewrite (singleton_of_short _ t); [done|apply Hone|].
  by apply list_elem_of_filter.
Qed.

Lemma getThreadComments_run book section st :
  _getThreadComments book section st =
  (Ret match findOne_in (for_pair book section) (st_threads st) with
       | None => []
       | Some threadDoc =>
           filter (λ c, CommentDoc.threadId c = ThreadDoc._id threadDoc)
             (st_comments st)
       end, st).
Proof.
  unfold _getThreadComments, mbind, M_bind, findOne, find. simpl.
  by destruct (findOne_in _ _).
Qed.

(** A lookup by pair reads only the keys of the threads. *)
Lemma findOne_thread_key book section ts ts' :
  thread_key <$> ts' = thread_key <$> ts →
  thread_key <$> findOne_in (for_pair book section) ts' =
  thread_key <$> findOne_in (for_pair book section) ts.
Proof.
  intros Heq.
  exact (findOne_in_fmap thread_key (λ k, k.1.2 = book ∧ k.2 = section)
           ts ts' Heq).
Qed.


(** ** Invariants of the reachable states *)

(** X1: in a reachable state no two reactions have the same reactor,
    target and type, and no two have the same id. *)
Theorem reachable_reactions_unique st :
  reachable st →
  NoDup (triple <$> st_reactions st) ∧ NoDup (doc_id <$> st_reactions st).
Proof.
  intros Hmore%reachable_invariant_more. split; apply Hmore.
Qed.

Lemma reachable_reactions_unique_witness :
  NoDup (triple <$> st_reactions demo) ∧
  NoDup (doc_id <$> st_reactions demo).
Proof. exact (reachable_reactions_unique demo reachable_demo). Defined.

(** X2: in a reachable state the top-level list of every thread is the
    list of ids of the stored comments of that thread that have no parent,
    in the order they were posted. *)
Theorem reachable_top_level_lists st t :
  reachable st → t ∈ st_threads st →
  ThreadDoc.topLevelCommentIds t
  = top_level_of (st_comments st) (ThreadDoc._id t).
Proof.
  intros Hmore%reachable_invariant_more. apply Hmore.
Qed.

Lemma reachable_top_level_lists_witness :
  ["1"] = top_level_of (st_comments demo) "0".
Proof.
  apply (reachable_top_level_lists demo (ThreadDoc.mk "0" "B1" "S1" ["1"])
           reachable_demo).
  compute_done.
Defined.

(** X3: a reachable state has no orphans: the thread of every comment,
    the parent of every reply and the target of every reaction are
    stored. *)
Theorem reachable_no_orphans st :
  reachable st →
  (∀ c, c ∈ st_comments st →
     CommentDoc.threadId c ∈ doc_id <$> st_threads st) ∧
  (∀ c p, c ∈ st_comments st → CommentDoc.parentId c = Some p →
     p ∈ doc_id <$> st_comments st) ∧
  (∀ r, r ∈ st_reactions st →
     ReactionDoc.targetCommentId r ∈ doc_id <$> st_comments st).
Proof.
  intros Hreach.
  pose proof (reachable_invariant _ Hreach) as Hinv.
  pose proof (reachable_invariant_more _ Hreach) as Hmore.
  split_and!.
  - apply Hmore.
  - intros c p Hc Hp.
    destruct (inv_same_thread _ Hinv c p Hc Hp) as (pc & Hfind & _).
    by eapply comment_stored.
  - apply Hinv.
Qed.

Lemma reachable_no_orphans_witness :
  "0" ∈ doc_id <$> st_threads demo ∧
  "2" ∈ doc_id <$> st_comments demo ∧
  "1" ∈ doc_id <$> st_comments demo.
Proof.
  destruct (reachable_no_orphans demo reachable_demo) as (Ht & Hp & Hr).
  split_and!.
  - apply (Ht (CommentDoc.mk "6" "carol" "re: re: A" "0" (Some "2") [])).
    compute_done.
  - apply (Hp (CommentDoc.mk "6" "carol" "re: re: A" "0" (Some "2") []));
      [compute_done|done].
  - apply (Hr (ReactionDoc.mk "4" "bob" "1" "love")). compute_done.
Defined.

(** ** What [_getThreadComments] returns *)

(** X4: in a reachable state every stored comment is returned by
    [_getThreadComments] for the (book, section) pair of its thread, and
    for no other pair. *)
Theorem getThreadComments_partition st c :
  reachable st → c ∈ st_comments st →
  ∃ t,
    t ∈ st_threads st ∧
    ThreadDoc._id t = CommentDoc.threadId c ∧
    (∃ cs,
       _getThreadComments (ThreadDoc.book t) (ThreadDoc.section t) st
         = (Ret cs, st) ∧ c ∈ cs) ∧
    ∀ book section cs,
      _getThreadComments book section st = (Ret cs, st) → c ∈ cs →
      book = ThreadDoc.book t ∧ section = ThreadDoc.section t.
Proof.
  intros Hreach Hc.
  pose proof (reachable_invariant _ Hreach) as Hinv.
  pose proof (reachable_invariant_more _ Hreach) as Hmore.
  pose proof (more_threads_exist _ Hmore c Hc) as Ht.
  apply list_elem_of_fmap in Ht as (t & Hid & Ht).
  exists t. split_and!; [done|done|..].
  - eexists. split; [apply getThreadComments_run|].
    rewrite findOne_own_pair by (done || apply Hinv).
    by apply list_elem_of_filter.
  - intros book section cs. rewrite getThreadComments_run.
    intros [= <-] Hin.
    destruct (findOne_in _ _) as [th|] eqn:Hfind;
      [|by apply elem_of_nil in Hin].
    apply list_elem_of_filter in Hin as [Hth _].
    apply findOne_in_Some in Hfind as [Hthin [Hb Hs]].
    assert (th = t) as ->; [|done].
    apply (NoDup_id_inj (st_threads st)); [apply Hinv|done..|].
    unfold doc_id, ThreadDoc_doc in *. congruence.
Qed.

Lemma getThreadComments_partition_witness :
  ∃ t,
    t ∈ st_threads demo ∧
    ThreadDoc._id t = "0" ∧
    (∃ cs,
       _getThreadComments (ThreadDoc.book t) (ThreadDoc.section t) demo
         = (Ret cs, demo) ∧
       CommentDoc.mk "2" "bob" "re: A" "0" (Some "1") [] ∈ cs) ∧
    ∀ book section cs,
      _getThreadComments book section demo = (Ret cs, demo) →
      CommentDoc.mk "2" "bob" "re: A" "0" (Some "1") [] ∈ cs →
      book = ThreadDoc.book t ∧ section = ThreadDoc.section t.
Proof.
  apply (getThreadComments_partition demo
           (CommentDoc.mk "2" "bob" "re: A" "0" (Some "1") [])
           reachable_demo).
  compute_done.
Defined.

(** X5: in a reachable state [_getThreadComments] returns whole reply
    trees: with a comment it returns every stored comment below it. *)
Theorem getThreadComments_with_replies st book section cs c d :
  reachable st →
  _getThreadComments book section st = (Ret cs, st) →
  c ∈ cs → d ∈ st_comments st →
  descendant (st_comments st) (CommentDoc._id c) (CommentDoc._id d) →
  d ∈ cs.
Proof.
  intros Hinv%reachable_invariant. rewrite getThreadComments_run.
  intros [= <-] Hc Hd Hdesc.
  destruct (findOne_in _ _) as [th|]; [|by apply elem_of_nil in Hc].
  apply list_elem_of_filter in Hc as [Hth Hc].
  apply list_elem_of_filter. split; [|done]. rewrite <- Hth.
  pose proof (invariant_unique_ids _ Hinv) as Hnd.
  apply (descendants_share_thread (st_comments st)
           (CommentDoc._id c) (CommentDoc._id d));
    [done|apply Hinv|done|..].
  - exact (findOne_in_id_unique (st_comments st) c Hnd Hc).
  - exact (findOne_in_id_unique (st_comments st) d Hnd Hd).
Qed.

Lemma getThreadComments_with_replies_witness :
  CommentDoc.mk "6" "carol" "re: re: A" "0" (Some "2") []
  ∈ st_comments demo.
Proof.
  apply (getThreadComments_with_replies demo "B1" "S1" (st_comments demo)
           (CommentDoc.mk "1" "alice" "A" "0" None ["3"; "4"; "5"])
           (CommentDoc.mk "6" "carol" "re: re: A" "0" (Some "2") [])
           reachable_demo).
  - by vm_compute.
  - compute_done.
  - compute_done.
  - apply demo_descendants. compute_done.
Defined.

(** ** Writing, then reading *)

(** X6: after a successful [postComment] the pair resolves to a thread,
    [_getComment] on the returned id gives the comment as posted, without
    parent or reactions, in that thread, and, thread ids being distinct,
    the returned id is the last entry of that thread's top-level list. *)
Theorem postComment_then_read author book section body st newCommentId st' :
  postComment author book section body st = (Ret newCommentId, st') →
  ∃ t,
    _getThreadByBookAndSection book section st' = (Ret (Some t), st') ∧
    _getComment newCommentId st'
      = (Ret (Some (CommentDoc.mk newCommentId author body
                      (ThreadDoc._id t) None [])), st') ∧
    (NoDup (doc_id <$> st_threads st) →
     last (ThreadDoc.topLevelCommentIds t) = Some newCommentId).
Proof.
  rewrite postComment_run.
  unfold _getThreadByBookAndSection, _getComment, findOne. simpl.
  destruct (findOne_in (for_pair book section) (st_threads st))
    as [threadDoc|] eqn:Hfind; simpl.
  - destruct (decide (_ ∈ _)) as [|Hfresh]; [done|]. intros [= <- <-]. simpl.
    pose proof (findOne_thread_key book section (st_threads st)
                  (updateOne_in
                     (λ t, ThreadDoc._id t = ThreadDoc._id threadDoc)
                     (push_topLevel (pretty (st_issued st)))
                     (st_threads st))) as Hkey.
    rewrite Hfind in Hkey. rewrite fmap_updateOne_in in Hkey by done.
    specialize (Hkey eq_refl).
    destruct (findOne_in (for_pair book section) (updateOne_in _ _ _))
      as [t|] eqn:Hfind'; [|done].
    unfold thread_key in Hkey. simpl in Hkey.
    injection Hkey as Hid Hbook Hsection.
    exists t. split_and!; [done| |].
    + rewrite findOne_in_app, Hid.
      assert (findOne_in
                (λ c, CommentDoc._id c = pretty (st_issued st))
                (st_comments st) = None) as ->.
      { apply findOne_in_None. intros c Hc Heq. apply Hfresh.
        rewrite <- Heq. by apply (list_elem_of_fmap_2 doc_id). }
      by rewrite findOne_in_cons, decide_True.
    + intros Hnd.
      rewrite (updateOne_in_id_findOne (for_pair book section) _ _
                 threadDoc Hnd Hfind) in Hfind'.
      * injection Hfind' as <-. simpl. apply last_snoc.
      * by apply findOne_in_Some in Hfind as [_ ?].
  - destruct (decide (_ ∈ _)) as [|Hfresh_t]; [done|]. simpl.
    destruct (decide (_ ∈ _)) as [|Hfresh_c]; [done|].
    intros [= <- <-]. simpl.
    rewrite updateOne_in_snoc; [| |done].
    + eexists. split_and!.
      * by rewrite findOne_in_app, Hfind, findOne_in_cons, decide_True.
      * rewrite findOne_in_app.
        assert (findOne_in
                  (λ c, CommentDoc._id c = pretty (S (st_issued st)))
                  (st_comments st) = None) as ->.
        { apply findOne_in_None. intros c Hc Heq. apply Hfresh_c.
          rewrite <- Heq. by apply (list_elem_of_fmap_2 doc_id). }
        by rewrite findOne_in_cons, decide_True.
      * done.
    + apply findOne_in_None. intros t Ht Heq. apply Hfresh_t.
      rewrite <- Heq. by apply (list_elem_of_fmap_2 doc_id).
Qed.

Lemma postComment_then_read_witness :
  ∃ t,
    _getThreadByBookAndSection "B1" "S1"
      (postComment "erin" "B1" "S1" "second" demo).2
      = (Ret (Some t), (postComment "erin" "B1" "S1" "second" demo).2) ∧
    _getComment "7" (postComment "erin" "B1" "S1" "second" demo).2
      = (Ret (Some (CommentDoc.mk "7" "erin" "second"
                      (ThreadDoc._id t) None [])),
         (postComment "erin" "B1" "S1" "second" demo).2) ∧
    (NoDup (doc_id <$> st_threads demo) →
     last (ThreadDoc.topLevelCommentIds t) = Some "7").
Proof.
  apply (postComment_then_read "erin" "B1" "S1" "second" demo "7").
  by vm_compute.
Defined.

(** X7: after a successful [reply], [_getComment] on the returned id gives
    the reply as written, in the thread of the comment [parent] resolved
    to, and [parent] still resolves to that same comment. *)
Theorem reply_then_read author parent body st newCommentId st' :
  reply author parent body st = (Ret newCommentId, st') →
  ∃ parentComment,
    _getComment parent st = (Ret (Some parentComment), st) ∧
    _getComment parent st' = (Ret (Some parentComment), st') ∧
    _getComment newCommentId st'
      = (Ret (Some (CommentDoc.mk newCommentId author body
                      (CommentDoc.threadId parentComment)
                      (Some parent) [])), st').
Proof.
  rewrite reply_run. unfold _getComment, findOne. simpl.
  destruct (findOne_in _ _) as [parentComment|] eqn:Hfind; [|done]. simpl.
  destruct (decide (_ ∈ _)) as [|Hfresh]; [done|]. intros [= <- <-]. simpl.
  exists parentComment. split_and!; [done|..].
  - by rewrite findOne_in_app, Hfind.
  - rewrite findOne_in_app.
    assert (findOne_in (λ c, CommentDoc._id c = pretty (st_issued st))
              (st_comments st) = None) as ->.
    { apply findOne_in_None. intros c Hc Heq. apply Hfresh.
      rewrite <- Heq. by apply (list_elem_of_fmap_2 doc_id). }
    by rewrite findOne_in_cons, decide_True.
Qed.

Lemma reply_then_read_witness :
  ∃ parentComment,
    _getComment "6" demo = (Ret (Some parentComment), demo) ∧
    _getComment "6" (reply "dave" "6" "deep" demo).2
      = (Ret (Some parentComment), (reply "dave" "6" "deep" demo).2) ∧
    _getComment "7" (reply "dave" "6" "deep" demo).2
      = (Ret (Some (CommentDoc.mk "7" "dave" "deep"
                      (CommentDoc.threadId parentComment) (Some "6") [])),
         (reply "dave" "6" "deep" demo).2).
Proof.
  apply (reply_then_read "dave" "6" "deep" demo "7"). by vm_compute.
Defined.

(** X8: after a successful [react], [_getCommentReactions] on the target
    gives what it gave before followed by the new reaction, and gives
    for every other comment what it gave before. *)
Theorem react_then_read reactor target type st newReactionId st' :
  react reactor target type st = (Ret newReactionId, st') →
  (∃ rs,
     _getCommentReactions target st = (Ret rs, st) ∧
     _getCommentReactions target st'
       = (Ret (rs ++ [ReactionDoc.mk newReactionId reactor target type]),
          st')) ∧
  (∀ comment, comment ≠ target →
     (_getCommentReactions comment st').1
     = (_getCommentReactions comment st).1).
Proof.
  rewrite react_run. unfold _getCommentReactions, find. simpl.
  destruct (findOne_in _ (st_comments st)); [|done].
  destruct (findOne_in _ (st_reactions st)); [done|]. simpl.
  destruct (decide (_ ∈ _)); [done|]. intros [= <- <-]. simpl. split.
  - eexists. split; [done|].
    rewrite filter_app, filter_cons, filter_nil. simpl.
    by rewrite decide_True.
  - intros comment Hne.
    rewrite filter_app, filter_cons, filter_nil. simpl.
    rewrite decide_False by (by intros ?). by rewrite app_nil_r.
Qed.

Lemma react_then_read_witness :
  (∃ rs,
     _getCommentReactions "2" demo = (Ret rs, demo) ∧
     _getCommentReactions "2" (react "alice" "2" "like" demo).2
       = (Ret (rs ++ [ReactionDoc.mk "7" "alice" "2" "like"]),
          (react "alice" "2" "like" demo).2)) ∧
  (∀ comment, comment ≠ "2" →
     (_getCommentReactions comment (react "alice" "2" "like" demo).2).1
     = (_getCommentReactions comment demo).1).
Proof.
  apply (react_then_read "alice" "2" "like" demo "7"). by vm_compute.
Defined.

(** ** What the actions leave alone *)

(** X9: whatever their outcome, [postComment] and [reply] leave every
    stored comment and reaction as it is, the new comment coming last;
    [reply] leaves the threads alone too. *)
Theorem posting_keeps_documents st :
  (∀ author book section body,
     let st' := (postComment author book section body st).2 in
     st_comments st `prefix_of` st_comments st' ∧
     st_reactions st' = st_reactions st) ∧
  (∀ author parent body,
     let st' := (reply author parent body st).2 in
     st_comments st `prefix_of` st_comments st' ∧
     st_reactions st' = st_reactions st ∧
     st_threads st' = st_threads st).
Proof.
  split.
  - intros author book section body. rewrite postComment_run.
    destruct (findOne_in _ _); simpl.
    + destruct (decide (_ ∈ _)); simpl; split; try done.
      by apply prefix_app_r.
    + destruct (decide (_ ∈ _)); simpl; [done|].
      destruct (decide (_ ∈ _)); simpl; split; try done.
      by apply prefix_app_r.
  - intros author parent body. rewrite reply_run.
    destruct (findOne_in _ _); [|done]. simpl.
    destruct (decide (_ ∈ _)); simpl; split_and!; try done.
    by apply prefix_app_r.
Qed.

(** X10: whatever its outcome, [react] leaves the threads alone, keeps
    the id, author, body, thread and parent of every comment, in place,
    and keeps every stored reaction, the new one coming last. *)
Theorem react_keeps_content reactor target type st :
  let st' := (react reactor target type st).2 in
  st_threads st' = st_threads st ∧
  content <$> st_comments st' = content <$> st_comments st ∧
  st_reactions st `prefix_of` st_reactions st'.
Proof.
  rewrite react_run.
  destruct (findOne_in _ (st_comments st)); [|done].
  destruct (findOne_in _ (st_reactions st)); [done|]. simpl.
  destruct (decide (_ ∈ _)); simpl; [done|]. split_and!; [done|..].
  - by apply fmap_updateOne_in.
  - by apply prefix_app_r.
Qed.

(** ** More on the cascading delete *)

(** X11: a successful [deleteComment] of a reply (a comment with a
    non-empty [parentId]) leaves every thread document as it is, removes
    exactly the comments of the descendant set and the reactions that
    target them and, in a reachable state, keeps the parent stored. *)
Theorem deleteComment_reply fuel requestor target st st' targetComment p :
  findOne_in (λ c, CommentDoc._id c = target) (st_comments st)
    = Some targetComment →
  CommentDoc.parentId targetComment = Some p → p ≠ "" →
  deleteComment fuel requestor target st = (Ret (), st') →
  st_threads st' = st_threads st ∧
  (∀ c, c ∈ st_comments st' ↔
        c ∈ st_comments st ∧
        ¬ descendant (st_comments st) target (CommentDoc._id c)) ∧
  (∀ r, r ∈ st_reactions st' ↔
        r ∈ st_reactions st ∧
        ¬ descendant (st_comments st) target
            (ReactionDoc.targetCommentId r)) ∧
  (reachable st → p ∈ doc_id <$> st_comments st').
Proof.
  intros Hfind Hp Hne Hrun.
  apply deleteComment_Ret in Hrun as (tc & ids & Hfound & _ & _ & Hids & ->).
  rewrite Hfind in Hfound. injection Hfound as <-.
  unfold deleted. rewrite Hp. simpl.
  rewrite bool_decide_eq_false_2 by done. split_and!.
  - done.
  - intros c. rewrite elem_of_deleteMany_in, Hids. tauto.
  - intros r. rewrite elem_of_deleteMany_in, Hids. tauto.
  - intros Hinv%reachable_invariant.
    apply findOne_in_Some in Hfind as [Htc Htarget].
    destruct (inv_same_thread _ Hinv targetComment p Htc Hp)
      as (pc & Hpc & _).
    apply findOne_in_Some in Hpc as [Hpc <-].
    apply (list_elem_of_fmap_2 doc_id), elem_of_deleteMany_in.
    split; [done|]. rewrite Hids.
    by apply (created_no_cycle _ target (inv_created _ Hinv) targetComment).
Qed.

Lemma deleteComment_reply_witness :
  st_threads (deleteComment 9 "bob" "2" demo).2 = st_threads demo ∧
  "1" ∈ doc_id <$> st_comments (deleteComment 9 "bob" "2" demo).2.
Proof.
  edestruct (deleteComment_reply 9 "bob" "2" demo
               (deleteComment 9 "bob" "2" demo).2)
    as (Hthreads & _ & _ & Hparent).
  - by vm_compute.
  - done.
  - done.
  - by vm_compute.
  - split; [exact Hthreads|exact (Hparent reachable_demo)].
Defined.



(** The visited ids only grow, one a turn. *)
Lemma collect_turns fuel q acc vis st ids vis' :
  collect fuel q acc vis st = (Ret (ids, vis'), st) →
  ∃ n, length vis' = length vis + n ∧ n ≤ fuel ∧
       ∀ fuel',
         (n ≤ fuel' → collect fuel' q acc vis st = (Ret (ids, vis'), st)) ∧
         (fuel' < n → collect fuel' q acc vis st = (OutOfFuel, st)).
Proof.
  revert q acc vis.
  induction fuel as [|fuel IH]; intros [|cur q] acc vis;
    rewrite ?collect_nil, ?collect_0; try done.
  - intros [= <- <-]. exists 0. split_and!; [lia|lia|].
    intros fuel'. rewrite collect_nil. split; [done|lia].
  - intros [= <- <-]. exists 0. split_and!; [lia|lia|].
    intros fuel'. rewrite collect_nil. split; [done|lia].
  - rewrite collect_S. intros Hrun.
    destruct (IH _ _ _ Hrun) as (n & Hlen & Hle & Hfuel).
    rewrite length_app in Hlen. simpl in Hlen.
    exists (S n). split_and!; [lia|lia|].
    intros [|fuel']; rewrite ?collect_0, ?collect_S.
    + split; [lia|done].
    + destruct (Hfuel fuel') as [Hge Hlt]. split; intros ?.
      * apply Hge. lia.
      * apply Hlt. lia.
Qed.

(** X13: in a reachable state the worklist loop of [deleteComment] takes
    exactly as many turns as [target] has descendants, itself included:
    it returns with that much fuel and runs out with any less. *)
Theorem collect_turns_reachable st target :
  reachable st →
  ∃ visited,
    NoDup visited ∧
    (∀ x, x ∈ visited ↔ descendant (st_comments st) target x) ∧
    ∀ fuel,
      (length visited ≤ fuel →
       collect fuel [target] [target] [] st
         = (Ret (visited, visited), st)) ∧
      (fuel < length visited →
       collect fuel [target] [target] [] st = (OutOfFuel, st)).
Proof.
  intros Hinv%reachable_invariant.
  pose proof (invariant_unique_ids st Hinv) as Hnd.
  pose proof (created_no_cycle _ target (inv_created _ Hinv)) as Hcyc.
  destruct (collect_terminates st target (S (length (st_comments st))))
    as (ids & Hrun & Hndids & Hids); [done..|].
  exists ids. split_and!; [done..|].
  destruct (collect_turns _ _ _ _ _ _ _ Hrun) as (n & Hlen & _ & Hfuel).
  simpl in Hlen. by subst n.
Qed.

Lemma collect_turns_reachable_witness :
  ∃ visited,
    NoDup visited ∧
    (∀ x, x ∈ visited ↔ descendant (st_comments demo) "2" x) ∧
    ∀ fuel,
      (length visited ≤ fuel →
       collect fuel ["2"] ["2"] [] demo = (Ret (visited, visited), demo)) ∧
      (fuel < length visited →
       collect fuel ["2"] ["2"] [] demo = (OutOfFuel, demo)).
Proof. exact (collect_turns_reachable demo "2" reachable_demo). Defined.

(** ** Threads, once created *)

Lemma thread_keys_step call st :
  thread_key <$> st_threads st `prefix_of`
  thread_key <$> st_threads (step call st).
Proof.
  destruct call as [a b s body|a p body|r t ty|fuel r t]; simpl.
  - rewrite postComment_run.
    destruct (findOne_in _ _) as [threadDoc|]; simpl.
    + destruct (decide (_ ∈ _)); simpl; [done|].
      by rewrite fmap_updateOne_in.
    + destruct (decide (_ ∈ _)); simpl; [done|].
      destruct (decide (_ ∈ _)); simpl.
      * rewrite fmap_app. by apply prefix_app_r.
      * rewrite fmap_updateOne_in by done.
        rewrite fmap_app. by apply prefix_app_r.
  - rewrite reply_run. destruct (findOne_in _ _); [|done]. simpl.
    by destruct (decide (_ ∈ _)).
  - rewrite react_run. destruct (findOne_in _ (st_comments st)); [|done].
    destruct (findOne_in _ (st_reactions st)); [done|]. simpl.
    by destruct (decide (_ ∈ _)).
  - rewrite deleteComment_run.
    destruct (findOne_in _ _) as [targetComment|]; [|done].
    destruct (decide (_ ≠ _)); [done|].
    destruct ((collect fuel [t] [t] [] st).1)
      as [[ids vis]| | |]; try done.
    simpl. destruct (falsy _); [|done]. by rewrite fmap_updateOne_in.
Qed.

(** X14: once a (book, section) pair resolves to a thread it resolves,
    after any action, to a thread of the same id, book and section. *)
Theorem thread_of_pair_stable call book section st t :
  findOne_in (for_pair book section) (st_threads st) = Some t →
  ∃ t',
    findOne_in (for_pair book section) (st_threads (step call st))
      = Some t' ∧
    thread_key t' = thread_key t.
Proof.
  intros Hfind.
  destruct (thread_keys_step call st) as [extra Hkeys].
  apply fmap_app_inv in Hkeys as (ts1 & ts2 & Hts1 & _ & Hsplit).
  rewrite Hsplit, findOne_in_app.
  pose proof (findOne_thread_key book section (st_threads st) ts1
                (eq_sym Hts1)) as Hkey.
  rewrite Hfind in Hkey.
  destruct (findOne_in (for_pair book section) ts1) as [t'|]; [|done].
  exists t'. split; [done|]. simpl in Hkey. congruence.
Qed.

Lemma thread_of_pair_stable_witness :
  ∃ t',
    findOne_in (for_pair "B1" "S1")
      (st_threads (step (DeleteComment 9 "alice" "1") demo)) = Some t' ∧
    thread_key t' = thread_key (ThreadDoc.mk "0" "B1" "S1" ["1"]).
Proof.
  apply (thread_of_pair_stable (DeleteComment 9 "alice" "1") "B1" "S1" demo).
  by vm_compute.
Defined.

(** * The Profiles concept *)

Module ProfilesFacts.
Import Profiles.

(** ** Set updates *)

Lemma elem_of_addToSet x y l : y ∈ addToSet x l ↔ y ∈ l ∨ y = x.
Proof.
  unfold addToSet. destruct (decide (x ∈ l)) as [Hin|Hout].
  - split; [by left|]. by intros [?| ->].
  - by rewrite elem_of_app, list_elem_of_singleton.
Qed.

Lemma NoDup_addToSet x l : NoDup l → NoDup (addToSet x l).
Proof.
  intros Hnd. unfold addToSet. destruct (decide (x ∈ l)); [done|].
  apply NoDup_app. split_and!; [done| |apply NoDup_singleton].
  by intros y Hy ->%list_elem_of_singleton.
Qed.

Lemma elem_of_pull x y l : y ∈ pull x l ↔ y ∈ l ∧ y ≠ x.
Proof. unfold pull. rewrite list_elem_of_filter. tauto. Qed.

Lemma NoDup_pull x l : NoDup l → NoDup (pull x l).
Proof. apply NoDup_filter. Qed.

Lemma pull_addToSet x l : x ∉ l → pull x (addToSet x l) = l.
Proof.
  intros Hout. unfold addToSet, pull. rewrite decide_False by done.
  rewrite filter_app, (filter_cons (λ y, y ≠ x)), filter_nil.
  rewrite decide_False by (by intros ?).
  rewrite app_nil_r. by apply filter_ne_absent.
Qed.

Lemma prefix_addToSet x l : l `prefix_of` addToSet x l.
Proof.
  unfold addToSet. destruct (decide (x ∈ l)); [done|].
  by apply prefix_app_r.
Qed.

(** ** Updating the profile a lookup found *)

Section update_found.
Context (P : ProfileDocument.t → Prop) `{!∀ d, Decision (P d)}.
Context (f : ProfileDocument.t → ProfileDocument.t).
Implicit Types (l : list ProfileDocument.t) (d : ProfileDocument.t).

Lemma Forall_updateOne_in (Q : ProfileDocument.t → Prop) l d :
  findOne_in P l = Some d → Forall Q l → Q (f d) →
  Forall Q (updateOne_in P f l).
Proof.
  induction l as [|d0 l IH]; [done|]. rewrite findOne_in_cons. simpl.
  intros Hfind [Hd0 Hl]%Forall_cons Hf.
  destruct (decide (P d0)).
  - simplify_eq. by apply Forall_cons.
  - apply Forall_cons. split; [done|]. by apply IH.
Qed.

Lemma updateOne_in_undo (g : ProfileDocument.t → ProfileDocument.t) l d :
  findOne_in P l = Some d → P (f d) → g (f d) = d →
  updateOne_in P g (updateOne_in P f l) = l.
Proof.
  induction l as [|d0 l IH]; [done|]. rewrite findOne_in_cons. simpl.
  intros Hfind Hf Hg. destruct (decide (P d0)) as [HP|HP]; simpl.
  - simplify_eq. rewrite decide_True by done. by rewrite Hg.
  - rewrite decide_False by done. f_equal. by apply IH.
Qed.

Lemma updateOne_in_lookup l (i : nat) d :
  l !! i = Some d →
  updateOne_in P f l !! i = Some d ∨ updateOne_in P f l !! i = Some (f d).
Proof.
  revert i. induction l as [|d0 l IH]; intros i; [done|]. simpl.
  destruct (decide (P d0)).
  - destruct i as [|i]; simpl; [|by left]. intros [= ->]. by right.
  - destruct i as [|i]; simpl; [by left|]. apply IH.
Qed.
End update_found.

(** An update by owner is invisible to a lookup by another owner. *)
Lemma findOne_in_other_owner owner owner' f l :
  owner' ≠ owner →
  (∀ d, ProfileDocument._id (f d) = ProfileDocument._id d) →
  findOne_in (owned_by owner') (updateOne_in (owned_by owner) f l)
  = findOne_in (owned_by owner') l.
Proof.
  intros Hne Hid. induction l as [|d l IH]; [done|]. simpl.
  destruct (decide (owned_by owner d)) as [Hd|Hd].
  - rewrite !findOne_in_cons.
    rewrite !decide_False; [done|..]; unfold owned_by in *;
      rewrite ?Hid; congruence.
  - rewrite !findOne_in_cons. by rewrite IH.
Qed.

(** ** The calls, one by one *)

(** A call fails and changes nothing, or creates an empty profile for an
    owner who had none, or applies its update to the profile its owner
    resolves to, which passed its check. *)
Lemma run_cases c profiles :
  (∃ e, run c profiles = (Err e, profiles)) ∨
  (∃ owner,
     c = CreateProfile owner ∧
     findOne_in (owned_by owner) profiles = None ∧
     run c profiles
       = (Ok (), profiles ++ [ProfileDocument.mk owner [] [] []])) ∨
  (∃ profile,
     findOne_in (owned_by (call_owner c)) profiles = Some profile ∧
     permitted c profile ∧
     run c profiles
       = (Ok (), updateOne_in (owned_by (call_owner c)) (update c)
                   profiles)).
Proof.
  destruct c as [owner|owner genre|owner genre|owner book|owner book
                |owner book]; simpl.
  - unfold createProfile, insertOne_in.
    destruct (findOne_in _ _) as [p|] eqn:Hfind; [left; eauto|].
    rewrite decide_False; [right; left; eauto|].
    intros (d & Hid & Hd)%list_elem_of_fmap.
    rewrite findOne_in_None in Hfind. by apply (Hfind d Hd).
  - unfold addGenre.
    destruct (findOne_in _ _) as [p|] eqn:Hfind; [|left; eauto].
    destruct (decide (_ ∈ _)); [left; eauto|]. right; right; eauto.
  - unfold removeGenre.
    destruct (findOne_in _ _) as [p|] eqn:Hfind; [|left; eauto].
    destruct (decide (_ ∈ _)); [|left; eauto]. right; right; eauto.
  - unfold addCurrentBook.
    destruct (findOne_in _ _) as [p|] eqn:Hfind; [|left; eauto].
    destruct (decide (_ ∈ _)); [left; eauto|].
    destruct (decide (_ ∈ _)); [left; eauto|]. right; right; eauto.
  - unfold removeCurrentBook.
    destruct (findOne_in _ _) as [p|] eqn:Hfind; [|left; eauto].
    destruct (decide (_ ∈ _)); [|left; eauto]. right; right; eauto.
  - unfold addFinishedBook.
    destruct (findOne_in _ _) as [p|] eqn:Hfind; [|left; eauto].
    destruct (decide (_ ∈ _)); [|left; eauto].
    destruct (decide (_ ∈ _)); [left; eauto|]. right; right; eauto.
Qed.

Lemma update_id c p :
  ProfileDocument._id (update c p) = ProfileDocument._id p.
Proof. by destruct c. Qed.

Lemma update_finishedBooks c p :
  ProfileDocument.finishedBooks p
  `prefix_of` ProfileDocument.finishedBooks (update c p).
Proof. destruct c; simpl; try done. apply prefix_addToSet. Qed.

Lemma update_ok c p : profile_ok p → permitted c p → profile_ok (update c p).
Proof.
  intros [Hg Hf Hc Hd].
  destruct c as [owner|owner genre|owner genre|owner book|owner book
                |owner book]; simpl; intros Hperm; split; simpl;
    try done.
  - by apply NoDup_addToSet.
  - by apply NoDup_pull.
  - by apply NoDup_addToSet.
  - intros b [Hb| ->]%elem_of_addToSet; [by apply Hd|]. apply Hperm.
  - by apply NoDup_pull.
  - intros b [Hb _]%elem_of_pull. by apply Hd.
  - by apply NoDup_addToSet.
  - by apply NoDup_pull.
  - intros b [Hb Hne]%elem_of_pull [Hin| ->]%elem_of_addToSet; [|done].
    by apply (Hd b).
Qed.

Lemma profiles_ok_run c profiles :
  Forall profile_ok profiles ∧ NoDup (doc_id <$> profiles) →
  Forall profile_ok (run c profiles).2 ∧
  NoDup (doc_id <$> (run c profiles).2).
Proof.
  intros [Hok Hnd].
  destruct (run_cases c profiles)
    as [(e & ->)|[(owner & -> & Hnone & ->)|(p & Hfind & Hperm & ->)]];
    simpl; [done|..].
  - split.
    + apply Forall_app. split; [done|]. apply Forall_singleton.
      split; simpl; try constructor. by intros b ?%elem_of_nil.
    + rewrite fmap_app. apply NoDup_app. split_and!; [done| |].
      * intros x (d & -> & Hd)%list_elem_of_fmap Hx%list_elem_of_singleton.
        rewrite findOne_in_None in Hnone. by apply (Hnone d Hd).
      * apply NoDup_singleton.
  - split.
    + apply (Forall_updateOne_in _ _ _ _ p); [done..|].
      apply update_ok; [|done].
      apply findOne_in_Some in Hfind as [Hp _].
      by apply (proj1 (Forall_forall _ _) Hok).
    + rewrite fmap_updateOne_in; [done|]. apply update_id.
Qed.

(** X15: in every state reachable from the empty collection the three
    lists of every profile are duplicate-free, no book is both current
    and finished, and no two profiles have the same owner. *)
Theorem reachable_profiles_ok profiles :
  attainable profiles →
  Forall profile_ok profiles ∧ NoDup (doc_id <$> profiles).
Proof.
  induction 1 as [|profiles c _ IH].
  - split; constructor.
  - by apply profiles_ok_run.
Qed.

Lemma reachable_ann : attainable ann.
Proof.
  exact (attainable_run _ (AddCurrentBook "ann" "emma")
    (attainable_run _ (AddFinishedBook "ann" "dune")
    (attainable_run _ (AddCurrentBook "ann" "dune")
    (attainable_run _ (AddGenre "ann" "crime")
    (attainable_run _ (AddGenre "ann" "scifi")
    (attainable_run _ (CreateProfile "ann") attainable_nil)))))).
Qed.

Lemma reachable_profiles_ok_witness :
  Forall profile_ok ann ∧ NoDup (doc_id <$> ann).
Proof. exact (reachable_profiles_ok ann reachable_ann). Defined.

(** X16: a call that answers with an error record leaves the collection
    as it was, and no call ends in a duplicate-key rejection:
    [createProfile] inserts only after finding no profile of that id. *)
Theorem failure_changes_nothing c profiles :
  (∀ e, (run c profiles).1 = Err e → (run c profiles).2 = profiles) ∧
  (∀ id, (run c profiles).1 ≠ Rejected id).
Proof.
  destruct (run_cases c profiles)
    as [(e & ->)|[(owner & -> & Hnone & ->)|(p & Hfind & Hperm & ->)]];
    by split.
Qed.

Lemma failure_changes_nothing_witness :
  (run (AddCurrentBook "ann" "dune") ann).2 = ann.
Proof.
  apply (failure_changes_nothing (AddCurrentBook "ann" "dune") ann)
    with (e := BookAlreadyFinished "dune" "ann").
  by vm_compute.
Defined.

(** X17: removing what was just added restores the collection: a
    successful [addGenre] followed by [removeGenre] of the same genre, and
    a successful [addCurrentBook] followed by [removeCurrentBook] of the
    same book, succeed and give back the collection as it was. *)
Theorem add_then_remove owner x profiles profiles' :
  (addGenre owner x profiles = (Ok (), profiles') →
   removeGenre owner x profiles' = (Ok (), profiles)) ∧
  (addCurrentBook owner x profiles = (Ok (), profiles') →
   removeCurrentBook owner x profiles' = (Ok (), profiles)).
Proof.
  split.
  - unfold addGenre, removeGenre.
    destruct (findOne_in _ profiles) as [p|] eqn:Hfind; [|done].
    destruct (decide (_ ∈ _)) as [|Hout]; [done|]. intros [= <-].
    rewrite (updateOne_in_findOne _ _ _ p Hfind)
      by (by apply findOne_in_Some in Hfind as [_ ?]).
    simpl. rewrite decide_True by (apply elem_of_addToSet; by right).
    f_equal. apply (updateOne_in_undo _ _ _ _ p); [done|..].
    + by apply findOne_in_Some in Hfind as [_ ?].
    + unfold on_genres. simpl. rewrite pull_addToSet by done.
      by destruct p.
  - unfold addCurrentBook, removeCurrentBook.
    destruct (findOne_in _ profiles) as [p|] eqn:Hfind; [|done].
    destruct (decide (_ ∈ _)) as [|Hout]; [done|].
    destruct (decide (_ ∈ _)); [done|]. intros [= <-].
    rewrite (updateOne_in_findOne _ _ _ p Hfind)
      by (by apply findOne_in_Some in Hfind as [_ ?]).
    simpl. rewrite decide_True by (apply elem_of_addToSet; by right).
    f_equal. apply (updateOne_in_undo _ _ _ _ p); [done|..].
    + by apply findOne_in_Some in Hfind as [_ ?].
    + unfold on_currentBooks. simpl. rewrite pull_addToSet by done.
      by destruct p.
Qed.

Lemma add_then_remove_witness :
  removeGenre "ann" "poetry" (addGenre "ann" "poetry" ann).2 = (Ok (), ann) ∧
  removeCurrentBook "ann" "ulysses" (addCurrentBook "ann" "ulysses" ann).2
    = (Ok (), ann).
Proof.
  split.
  - apply (add_then_remove "ann" "poetry" ann). by vm_compute.
  - apply (add_then_remove "ann" "ulysses" ann). by vm_compute.
Defined.

(** X18: a successful [addFinishedBook] moves the book: the owner's
    profile had it among the current books and not among the finished
    ones, and has it afterwards as the last finished book and no longer as
    a current one, genres untouched; from then on [addCurrentBook] and
    [addFinishedBook] of that book fail. *)
Theorem addFinishedBook_moves owner book profiles profiles' :
  addFinishedBook owner book profiles = (Ok (), profiles') →
  ∃ p,
    _getProfile owner profiles = Some p ∧
    book ∈ ProfileDocument.currentBooks p ∧
    (book ∉ ProfileDocument.finishedBooks p) ∧
    _getProfile owner profiles'
      = Some (ProfileDocument.mk (ProfileDocument._id p)
                (ProfileDocument.genres p)
                (ProfileDocument.finishedBooks p ++ [book])
                (pull book (ProfileDocument.currentBooks p))) ∧
    addCurrentBook owner book profiles'
      = (Err (BookAlreadyFinished book owner), profiles') ∧
    addFinishedBook owner book profiles'
      = (Err (BookNotCurrentToFinish book owner), profiles').
Proof.
  unfold addFinishedBook at 1, _getProfile.
  destruct (findOne_in _ profiles) as [p|] eqn:Hfind; [|done].
  destruct (decide (_ ∈ _)) as [Hcur|]; [|done].
  destruct (decide (_ ∈ _)) as [|Hfin]; [done|]. intros [= <-].
  exists p. split_and!; [done..| | |].
  - rewrite (updateOne_in_findOne _ _ _ p Hfind)
      by (by apply findOne_in_Some in Hfind as [_ ?]).
    unfold on_currentBooks, on_finishedBooks, addToSet. simpl.
    by rewrite decide_False.
  - unfold addCurrentBook.
    rewrite (updateOne_in_findOne _ _ _ p Hfind)
      by (by apply findOne_in_Some in Hfind as [_ ?]).
    simpl. rewrite decide_False by (by intros [_ ?]%elem_of_pull).
    by rewrite decide_True by (apply elem_of_addToSet; by right).
  - unfold addFinishedBook.
    rewrite (updateOne_in_findOne _ _ _ p Hfind)
      by (by apply findOne_in_Some in Hfind as [_ ?]).
    simpl. by rewrite decide_False by (by intros [_ ?]%elem_of_pull).
Qed.

Lemma addFinishedBook_moves_witness :
  ∃ p,
    _getProfile "ann" ann = Some p ∧
    "emma" ∈ ProfileDocument.currentBooks p ∧
    ("emma" ∉ ProfileDocument.finishedBooks p) ∧
    _getProfile "ann" (addFinishedBook "ann" "emma" ann).2
      = Some (ProfileDocument.mk (ProfileDocument._id p)
                (ProfileDocument.genres p)
                (ProfileDocument.finishedBooks p ++ ["emma"])
                (pull "emma" (ProfileDocument.currentBooks p))) ∧
    addCurrentBook "ann" "emma" (addFinishedBook "ann" "emma" ann).2
      = (Err (BookAlreadyFinished "emma" "ann"),
         (addFinishedBook "ann" "emma" ann).2) ∧
    addFinishedBook "ann" "emma" (addFinishedBook "ann" "emma" ann).2
      = (Err (BookNotCurrentToFinish "emma" "ann"),
         (addFinishedBook "ann" "emma" ann).2).
Proof.
  apply (addFinishedBook_moves "ann" "emma" ann). by vm_compute.
Defined.

(** X19: no call deletes a profile or takes a book off a finished list:
    after any call every profile is where it was, under the same owner,
    and its finished books before are a prefix of its finished books
    after. *)
Theorem profiles_only_grow c profiles (i : nat) p :
  profiles !! i = Some p →
  ∃ p',
    (run c profiles).2 !! i = Some p' ∧
    ProfileDocument._id p' = ProfileDocument._id p ∧
    ProfileDocument.finishedBooks p
      `prefix_of` ProfileDocument.finishedBooks p'.
Proof.
  intros Hi.
  destruct (run_cases c profiles)
    as [(e & ->)|[(owner & -> & Hnone & ->)|(p0 & Hfind & Hperm & ->)]];
    simpl.
  - by exists p.
  - exists p. split; [|done]. by apply lookup_app_l_Some.
  - destruct (updateOne_in_lookup (owned_by (call_owner c)) (update c)
                profiles i p Hi) as [Hsame|Hupd].
    + by exists p.
    + exists (update c p). split; [done|].
      split; [apply update_id|apply update_finishedBooks].
Qed.

Lemma profiles_only_grow_witness :
  ∃ p',
    (run (RemoveCurrentBook "ann" "emma") ann).2 !! 0 = Some p' ∧
    ProfileDocument._id p' = "ann" ∧
    ["dune"] `prefix_of` ProfileDocument.finishedBooks p'.
Proof.
  exact (profiles_only_grow (RemoveCurrentBook "ann" "emma") ann 0
           (ProfileDocument.mk "ann" ["scifi"; "crime"] ["dune"] ["emma"])
           eq_refl).
Defined.

(** X20: a call for one owner never changes what [_getProfile] answers
    for another owner. *)
Theorem other_owners_untouched c profiles owner :
  owner ≠ call_owner c →
  _getProfile owner (run c profiles).2 = _getProfile owner profiles.
Proof.
  intros Hne. unfold _getProfile.
  destruct (run_cases c profiles)
    as [(e & ->)|[(o & -> & Hnone & ->)|(p & Hfind & Hperm & ->)]];
    simpl; [done|..].
  - rewrite findOne_in_app.
    destruct (findOne_in (owned_by owner) profiles); [done|].
    rewrite findOne_in_cons, decide_False; [done|].
    unfold owned_by. simpl in *. congruence.
  - apply findOne_in_other_owner; [done|]. intros d. apply update_id.
Qed.

Lemma other_owners_untouched_witness :
  _getProfile "ann" (run (CreateProfile "ben") ann).2 = _getProfile "ann" ann.
Proof.
  apply (other_owners_untouched (CreateProfile "ben") ann "ann").
  compute_done.
Defined.

End ProfilesFacts.
(** * The Messaging concept *)

Module MessagingFacts.
Import Messaging.

(** ** [new Set] *)

Lemma unique_snoc l x :
  unique (l ++ [x]) =
  if decide (x ∈ unique l) then unique l else unique l ++ [x].
Proof. unfold unique. by rewrite foldl_app. Qed.

Lemma elem_of_unique l x : x ∈ unique l ↔ x ∈ l.
Proof.
  induction l as [|y l IH] using rev_ind.
  - done.
  - rewrite unique_snoc, elem_of_app, list_elem_of_singleton, <- IH.
    case_decide; [|by rewrite elem_of_app, list_elem_of_singleton].
    split; [tauto|]. by intros [?| ->].
Qed.

Lemma NoDup_unique l : NoDup (unique l).
Proof.
  induction l as [|y l IH] using rev_ind; [constructor|].
  rewrite unique_snoc. case_decide; [done|].
  apply NoDup_app. split_and!; [done| |apply NoDup_singleton].
  by intros x Hx ->%list_elem_of_singleton.
Qed.

(** A list without repetition that is already a set is left alone. *)
Lemma unique_NoDup l : NoDup l → unique l = l.
Proof.
  induction l as [|y l IH] using rev_ind; [done|].
  intros (Hl & Hy & _)%NoDup_app. rewrite unique_snoc, IH by done.
  rewrite decide_False; [done|].
  intros Hin. by apply (Hy y); [|apply list_elem_of_singleton].
Qed.

(** Two unique participants are two different ones. *)
Lemma unique_two l :
  2 ≤ length (unique l) ↔ ∃ u v, u ∈ l ∧ v ∈ l ∧ u ≠ v.
Proof.
  pose proof (NoDup_unique l) as Hnd. split.
  - destruct (unique l) as [|u [|v us]] eqn:E; simpl; [lia..|].
    intros _. exists u, v.
    split_and!; [apply elem_of_unique; rewrite E; left
                |apply elem_of_unique; rewrite E; right; left|].
    apply NoDup_cons in Hnd as [Hu _]. intros ->. apply Hu. left.
  - intros (u & v & Hu & Hv & Hne).
    apply elem_of_unique in Hu, Hv.
    assert ([u; v] ⊆+ unique l) as Hsub.
    { apply NoDup_submseteq.
      - apply NoDup_cons. split; [|apply NoDup_singleton].
        by intros ->%list_elem_of_singleton.
      - intros x [->|[->|?%elem_of_nil]%elem_of_cons]%elem_of_cons; done. }
    by apply submseteq_length in Hsub.
Qed.

(** ** The scan for a blocked pair *)

Lemma blocked_with_None bs u1 rest :
  blocked_with bs u1 rest = None ↔
  ∀ u2 b, u2 ∈ rest → b ∈ bs → ¬ between u1 u2 b.
Proof.
  induction rest as [|u rest IH]; simpl.
  - split; [|done]. by intros _ u2 b ?%elem_of_nil.
  - destruct (findOne_in (between u1 u) bs) as [b|] eqn:E.
    + split; [done|]. intros Hno.
      apply findOne_in_Some in E as [Hb Hbet].
      exfalso. by apply (Hno u b); [left|..].
    + rewrite IH. rewrite findOne_in_None in E. split.
      * intros Hno u2 b [->|Hu2]%elem_of_cons Hb; [by apply E|by apply Hno].
      * intros Hno u2 b Hu2 Hb. apply Hno; [by right|done].
Qed.

Lemma blocked_with_Some bs u1 rest u2 :
  blocked_with bs u1 rest = Some u2 →
  u2 ∈ rest ∧ ∃ b, b ∈ bs ∧ between u1 u2 b.
Proof.
  induction rest as [|u rest IH]; simpl; [done|].
  destruct (findOne_in (between u1 u) bs) as [b|] eqn:E.
  - intros [= ->]. apply findOne_in_Some in E. split; [left|eauto].
  - intros [Hu2 Hb]%IH. split; [by right|done].
Qed.

Lemma between_sym u1 u2 b : between u1 u2 b ↔ between u2 u1 b.
Proof. unfold between. tauto. Qed.

(** The scan finds nothing exactly when no block is between two different
    members of the list. *)
Lemma blocked_pair_None bs us :
  NoDup us →
  blocked_pair bs us = None ↔
  ∀ b, b ∈ bs → BlockDoc.blocker b ∈ us → BlockDoc.blocked b ∈ us →
       BlockDoc.blocker b = BlockDoc.blocked b.
Proof.
  induction us as [|u1 rest IH]; simpl.
  - intros _. split; [|done]. by intros _ b _ ?%elem_of_nil.
  - intros [Hu1 Hnd]%NoDup_cons.
    destruct (blocked_with bs u1 rest) as [u2|] eqn:E.
    + split; [done|]. intros Hno.
      apply blocked_with_Some in E as (Hu2 & b & Hb & Hbet).
      assert (u1 ≠ u2) as Hne by (by intros ->).
      exfalso. destruct Hbet as [[H1 H2]|[H1 H2]].
      * apply Hne. rewrite <- H1, <- H2.
        apply Hno; [done|rewrite H1; left|rewrite H2; by right].
      * apply Hne. rewrite <- H1, <- H2. symmetry.
        apply Hno; [done|rewrite H1; by right|rewrite H2; left].
    + rewrite blocked_with_None in E. rewrite (IH Hnd). split.
      * intros Hno b Hb [H1|H1]%elem_of_cons [H2|H2]%elem_of_cons.
        -- congruence.
        -- exfalso. apply (E _ b H2 Hb). left. done.
        -- exfalso. apply (E _ b H1 Hb). right. done.
        -- by apply Hno.
      * intros Hno b Hb H1 H2. apply Hno; [done|by right..].
Qed.

Lemma blocked_pair_Some bs us u1 u2 :
  blocked_pair bs us = Some (u1, u2) →
  u1 ∈ us ∧ u2 ∈ us ∧ ∃ b, b ∈ bs ∧ between u1 u2 b.
Proof.
  induction us as [|u rest IH]; simpl; [done|].
  destruct (blocked_with bs u rest) as [u'|] eqn:E.
  - intros [= -> ->]. apply blocked_with_Some in E as [Hu2 Hb].
    split_and!; [left|by right|done].
  - intros (H1 & H2 & Hb)%IH. split_and!; [by right..|done].
Qed.

(** ** Updates of the chats *)

Lemma elem_of_updateOne_in_chat (P : ChatDoc.t → Prop)
    `{!∀ d, Decision (P d)} f cs c' :
  c' ∈ updateOne_in P f cs → c' ∈ cs ∨ ∃ c, c ∈ cs ∧ P c ∧ c' = f c.
Proof.
  induction cs as [|c cs IH]; simpl; [by intros ?%elem_of_nil|].
  destruct (decide (P c)).
  - intros [->|Hc']%elem_of_cons.
    + right. exists c. split; [left|done].
    + left. by right.
  - intros [->|Hc']%elem_of_cons; [left; left|].
    destruct (IH Hc') as [?|(c0 & ? & ? & ?)]; [left; by right|].
    right. exists c0. split; [by right|done].
Qed.


Lemma listed_push chat m cs c :
  findOne_in (is_chat chat) cs = Some c →
  concat (ChatDoc.messages <$> updateOne_in (is_chat chat) (push_message m) cs)
  ≡ₚ concat (ChatDoc.messages <$> cs) ++ [m].
Proof.
  induction cs as [|c0 cs IH]; [done|]. rewrite findOne_in_cons. simpl.
  destruct (decide (is_chat chat c0)); intros Hfind.
  - simpl. by rewrite <- !(assoc_L (++)), (comm (++) [m]).
  - simpl. rewrite IH by done. by rewrite (assoc_L (++)).
Qed.

(** The loop of [blockUser] touches the participants only. *)
Lemma remove_from_ids r sel cs :
  doc_id <$> remove_from r sel cs = doc_id <$> cs.
Proof.
  revert cs. induction sel as [|d sel IH]; intros cs; [done|].
  unfold remove_from in *. simpl. rewrite IH.
  by apply fmap_updateOne_in.
Qed.

Lemma remove_from_messages r sel cs :
  ChatDoc.messages <$> remove_from r sel cs = ChatDoc.messages <$> cs.
Proof.
  revert cs. induction sel as [|d sel IH]; intros cs; [done|].
  unfold remove_from in *. simpl. rewrite IH.
  by apply fmap_updateOne_in.
Qed.

Lemma remove_from_skip r sel c cs :
  (∀ d, d ∈ sel → ChatDoc._id d ≠ ChatDoc._id c) →
  remove_from r sel (c :: cs) = c :: remove_from r sel cs.
Proof.
  revert cs. induction sel as [|d sel IH]; intros cs Hne; [done|].
  unfold remove_from in *. simpl. rewrite decide_False.
  - apply IH. intros d' Hd'. apply Hne. by right.
  - unfold is_chat. intros Heq. by apply (Hne d); [left|].
Qed.

(** With the unique index on [_id], the loop takes the requester out of
    each chat found, and out of no other. *)
Lemma remove_from_filter r t cs :
  NoDup (doc_id <$> cs) →
  remove_from r (filter (holds_both r t) cs) cs =
  (λ c, if decide (holds_both r t c) then pull_participant r c else c)
    <$> cs.
Proof.
  induction cs as [|c cs IH]; [done|].
  rewrite fmap_cons. intros [Hc Hnd]%NoDup_cons.
  assert (∀ d, d ∈ filter (holds_both r t) cs →
               ChatDoc._id d ≠ ChatDoc._id c) as Hne.
  { intros d [_ Hd]%list_elem_of_filter Heq. apply Hc.
    change (doc_id c) with (ChatDoc._id c). rewrite <- Heq.
    by apply (list_elem_of_fmap_2 doc_id). }
  rewrite filter_cons, fmap_cons.
  destruct (decide (holds_both r t c)) as [Hboth|Hboth].
  - unfold remove_from at 1. simpl.
    rewrite decide_True by done.
    change (foldl _ ?a ?l) with (remove_from r l a).
    rewrite remove_from_skip by done. by rewrite IH.
  - rewrite remove_from_skip by done. by rewrite IH.
Qed.


(** ** The calls, one by one *)

Lemma startChat_cases creator ps st :
  ((∃ e, startChat creator ps st = (Refused e, st)) ∧
   ¬ (2 ≤ length (unique ps) ∧ creator ∈ ps ∧
      blocked_pair (blocks st) (unique ps) = None)) ∨
  (2 ≤ length (unique ps) ∧ creator ∈ ps ∧
   blocked_pair (blocks st) (unique ps) = None ∧
   ((fresh st ∈ doc_id <$> chats st ∧
     startChat creator ps st =
       (KeyClash (fresh st),
        mkStore (chats st) (messages st) (blocks st) (S (issued st)))) ∨
    ((fresh st ∉ doc_id <$> chats st) ∧
     startChat creator ps st =
       (Done (fresh st),
        mkStore (chats st ++ [ChatDoc.mk (fresh st) (unique ps) []])
          (messages st) (blocks st) (S (issued st)))))).
Proof.
  unfold startChat.
  destruct (decide (length (unique ps) < 2));
    [left; split; [eauto|lia]|].
  destruct (decide (creator ∉ unique ps)) as [Hout|Hin].
  { left. split; [eauto|]. rewrite elem_of_unique in Hout. tauto. }
  destruct (blocked_pair (blocks st) (unique ps)) as [[u1 u2]|] eqn:E.
  { left. split; [eauto|]. by intros (_ & _ & ?). }
  right. split_and!; [lia|by apply elem_of_unique, dec_stable|done|].
  destruct (insertOne_in _ _) as [cs|] eqn:Hins;
    unfold insertOne_in in Hins; case_decide; simplify_eq; [right|left];
    done.
Qed.

Lemma sendMessage_cases chat author body now st :
  (∃ e, sendMessage chat author body now st = (Refused e, st)) ∨
  (∃ c, findOne_in (is_chat chat) (chats st) = Some c ∧
        author ∈ ChatDoc.participants c ∧
   ((fresh st ∈ doc_id <$> messages st ∧
     sendMessage chat author body now st =
       (KeyClash (fresh st),
        mkStore (chats st) (messages st) (blocks st) (S (issued st)))) ∨
    ((fresh st ∉ doc_id <$> messages st) ∧
     sendMessage chat author body now st =
       (Done (fresh st),
        mkStore
          (updateOne_in (is_chat chat) (push_message (fresh st)) (chats st))
          (messages st ++ [MessageDoc.mk (fresh st) author body now])
          (blocks st) (S (issued st)))))).
Proof.
  unfold sendMessage.
  destruct (findOne_in (is_chat chat) (chats st)) as [c|] eqn:E;
    [|left; eauto].
  destruct (decide (author ∉ ChatDoc.participants c)) as [|Hin];
    [left; eauto|].
  right. exists c. split_and!; [done|by apply dec_stable|].
  destruct (insertOne_in _ _) as [cs|] eqn:Hins;
    unfold insertOne_in in Hins; case_decide; simplify_eq; [right|left];
    done.
Qed.

Lemma leaveChat_cases chat leaver st :
  (∃ e, leaveChat chat leaver st = (Refused e, st)) ∨
  (∃ c, findOne_in (is_chat chat) (chats st) = Some c ∧
        leaver ∈ ChatDoc.participants c ∧
        leaveChat chat leaver st =
          (Done (),
           mkStore
             (updateOne_in (is_chat chat) (pull_participant leaver)
                (chats st))
             (messages st) (blocks st) (issued st))).
Proof.
  unfold leaveChat.
  destruct (findOne_in (is_chat chat) (chats st)) as [c|] eqn:E;
    [|left; eauto].
  destruct (decide (leaver ∉ ChatDoc.participants c)) as [|Hin];
    [left; eauto|].
  right. exists c. split_and!; [done|by apply dec_stable|done].
Qed.

Lemma blockUser_cases r t st :
  (∃ e, blockUser r t st = (Refused e, st)) ∨
  (r ≠ t ∧
   (∀ b, b ∈ blocks st →
         ¬ (BlockDoc.blocker b = r ∧ BlockDoc.blocked b = t)) ∧
   ((fresh st ∈ doc_id <$> blocks st ∧
     blockUser r t st =
       (KeyClash (fresh st),
        mkStore (chats st) (messages st) (blocks st) (S (issued st)))) ∨
    ((fresh st ∉ doc_id <$> blocks st) ∧
     blockUser r t st =
       (Done (),
        mkStore
          (remove_from r (filter (holds_both r t) (chats st)) (chats st))
          (messages st) (blocks st ++ [BlockDoc.mk (fresh st) r t])
          (S (issued st)))))).
Proof.
  unfold blockUser.
  destruct (decide (r = t)); [left; eauto|].
  destruct (findOne_in _ (blocks st)) as [b|] eqn:E; [left; eauto|].
  right. rewrite findOne_in_None in E. split_and!; [done..|].
  destruct (insertOne_in _ _) as [cs|] eqn:Hins;
    unfold insertOne_in in Hins; case_decide; simplify_eq; [right|left];
    done.
Qed.

(** ** What every store within reach satisfies *)

Lemma sound_empty : sound empty.
Proof.
  split; simpl; [| | |constructor|constructor|done|].
  - by intros b c ?%elem_of_nil.
  - by intros b ?%elem_of_nil.
  - by intros c ?%elem_of_nil.
  - split_and!; by intros k _ ?%elem_of_nil.
Qed.

(** Handing out an identifier that is then not stored. *)
Lemma sound_skip st :
  sound st →
  sound (mkStore (chats st) (messages st) (blocks st) (S (issued st))).
Proof.
  intros [? ? ? ? ? ? (? & ? & ?)]. split; simpl; try done.
  split_and!; eapply unissued_le; eauto.
Qed.

Lemma sound_startChat creator ps st :
  sound st → sound (startChat creator ps st).2.
Proof.
  intros Hs.
  destruct (startChat_cases creator ps st)
    as [[[e ->] _]|(Hlen & Hin & Hno & [[_ ->]|[Hfresh ->]])];
    [done|by apply sound_skip|].
  destruct Hs as [Hres Hself Hps Hids Hmids Hlisted (Hfc & Hfm & Hfb)].
  split; simpl.
  - intros b c Hb [Hc| ->%list_elem_of_singleton]%elem_of_app;
      [by apply Hres|]. simpl. intros [H1 H2].
    apply (Hself b Hb).
    by apply (blocked_pair_None (blocks st) (unique ps));
      [apply NoDup_unique|..].
  - done.
  - intros c [Hc| ->%list_elem_of_singleton]%elem_of_app;
      [by apply Hps|apply NoDup_unique].
  - rewrite fmap_app. apply NoDup_app. split_and!; [done| |].
    + intros x Hx ->%list_elem_of_singleton. done.
    + apply NoDup_singleton.
  - done.
  - rewrite fmap_app, concat_app. simpl. by rewrite (right_id_L [] (++)).
  - split_and!; [|by eapply unissued_le; eauto..].
    rewrite fmap_app. by apply unissued_snoc.
Qed.

Lemma sound_sendMessage chat author body now st :
  sound st → sound (sendMessage chat author body now st).2.
Proof.
  intros Hs.
  destruct (sendMessage_cases chat author body now st)
    as [[e ->]|(c & Hc & Hin & [[_ ->]|[Hfresh ->]])];
    [done|by apply sound_skip|].
  destruct Hs as [Hres Hself Hps Hids Hmids Hlisted (Hfc & Hfm & Hfb)].
  assert (doc_id <$> updateOne_in (is_chat chat)
            (push_message (fresh st)) (chats st) = doc_id <$> chats st)
    as Eids by (by apply fmap_updateOne_in).
  split; simpl.
  - intros b c' Hb
      [Hc'|(c0 & Hc0 & _ & ->)]%elem_of_updateOne_in_chat;
      [by apply Hres|]. simpl. by apply Hres.
  - done.
  - intros c' [Hc'|(c0 & Hc0 & _ & ->)]%elem_of_updateOne_in_chat;
      [by apply Hps|]. simpl. by apply Hps.
  - by rewrite Eids.
  - rewrite fmap_app. apply NoDup_app. split_and!; [done| |].
    + intros x Hx ->%list_elem_of_singleton. done.
    + apply NoDup_singleton.
  - rewrite (listed_push chat (fresh st) (chats st) c Hc), fmap_app.
    by rewrite Hlisted.
  - rewrite Eids. split_and!; [by eapply unissued_le; eauto| |
      by eapply unissued_le; eauto].
    rewrite fmap_app. by apply unissued_snoc.
Qed.

Lemma sound_leaveChat chat leaver st :
  sound st → sound (leaveChat chat leaver st).2.
Proof.
  intros Hs.
  destruct (leaveChat_cases chat leaver st)
    as [[e ->]|(c & Hc & Hin & ->)]; [done|].
  destruct Hs as [Hres Hself Hps Hids Hmids Hlisted (Hfc & Hfm & Hfb)].
  assert (doc_id <$> updateOne_in (is_chat chat)
            (pull_participant leaver) (chats st) = doc_id <$> chats st)
    as Eids by (by apply fmap_updateOne_in).
  split; simpl.
  - intros b c' Hb
      [Hc'|(c0 & Hc0 & _ & ->)]%elem_of_updateOne_in_chat;
      [by apply Hres|]. simpl.
    intros [[_ H1]%list_elem_of_filter [_ H2]%list_elem_of_filter].
    by apply (Hres b c0).
  - done.
  - intros c' [Hc'|(c0 & Hc0 & _ & ->)]%elem_of_updateOne_in_chat;
      [by apply Hps|]. simpl. by apply NoDup_filter, Hps.
  - by rewrite Eids.
  - done.
  - by rewrite (fmap_updateOne_in ChatDoc.messages).
  - by rewrite Eids.
Qed.

Lemma sound_blockUser r t st :
  sound st → sound (blockUser r t st).2.
Proof.
  intros Hs.
  destruct (blockUser_cases r t st)
    as [[e ->]|(Hne & Hno & [[_ ->]|[Hfresh ->]])];
    [done|by apply sound_skip|].
  destruct Hs as [Hres Hself Hps Hids Hmids Hlisted (Hfc & Hfm & Hfb)].
  split; simpl.
  - rewrite remove_from_filter by done.
    intros b c' Hb (c & -> & Hc)%list_elem_of_fmap.
    assert (∀ u, u ∈ ChatDoc.participants
                   (if decide (holds_both r t c)
                    then pull_participant r c else c) →
                 u ∈ ChatDoc.participants c) as Hsub.
    { intros u. case_decide; [|done]. simpl.
      by intros [_ ?]%list_elem_of_filter. }
    apply elem_of_app in Hb as [Hb| ->%list_elem_of_singleton].
    + intros [H1%Hsub H2%Hsub]. by apply (Hres b c).
    + simpl. case_decide as Hboth; [|done]. simpl.
      by intros [[? _]%list_elem_of_filter _].
  - intros b [Hb| ->%list_elem_of_singleton]%elem_of_app;
      [by apply Hself|done].
  - rewrite remove_from_filter by done.
    intros c' (c & -> & Hc)%list_elem_of_fmap.
    case_decide; [|by apply Hps]. simpl. by apply NoDup_filter, Hps.
  - by rewrite remove_from_ids.
  - done.
  - by rewrite remove_from_messages.
  - rewrite remove_from_ids.
    split_and!; [by eapply unissued_le; eauto..|].
    rewrite fmap_app. by apply unissued_snoc.
Qed.

Lemma sound_next c st : sound st → sound (next c st).
Proof.
  destruct c; simpl;
    [apply sound_startChat|apply sound_sendMessage
    |apply sound_leaveChat|apply sound_blockUser].
Qed.

Lemma within_reach_is_sound st : within_reach st → sound st.
Proof.
  induction 1 as [|st c _ IH]; [apply sound_empty|by apply sound_next].
Qed.

Lemma within_reach_club : within_reach club.
Proof.
  change club with
    (next (BlockUser "carol" "dave")
       (next (SendMessage "0" "bob" "hello" 1000)
          (next (StartChat "alice" ["alice"; "bob"])
             (next (StartChat "alice" ["alice"; "bob"; "carol"; "bob"])
                empty)))).
  repeat apply within_reach_next. apply within_reach_empty.
Qed.

(** ** The chats of a user *)

Lemma getChats_fmap u (g : ChatDoc.t → ChatDoc.t) (cs : list ChatDoc.t)
    (Q : ChatDoc.t → Prop) `{!∀ c, Decision (Q c)} :
  (∀ c, ChatDoc._id (g c) = ChatDoc._id c) →
  (∀ c, c ∈ cs → u ∈ ChatDoc.participants (g c) ↔ Q c) →
  ChatDoc._id <$> filter (λ c, u ∈ ChatDoc.participants c) (g <$> cs)
  = ChatDoc._id <$> filter Q cs.
Proof.
  intros Hid. induction cs as [|c cs IH]; intros HQ; [done|].
  assert (u ∈ ChatDoc.participants (g c) ↔ Q c) as Hc by (apply HQ; left).
  assert (∀ c', c' ∈ cs → u ∈ ChatDoc.participants (g c') ↔ Q c') as Hcs
    by (intros c' Hc'; apply HQ; by right).
  rewrite fmap_cons, !filter_cons.
  destruct (decide (u ∈ ChatDoc.participants (g c))),
    (decide (Q c)); rewrite ?fmap_cons, ?Hid, ?(IH Hcs); tauto || done.
Qed.

Lemma getChats_updateOne_in u (P : ChatDoc.t → Prop)
    `{!∀ c, Decision (P c)} f (cs : list ChatDoc.t) :
  (∀ c, ChatDoc._id (f c) = ChatDoc._id c) →
  (∀ c, u ∈ ChatDoc.participants (f c) ↔ u ∈ ChatDoc.participants c) →
  ChatDoc._id <$>
    filter (λ c, u ∈ ChatDoc.participants c) (updateOne_in P f cs)
  = ChatDoc._id <$> filter (λ c, u ∈ ChatDoc.participants c) cs.
Proof.
  intros Hid Hps. induction cs as [|c cs IH]; [done|]. simpl.
  destruct (decide (P c)).
  - rewrite !filter_cons. pose proof (Hps c).
    destruct (decide (u ∈ ChatDoc.participants (f c))),
      (decide (u ∈ ChatDoc.participants c));
      rewrite ?fmap_cons, ?Hid; tauto || done.
  - rewrite !filter_cons.
    destruct (decide (u ∈ ChatDoc.participants c));
      rewrite ?fmap_cons, ?IH; done.
Qed.

(** What [startChat] asks of its arguments, in terms of the list the
    caller passed. *)
Lemma startChat_requires creator ps (bs : list BlockDoc.t) :
  2 ≤ length (unique ps) ∧ creator ∈ ps ∧
    blocked_pair bs (unique ps) = None
  ↔
  creator ∈ ps ∧ (∃ u, u ∈ ps ∧ u ≠ creator) ∧
    (∀ b, b ∈ bs → BlockDoc.blocker b ∈ ps → BlockDoc.blocked b ∈ ps →
          BlockDoc.blocker b = BlockDoc.blocked b).
Proof.
  rewrite (blocked_pair_None bs (unique ps) (NoDup_unique ps)).
  rewrite unique_two. split.
  - intros ((u & v & Hu & Hv & Hne) & Hin & Hno). split_and!; [done| |].
    + destruct (decide (u = creator)) as [->|]; [exists v|exists u];
        (split; [done|congruence]).
    + intros b Hb H1 H2. apply Hno; [done|by apply elem_of_unique..].
  - intros (Hin & (u & Hu & Hne) & Hno). split_and!; [|done|].
    + by exists u, creator.
    + intros b Hb H1 H2. rewrite elem_of_unique in H1, H2. by apply Hno.
Qed.

(** ** Properties of the calls *)

(** X21: in every store reachable from the empty one, no chat holds both
    parties of a block (whoever blocked whom), nobody has blocked
    themselves, no chat lists a participant twice, and no two chats share
    an [_id]. *)
Theorem within_reach_blocks_respected st :
  within_reach st →
  blocks_respected st ∧
  (∀ b, b ∈ blocks st → BlockDoc.blocker b ≠ BlockDoc.blocked b) ∧
  (∀ c, c ∈ chats st → NoDup (ChatDoc.participants c)) ∧
  NoDup (doc_id <$> chats st).
Proof. by intros [? ? ? ? ? ? ?]%within_reach_is_sound. Qed.

Lemma within_reach_blocks_respected_witness :
  blocks_respected club ∧
  (∀ b, b ∈ blocks club → BlockDoc.blocker b ≠ BlockDoc.blocked b) ∧
  (∀ c, c ∈ chats club → NoDup (ChatDoc.participants c)) ∧
  NoDup (doc_id <$> chats club).
Proof.
  apply (within_reach_blocks_respected club), within_reach_club.
Defined.

(** X22: in every store reachable from the empty one, each stored message
    is listed by exactly one chat, exactly once, and the chats list
    nothing else: the chats' message lists, joined, are a rearrangement of
    the ids of the stored messages, which are pairwise different. *)
Theorem within_reach_messages_listed st :
  within_reach st →
  concat (ChatDoc.messages <$> chats st) ≡ₚ doc_id <$> messages st ∧
  NoDup (doc_id <$> messages st) ∧
  NoDup (concat (ChatDoc.messages <$> chats st)).
Proof.
  intros [_ _ _ _ Hnd Hlisted _]%within_reach_is_sound.
  split_and!; [done..|]. by rewrite Hlisted.
Qed.

Lemma within_reach_messages_listed_witness :
  concat (ChatDoc.messages <$> chats club) ≡ₚ doc_id <$> messages club ∧
  NoDup (doc_id <$> messages club) ∧
  NoDup (concat (ChatDoc.messages <$> chats club)).
Proof.
  apply (within_reach_messages_listed club), within_reach_club.
Defined.

(** X23: when the generator hands out an unused id, [startChat] succeeds
    exactly when the creator is among the participants, someone else is
    too, and no block lies between two different participants; the new
    chat then holds each participant once, in order of first mention, and
    no message.  Otherwise it answers with an error record and changes
    nothing, and the pair a block error names are participants with a
    block between them. *)
Theorem startChat_outcome creator ps st :
  fresh st ∉ doc_id <$> chats st →
  (creator ∈ ps ∧ (∃ u, u ∈ ps ∧ u ≠ creator) ∧
   (∀ b, b ∈ blocks st →
         BlockDoc.blocker b ∈ ps → BlockDoc.blocked b ∈ ps →
         BlockDoc.blocker b = BlockDoc.blocked b) →
   startChat creator ps st =
     (Done (fresh st),
      mkStore (chats st ++ [ChatDoc.mk (fresh st) (unique ps) []])
        (messages st) (blocks st) (S (issued st)))) ∧
  (¬ (creator ∈ ps ∧ (∃ u, u ∈ ps ∧ u ≠ creator) ∧
      (∀ b, b ∈ blocks st →
            BlockDoc.blocker b ∈ ps → BlockDoc.blocked b ∈ ps →
            BlockDoc.blocker b = BlockDoc.blocked b)) →
   ∃ e, startChat creator ps st = (Refused e, st)) ∧
  (∀ u1 u2 st',
     startChat creator ps st = (Refused (BlockExists u1 u2), st') →
     u1 ∈ ps ∧ u2 ∈ ps ∧ u1 ≠ u2 ∧ ∃ b, b ∈ blocks st ∧ between u1 u2 b).
Proof.
  intros Hfresh. rewrite <- startChat_requires. split_and!.
  - intros Hok.
    by destruct (startChat_cases creator ps st)
      as [[_ ?]|(_ & _ & _ & [[? _]|[_ ->]])].
  - intros Hno.
    destruct (startChat_cases creator ps st)
      as [[? _]|(? & ? & ? & _)]; [done|by destruct Hno].
  - intros u1 u2 st'. unfold startChat.
    repeat case_decide; try done.
    destruct (blocked_pair (blocks st) (unique ps))
      as [[v1 v2]|] eqn:E; [|by destruct (insertOne_in _ _)].
    intros [= -> -> <-].
    pose proof E as (H1 & H2 & Hb)%blocked_pair_Some.
    rewrite elem_of_unique in H1, H2. split_and!; [done..| |done].
    intros ->. destruct Hb as (b & Hb & Hbet).
    clear -E. pose proof (NoDup_unique ps) as Hnd.
    induction (unique ps) as [|u us IH]; [done|]. simpl in E.
    apply NoDup_cons in Hnd as [Hu Hnd].
    destruct (blocked_with (blocks st) u us) as [u'|] eqn:Ew.
    + injection E as -> ->. by apply blocked_with_Some in Ew as [? _].
    + by apply IH.
Qed.

Lemma startChat_outcome_witness :
  startChat "carol" ["carol"; "alice"; "carol"] club =
    (Done (fresh club),
     mkStore
       (chats club ++
          [ChatDoc.mk (fresh club) (unique ["carol"; "alice"; "carol"]) []])
       (messages club) (blocks club) (S (issued club))) ∧
  (∃ e, startChat "carol" ["carol"; "dave"] club = (Refused e, club)).
Proof.
  split.
  - apply (startChat_outcome "carol" ["carol"; "alice"; "carol"] club);
      [compute_done|].
    split_and!; [compute_done|exists "alice"; compute_done|].
    intros b Hb. assert (b = BlockDoc.mk "3" "carol" "dave") as ->.
    { by apply list_elem_of_singleton in Hb. }
    intros _ Hd. exfalso. revert Hd. compute_done.
  - apply (startChat_outcome "carol" ["carol"; "dave"] club);
      [compute_done|].
    intros (_ & _ & Hno).
    by specialize (Hno (BlockDoc.mk "3" "carol" "dave")
      ltac:(compute_done) ltac:(compute_done) ltac:(compute_done)).
Defined.

(** X24: a call that answers with an error record leaves chats, messages
    and blocks as they were, and hands out no identifier. *)
Theorem refusal_changes_nothing c st e :
  refusal c st = Some e → next c st = st.
Proof.
  destruct c as [creator ps|chat author body now|chat leaver|r t];
    unfold refusal, error_of; simpl.
  - by destruct (startChat_cases creator ps st)
      as [[[e' ->] _]|(_ & _ & _ & [[_ ->]|[_ ->]])].
  - by destruct (sendMessage_cases chat author body now st)
      as [[e' ->]|(c & _ & _ & [[_ ->]|[_ ->]])].
  - by destruct (leaveChat_cases chat leaver st)
      as [[e' ->]|(c & _ & _ & ->)].
  - by destruct (blockUser_cases r t st)
      as [[e' ->]|(_ & _ & [[_ ->]|[_ ->]])].
Qed.

Lemma refusal_changes_nothing_witness :
  refusal (SendMessage "1" "carol" "hi" 2000) club
    = Some (AuthorNotParticipant "carol" "1") ∧
  next (SendMessage "1" "carol" "hi" 2000) club = club.
Proof.
  split; [done|].
  by apply (refusal_changes_nothing _ club
              (AuthorNotParticipant "carol" "1")).
Defined.

(** X25: after a successful [blockUser], under the unique index on the
    chats' [_id]: [_isBlocked] answers true; no chat holds both users;
    the requester's chats are those the target was not in, the chats of
    everybody else are what they were; a [startChat] naming both is
    refused, and so is blocking again. *)
Theorem blockUser_separates r t st st' :
  NoDup (doc_id <$> chats st) →
  blockUser r t st = (Done (), st') →
  _isBlocked r t st' = true ∧
  (∀ c, c ∈ chats st' → ¬ holds_both r t c) ∧
  _getChatsForUser r st' =
    ChatDoc._id <$>
      filter (λ c, r ∈ ChatDoc.participants c ∧ t ∉ ChatDoc.participants c)
        (chats st) ∧
  (∀ u, u ≠ r → _getChatsForUser u st' = _getChatsForUser u st) ∧
  (∀ creator ps, r ∈ ps → t ∈ ps →
     ∃ e, startChat creator ps st' = (Refused e, st')) ∧
  blockUser r t st' = (Refused (AlreadyBlocked r t), st').
Proof.
  intros Hnd Hblock.
  destruct (blockUser_cases r t st)
    as [[e He]|(Hne & Hno & [[_ He]|[Hfresh He]])];
    rewrite He in Hblock; simplify_eq.
  assert (BlockDoc.mk (fresh st) r t
            ∈ blocks st ++ [BlockDoc.mk (fresh st) r t]) as Hnew.
  { apply elem_of_app. right. by apply list_elem_of_singleton. }
  assert (∃ b, findOne_in
                 (λ b, BlockDoc.blocker b = r ∧ BlockDoc.blocked b = t)
                 (blocks st ++ [BlockDoc.mk (fresh st) r t]) = Some b)
    as [b0 Hfound].
  { destruct (findOne_in _ _) as [b|] eqn:E; [by exists b|].
    rewrite findOne_in_None in E. by destruct (E _ Hnew). }
  split_and!.
  - unfold _isBlocked. simpl. by rewrite Hfound.
  - simpl. rewrite remove_from_filter by done.
    intros c' (c & -> & Hc)%list_elem_of_fmap.
    case_decide; [|done]. unfold holds_both. simpl.
    by intros [[? _]%list_elem_of_filter _].
  - unfold _getChatsForUser. simpl. rewrite remove_from_filter by done.
    apply getChats_fmap.
    + intros c. by case_decide.
    + intros c _. case_decide as Hboth; simpl.
      * rewrite list_elem_of_filter. unfold holds_both in Hboth. tauto.
      * unfold holds_both in Hboth. tauto.
  - intros u Hu. unfold _getChatsForUser. simpl.
    rewrite remove_from_filter by done.
    apply getChats_fmap.
    + intros c. by case_decide.
    + intros c _. case_decide; [|done]. simpl.
      rewrite list_elem_of_filter. tauto.
  - intros creator ps Hr Ht.
    destruct (startChat_cases creator ps
                (mkStore
                   (remove_from r (filter (holds_both r t) (chats st))
                      (chats st))
                   (messages st) (blocks st ++ [BlockDoc.mk (fresh st) r t])
                   (S (issued st))))
      as [[? _]|(_ & _ & Hnone & _)]; [done|].
    exfalso. apply Hne. simpl in Hnone.
    rewrite (blocked_pair_None _ _ (NoDup_unique ps)) in Hnone.
    by apply (Hnone _ Hnew); apply elem_of_unique.
  - unfold blockUser. rewrite decide_False by done. simpl.
    by rewrite Hfound.
Qed.

Lemma blockUser_separates_witness :
  _isBlocked "alice" "bob" (blockUser "alice" "bob" club).2 = true ∧
  _getChatsForUser "alice" (blockUser "alice" "bob" club).2 = [] ∧
  _getChatsForUser "bob" (blockUser "alice" "bob" club).2 = ["0"; "1"].
Proof.
  destruct (blockUser_separates "alice" "bob" club
              (blockUser "alice" "bob" club).2)
    as (H1 & _ & H2 & H3 & _); [compute_done|done|].
  split_and!; [done|by rewrite H2|by rewrite H3].
Defined.

(** X26: after a successful [leaveChat] the leaver can neither write to
    the chat nor leave it again, messages and blocks are untouched, the
    chats of everybody else are what they were, and (under the unique
    index on [_id]) the chat is no longer among the leaver's. *)
Theorem leaveChat_then chat leaver st st' :
  leaveChat chat leaver st = (Done (), st') →
  (∀ body now,
     sendMessage chat leaver body now st' =
       (Refused (AuthorNotParticipant leaver chat), st')) ∧
  leaveChat chat leaver st' =
    (Refused (LeaverNotParticipant leaver chat), st') ∧
  messages st' = messages st ∧
  blocks st' = blocks st ∧
  (∀ u, u ≠ leaver → _getChatsForUser u st' = _getChatsForUser u st) ∧
  (NoDup (doc_id <$> chats st) → chat ∉ _getChatsForUser leaver st').
Proof.
  intros Hleave.
  destruct (leaveChat_cases chat leaver st)
    as [[e He]|(c & Hc & Hin & He)]; rewrite He in Hleave; simplify_eq.
  assert (findOne_in (is_chat chat)
            (updateOne_in (is_chat chat) (pull_participant leaver)
               (chats st)) = Some (pull_participant leaver c)) as Hfound.
  { apply updateOne_in_findOne; [done|].
    by apply findOne_in_Some in Hc as [_ ?]. }
  assert (leaver ∉ ChatDoc.participants (pull_participant leaver c))
    as Hout.
  { simpl. by intros [? _]%list_elem_of_filter. }
  split_and!; try done.
  - intros body now. unfold sendMessage. simpl. rewrite Hfound.
    by rewrite decide_True.
  - unfold leaveChat. simpl. rewrite Hfound. by rewrite decide_True.
  - intros u Hu. unfold _getChatsForUser. simpl.
    apply getChats_updateOne_in; [done|].
    intros c0. simpl. rewrite list_elem_of_filter. tauto.
  - intros Hnd. unfold _getChatsForUser. simpl.
    intros (c' & Hid & [Hin' Hc']%list_elem_of_filter)%list_elem_of_fmap.
    apply (elem_of_updateOne_in_id (pull_participant leaver)
             (chats st) chat c' Hnd) in Hc'
      as [[_ Hne]|(c0 & _ & _ & ->)].
    + by apply Hne.
    + simpl in Hin'. by apply list_elem_of_filter in Hin' as [? _].
Qed.

Lemma leaveChat_then_witness :
  sendMessage "0" "bob" "bye" 3000 (leaveChat "0" "bob" club).2 =
    (Refused (AuthorNotParticipant "bob" "0"), (leaveChat "0" "bob" club).2)
  ∧ _getChatsForUser "bob" (leaveChat "0" "bob" club).2 = ["1"].
Proof.
  split; [|done].
  by apply (leaveChat_then "0" "bob" club (leaveChat "0" "bob" club).2).
Defined.

(** X27: a successful [sendMessage] returns the identifier just handed
    out, stores one message with the given author, body and time at the
    end of the collection, and appends its id to the messages of the chat
    the [_id] resolves to, in which the author is a participant; the
    blocks and everybody's chats are what they were. *)
Theorem sendMessage_appends chat author body now st m st' :
  sendMessage chat author body now st = (Done m, st') →
  m = fresh st ∧
  messages st' = messages st ++ [MessageDoc.mk m author body now] ∧
  blocks st' = blocks st ∧
  (∃ c, findOne_in (is_chat chat) (chats st) = Some c ∧
        author ∈ ChatDoc.participants c ∧
        findOne_in (is_chat chat) (chats st') = Some (push_message m c)) ∧
  (∀ u, _getChatsForUser u st' = _getChatsForUser u st).
Proof.
  intros Hsend.
  destruct (sendMessage_cases chat author body now st)
    as [[e He]|(c & Hc & Hin & [[_ He]|[Hfresh He]])];
    rewrite He in Hsend; simplify_eq.
  split_and!; try done.
  - exists c. split_and!; [done..|]. simpl.
    apply updateOne_in_findOne; [done|].
    by apply findOne_in_Some in Hc as [_ ?].
  - intros u. unfold _getChatsForUser. simpl.
    by apply getChats_updateOne_in.
Qed.

Lemma sendMessage_appends_witness :
  messages (sendMessage "1" "alice" "hi" 2000 club).2 =
    messages club ++ [MessageDoc.mk "4" "alice" "hi" 2000] ∧
  findOne_in (is_chat "1") (chats (sendMessage "1" "alice" "hi" 2000 club).2)
    = Some (ChatDoc.mk "1" ["alice"; "bob"] ["4"]).
Proof.
  destruct (sendMessage_appends "1" "alice" "hi" 2000 club "4"
              (sendMessage "1" "alice" "hi" 2000 club).2)
    as (_ & H1 & _ & _ & _); [done|].
  split; [exact H1|done].
Defined.



End MessagingFacts.
